(** * CyberXNoteloom: synthesis and DSP pipeline

    A shallow embedding of [noteloom/synthesizer.py], [noteloom/pipeline.py],
    [noteloom/effects.py] and [noteloom/converter.py], and of what feeds
    them: [noteloom/parser.py], [noteloom/sanitizer.py] and
    [noteloom/note_parser.py].

    Conventions of the embedding.
    - Numbers are rationals ([Q]), sample counts and indices are Python
      integers ([Z]).  The float arithmetic that decides a count, an index
      or a time (whatever reaches [int()], the clocks of the parsers, the
      durations) is binary64 arithmetic: the exact result of every
      operation is rounded to the nearest number of 53 significant bits,
      a tie to the even one ([b64]); the literals [0.01], [0.1], [0.2],
      [0.02] and [1e-6] are the binary64 numbers they denote.  The
      exponent is not bounded: overflow and subnormal numbers are not
      modelled.  The values of the samples are exact rationals: their
      rounding to binary32 is not modelled.
    - A function that may raise returns a [result]; the exceptions are the
      ones Python, numpy and scipy raise on the paths modelled.
    - The elementary functions of numpy ([np.sin], [np.exp], ...) are an
      interface ([Libm]); the global [np.random] generator is an explicit
      state ([RandomState]) threaded through the functions that draw from it.
    - A two-dimensional array of shape [(n, c)] is kept by channel: [c]
      columns of [n] samples, together with [n] itself.
    - A string is the list of its code points; a regular expression is
      the function that gives the length of its match at the start of a
      string.  The MIDI file is given as [mido] has read it: the ticks
      per beat and the messages of the tracks. *)

From Stdlib Require Import ZArith QArith Qround Qabs Qpower List Lia Lqa Bool.
From Stdlib Require Import Permutation.
From Stdlib Require String Ascii.
Import ListNotations.
Import String.StringSyntax.

Open Scope Z_scope.

(* ------------------------------------------------------------------ *)
(** * Python values: exceptions, floats, [int()], sequences *)

Module Py.

Inductive exn : Type :=
| ValueError
| IndexError
| KeyError
| ZeroDivisionError
| UnboundLocalError
| NonFinite.  (* an inf or nan, which has no rational counterpart *)

Inductive result (A : Type) : Type :=
| Ok (a : A)
| Raise (e : exn).

Arguments Ok {A} a.
Arguments Raise {A} e.

Definition bind {A B} (r : result A) (k : A -> result B) : result B :=
  match r with
  | Ok a => k a
  | Raise e => Raise e
  end.

Definition is_ok {A} (r : result A) : bool :=
  match r with Ok _ => true | Raise _ => false end.

(** [int(x)] of a float: truncation toward zero. *)
Definition int (x : Q) : Z := Z.quot (Qnum x) (Z.pos (Qden x)).

(** Python's [round(x)]: to the nearest integer, a tie to the even one. *)
Definition py_round (x : Q) : Z :=
  let f := Qfloor x in
  let r := (x - inject_Z f)%Q in
  if Qlt_le_dec r (1 # 2) then f
  else if Qlt_le_dec (1 # 2) r then f + 1
  else if Z.even f then f else f + 1.

(** The exponent [k] of the binade [2^k <= x < 2^(k+1)] of a positive
    number. *)
Definition binade (x : Q) : Z :=
  let l := Z.log2 (Qnum x) - Z.log2 (Z.pos (Qden x)) in
  if Qle_bool (2 ^ l) x then l else l - 1.

(** A positive number rounded to 53 significant bits: the significand
    [x / 2^(k - 52)] is rounded to the nearest integer, a tie to the even
    one. *)
Definition nearest53 (x : Q) : Q :=
  (inject_Z (py_round (x / 2 ^ (binade x - 52))) * 2 ^ (binade x - 52))%Q.

(** The binary64 number nearest to [x]: what a float operation returns
    when [x] is its exact result. *)
Definition b64 (x : Q) : Q :=
  match (x ?= 0)%Q with
  | Eq => 0%Q
  | Gt => Qred (nearest53 (Qred x))
  | Lt => Qred (- nearest53 (Qred (- x)))
  end.

(** [len(l)] as a Python integer. *)
Definition len {A} (l : list A) : Z := Z.of_nat (length l).

(** A slice bound [i] of a sequence of length [n], as Python normalises it:
    a negative bound counts from the end, and the result is clamped to
    [0 .. n]. *)
Definition norm_index (n i : Z) : Z :=
  if i <? 0 then Z.max 0 (i + n) else Z.min i n.

(** [l[:k]] for any integer [k]. *)
Definition slice_to {A} (l : list A) (k : Z) : list A :=
  firstn (Z.to_nat (norm_index (len l) k)) l.

(** [max(a, b)] of two numbers: [b] when it is the greater, else [a]. *)
Definition max2 (a b : Q) : Q := if Qlt_le_dec a b then b else a.

(** [max(l)] of a list of numbers: [ValueError] on the empty list. *)
Definition max_list (l : list Q) : result Q :=
  match l with
  | [] => Raise ValueError
  | x :: l' => Ok (fold_left max2 l' x)
  end.

(** [x / y] on Python numbers: the exact quotient, and the quotient as
    binary64 returns it. *)
Definition truediv (x y : Q) : result Q :=
  if Qeq_bool y 0 then Raise ZeroDivisionError else Ok (x / y)%Q.

Definition truediv64 (x y : Q) : result Q :=
  if Qeq_bool y 0 then Raise ZeroDivisionError else Ok (b64 (x / y)).

(** [x / y] on [np.float64] scalars: a zero divisor gives an inf or a nan
    and no exception. *)
Definition np_divide (x y : Q) : result Q :=
  if Qeq_bool y 0 then Raise NonFinite else Ok (x / y)%Q.

(** [l[::k]] for [k >= 1]: every [k]-th element, from the first. *)
Fixpoint stride_from {A} (skip : nat) (k : nat) (l : list A) : list A :=
  match l with
  | [] => []
  | x :: l' =>
      match skip with
      | O => x :: stride_from (k - 1) k l'
      | S s => stride_from s k l'
      end
  end.

Definition stride {A} (l : list A) (k : nat) : list A := stride_from 0 k l.

End Py.

Import Py.

Notation "x <- e ;; k" := (Py.bind e (fun x => k))
  (at level 61, e at next level, right associativity).

(* ------------------------------------------------------------------ *)
(** * numpy array constructors *)

Module Np.

(** [np.linspace(start, stop, num, endpoint)].  A negative [num] raises
    [ValueError]; otherwise the [i]-th value is [start + i * step] with
    [step = (stop - start) / div], [div = num - 1] with the endpoint and
    [num] without (for [div = 0] the index multiplies the whole span), and
    with the endpoint and more than one sample the last value is set to
    [stop]. *)
Definition linspace_val (start stop : Q) (div : Z) (i : nat) : Q :=
  if div >? 0
  then (inject_Z (Z.of_nat i) * ((stop - start) / inject_Z div) + start)%Q
  else (inject_Z (Z.of_nat i) * (stop - start) + start)%Q.

Definition set_last (l : list Q) (v : Q) : list Q :=
  match l with
  | [] => []
  | _ => removelast l ++ [v]
  end.

Definition linspace (start stop : Q) (num : Z) (endpoint : bool)
  : result (list Q) :=
  if num <? 0 then Raise ValueError
  else
    let div := if endpoint then num - 1 else num in
    let y := map (linspace_val start stop div) (seq 0 (Z.to_nat num)) in
    Ok (if endpoint && (num >? 1) then set_last y stop else y).

(** [np.full(n, v)]: a negative length raises [ValueError]. *)
Definition full (n : Z) (v : Q) : result (list Q) :=
  if n <? 0 then Raise ValueError else Ok (repeat v (Z.to_nat n)).

(** [np.pad(a, (0, k), mode='constant')]: a negative width raises. *)
Definition pad_right (a : list Q) (k : Z) : result (list Q) :=
  if k <? 0 then Raise ValueError else Ok (a ++ repeat 0%Q (Z.to_nat k)).

End Np.

(* ------------------------------------------------------------------ *)
(** * synthesizer.py: the ADSR envelope *)

(** [apply_adsr_envelope(note_duration, sample_rate, attack, decay,
    sustain_level, release)]. *)
Definition apply_adsr_envelope (note_duration : Q) (sample_rate : Z)
  (attack decay sustain_level release : Q) : result (list Q) :=
  let sr := inject_Z sample_rate in
  let total_samples := int (b64 (note_duration * sr)) in
  let attack_samples := int (b64 (attack * sr)) in
  let decay_samples := int (b64 (decay * sr)) in
  let release_samples := int (b64 (release * sr)) in
  let sustain_samples :=
    total_samples - (attack_samples + decay_samples + release_samples) in
  let sustain_samples := if sustain_samples <? 0 then 0 else sustain_samples in
  attack_env <- Np.linspace 0 1 attack_samples false ;;
  decay_env <- Np.linspace 1 sustain_level decay_samples false ;;
  sustain_env <- Np.full sustain_samples sustain_level ;;
  release_env <- Np.linspace sustain_level 0 release_samples true ;;
  let envelope := attack_env ++ decay_env ++ sustain_env ++ release_env in
  if len envelope <? total_samples
  then Np.pad_right envelope (total_samples - len envelope)
  else Ok envelope.

(** The defaults of the signature: [attack=0.01, decay=0.1,
    sustain_level=0.7, release=0.2].  The three times are multiplied by
    the sample rate and truncated; the level is a sample value. *)
Definition default_attack : Q := Eval vm_compute in b64 (1 # 100).
Definition default_decay : Q := Eval vm_compute in b64 (1 # 10).
Definition default_sustain_level : Q := 7 # 10.
Definition default_release : Q := Eval vm_compute in b64 (2 # 10).

Definition apply_adsr_envelope_default (note_duration : Q) (sample_rate : Z)
  : result (list Q) :=
  apply_adsr_envelope note_duration sample_rate
    default_attack default_decay default_sustain_level default_release.

(* ------------------------------------------------------------------ *)
(** * Elementary functions, random numbers and arrays *)

(** The elementary functions the program calls on floats. *)
Class Libm : Type := {
  np_sin : Q -> Q;
  np_cos : Q -> Q;
  np_tan : Q -> Q;
  np_exp : Q -> Q;
  np_sqrt : Q -> Q;
  np_power : Q -> Q -> Q
}.

(** [np.pi], the binary64 value [3.141592653589793]. *)
Definition np_pi : Q := 884279719003555 # 281474976710656.

(** [b ** e]: exact for an integral exponent (in particular [b ** 0 = 1]),
    the library's [pow] otherwise.  The program raises 2, 10 and the tail
    decay to a power, and the last only to exponents that are not
    negative. *)
Definition py_pow `{Libm} (b e : Q) : Q :=
  if Pos.eqb (Qden (Qred e)) 1 then Qpower b (Qnum (Qred e)) else np_power b e.

(** The state of the global [np.random] generator: the variates it is going
    to deliver, unit uniforms in [[0, 1)] and standard normals, and how many
    were consumed. *)
Record RandomState : Type := {
  unit_uniform : nat -> Q;
  standard_normal : nat -> Q;
  cursor : nat
}.

Definition advance (k : nat) (g : RandomState) : RandomState :=
  {| unit_uniform := unit_uniform g;
     standard_normal := standard_normal g;
     cursor := (cursor g + k)%nat |}.

(** A two-dimensional array of shape [(shape0, length columns)]. *)
Record ndarray : Type := {
  shape0 : nat;
  columns : list (list Q)
}.

Definition shape1 (a : ndarray) : nat := length (columns a).

(** Every column holds [shape0] samples. *)
Definition well_shaped (a : ndarray) : Prop :=
  Forall (fun c => length c = shape0 a) (columns a).

(** [np.zeros((n, c))]. *)
Definition np_zeros (n c : Z) : result ndarray :=
  if (n <? 0) || (c <? 0) then Raise ValueError
  else Ok {| shape0 := Z.to_nat n;
             columns := repeat (repeat 0%Q (Z.to_nat n)) (Z.to_nat c) |}.

(** [np.random.uniform(low, high, (n, c))]: the array is filled row by row,
    so the sample of row [i] and column [ch] is the [(i * c + ch)]-th draw. *)
Definition random_uniform (low high : Q) (n c : nat) (g : RandomState)
  : ndarray * RandomState :=
  let draw i ch :=
    (low + (high - low) * unit_uniform g (cursor g + i * c + ch)%nat)%Q in
  ({| shape0 := n;
      columns := map (fun ch => map (fun i => draw i ch) (seq 0 n)) (seq 0 c) |},
   advance (n * c) g).

(** [np.random.randn(n)]. *)
Definition random_randn (n : nat) (g : RandomState) : list Q * RandomState :=
  (map (fun i => standard_normal g (cursor g + i)%nat) (seq 0 n), advance n g).

(** Elementwise [x * y] of two arrays of one length. *)
Definition np_multiply (x y : list Q) : list Q :=
  map (fun p => (fst p * snd p)%Q) (combine x y).

(** [col[k:k+len(rhs)] += rhs], stopping at the end of [col]. *)
Fixpoint add_from (k : nat) (col rhs : list Q) : list Q :=
  match col with
  | [] => []
  | x :: col' =>
      match k with
      | S k' => x :: add_from k' col' rhs
      | O =>
          match rhs with
          | [] => col
          | r :: rhs' => (x + r)%Q :: add_from 0 col' rhs'
          end
      end
  end.

(** [audio[a:b, :] += np.tile(rhs[:, np.newaxis], (1, channels))]: the
    rows selected are those of the slice [a:b]; [rhs] must have as many
    samples as the slice has rows, or a single one, which numpy repeats;
    any other length raises [ValueError] and leaves [audio] as it was. *)
Definition iadd_rows (audio : ndarray) (a b : Z) (rhs : list Q)
  : result ndarray :=
  let n := Z.of_nat (shape0 audio) in
  let a' := norm_index n a in
  let b' := norm_index n b in
  let v := Z.max 0 (b' - a') in
  if len rhs =? v then
    Ok {| shape0 := shape0 audio;
          columns := map (fun col => add_from (Z.to_nat a') col rhs)
                         (columns audio) |}
  else if len rhs =? 1 then
    Ok {| shape0 := shape0 audio;
          columns := map (fun col => add_from (Z.to_nat a') col
                                       (repeat (hd 0%Q rhs) (Z.to_nat v)))
                         (columns audio) |}
  else Raise ValueError.

(* ------------------------------------------------------------------ *)
(** * synthesizer.py: HybridSynthesizer *)

Inductive event_type : Type :=
| note_on | note_off | tempo | sustain | pitch_bend.

Definition event_type_eqb (a b : event_type) : bool :=
  match a, b with
  | note_on, note_on | note_off, note_off | tempo, tempo
  | sustain, sustain | pitch_bend, pitch_bend => true
  | _, _ => false
  end.

(** An event dictionary: ['type'] and ['time'] (microseconds) are always
    present, the other keys only on the events that carry them. *)
Record midi_event : Type := {
  ev_type : event_type;
  ev_time : Q;
  ev_note : option Z;
  ev_velocity : option Z;
  ev_channel : option Z;
  ev_value : option Q
}.

(** [d[key]]: [KeyError] when the key is absent. *)
Definition getitem {A} (field : option A) : result A :=
  match field with
  | Some v => Ok v
  | None => Raise KeyError
  end.

(** [d.get(key) == v]: [None] equals no integer. *)
Definition get_eqb (field : option Z) (v : Z) : bool :=
  match field with
  | Some x => x =? v
  | None => false
  end.

Record HybridSynthesizer : Type := {
  sample_rate : Z;
  channels : Z;
  duration : Q
}.

(** [generate_pedal_noise(sample_rate, pedal_value)]: the one function of
    the synthesizer module that draws random numbers.  A negative size
    makes [np.random.uniform] raise [ValueError] before it draws. *)
Definition generate_pedal_noise (sample_rate : Z) (pedal_value : Q)
  (g : RandomState) : result (list Q * RandomState) :=
  let click_samples := int (b64 (b64 (2 # 100) * inject_Z sample_rate)) in
  if click_samples <? 0 then Raise ValueError
  else
    let '(u, g') :=
      random_uniform (-(1 # 10)) (1 # 10) (Z.to_nat click_samples) 1 g in
    Ok (map (fun x => (x * (pedal_value / 127))%Q) (concat (columns u)), g').

Section Synthesizer.

Context `{L : Libm}.

(** [HybridSynthesizer.synthesize_note(freq, duration, velocity)]. *)
Definition synthesize_note (self : HybridSynthesizer)
  (freq duration : Q) (velocity : Z) : result (list Q) :=
  let num_samples := int (b64 (duration * inject_Z (sample_rate self))) in
  t <- Np.linspace 0 duration num_samples false ;;
  let tone := map (fun ti => np_sin (2 * np_pi * freq * ti)) t in
  envelope <- apply_adsr_envelope_default duration (sample_rate self) ;;
  let min_len := Z.min (len tone) (len envelope) in
  let tone' :=
    if negb (len tone =? len envelope) then slice_to tone min_len else tone in
  let envelope' :=
    if negb (len tone =? len envelope) then slice_to envelope min_len
    else envelope in
  let velocity_factor := (inject_Z velocity / 127)%Q in
  Ok (map (fun x => (x * velocity_factor)%Q) (np_multiply tone' envelope')).

(** The fallback duration of [render] for a note with no note-off. *)
Definition default_duration_sec : Q := 1 # 2.

(** The inner loop of [render]: the duration of the note started by
    [event], from the first later note-off of the same note and channel. *)
Fixpoint note_duration_sec (event : midi_event) (subsequent : list midi_event)
  : result Q :=
  match subsequent with
  | [] => Ok default_duration_sec
  | s :: rest =>
      if event_type_eqb (ev_type s) note_off then
        note <- getitem (ev_note event) ;;
        if get_eqb (ev_note s) note then
          channel <- getitem (ev_channel event) ;;
          if get_eqb (ev_channel s) channel then
            let note_off_time := b64 (ev_time s / 1000000) in
            let note_on_time := b64 (ev_time event / 1000000) in
            Ok (max2 (b64 (1 # 10)) (b64 (note_off_time - note_on_time)))
          else note_duration_sec event rest
        else note_duration_sec event rest
      else note_duration_sec event rest
  end.

(** [start_sample] of the closure [synthesize] of [render]:
    [int(event['time'] * self.sample_rate / 1e6)], the product and the
    quotient each rounded. *)
Definition start_sample_of (self : HybridSynthesizer) (event : midi_event) : Z :=
  int (b64 (b64 (ev_time event * inject_Z (sample_rate self)) / 1000000)).

(** The closure [synthesize(event, duration_sec)] of [render], as it acts
    on the shared array [audio] of [num_samples] rows.  A failure of
    [synthesize_note] is caught and the voice is dropped. *)
Definition synthesize (self : HybridSynthesizer) (num_samples : Z)
  (event : midi_event) (duration_sec : Q) (audio : ndarray) : result ndarray :=
  note <- getitem (ev_note event) ;;
  velocity <- getitem (ev_velocity event) ;;
  let start_sample := start_sample_of self event in
  let freq := (440 * py_pow 2 (inject_Z (note - 69) / 12))%Q in
  match synthesize_note self freq duration_sec velocity with
  | Raise _ => Ok audio
  | Ok note_wave =>
      let end_sample := Z.min (start_sample + len note_wave) num_samples in
      iadd_rows audio start_sample end_sample
        (slice_to note_wave (end_sample - start_sample))
  end.

(** A voice thread: an exception that escapes [synthesize] ends the thread
    and nothing was written. *)
Definition run_voice (self : HybridSynthesizer) (num_samples : Z)
  (event : midi_event) (duration_sec : Q) (audio : ndarray) : ndarray :=
  match synthesize self num_samples event duration_sec audio with
  | Ok audio' => audio'
  | Raise _ => audio
  end.

(** The event loop of [render].  The voice threads write under one lock;
    they are taken in the order they were started. *)
Fixpoint render_events (self : HybridSynthesizer) (num_samples : Z)
  (midi_events : list midi_event) (audio : ndarray) : result ndarray :=
  match midi_events with
  | [] => Ok audio
  | event :: rest =>
      if event_type_eqb (ev_type event) note_on then
        duration_sec <- note_duration_sec event rest ;;
        render_events self num_samples rest
          (run_voice self num_samples event duration_sec audio)
      else render_events self num_samples rest audio
  end.

(** [HybridSynthesizer.render(midi_events)]. *)
Definition render (self : HybridSynthesizer) (midi_events : list midi_event)
  : result ndarray :=
  let num_samples := int (b64 (inject_Z (sample_rate self) * duration self)) in
  audio <- np_zeros num_samples (channels self) ;;
  render_events self num_samples midi_events audio.

End Synthesizer.

(* ------------------------------------------------------------------ *)
(** * numpy and scipy signal routines *)

(** Sample values that scipy's filter design computes and this development
    does not: the output samples of the polyphase resampler and the taps
    of the windowed FIR design.  What the program relies on, the lengths
    and the error cases, is written out below. *)
Class Scipy : Type := {
  resample_poly_value : list Q -> Z -> Z -> nat -> Q;
  firwin_tap : Z -> Q -> Q -> nat -> Q
}.

(** [arr[:, ch] = values]: [values] has one sample per row, or a single
    one, which is repeated; a channel out of range is an [IndexError]. *)
Definition set_column (arr : ndarray) (ch : nat) (values : list Q)
  : result ndarray :=
  if (shape1 arr <=? ch)%nat then Raise IndexError
  else if (length values =? shape0 arr)%nat then
    Ok {| shape0 := shape0 arr;
          columns := firstn ch (columns arr) ++ values
                       :: skipn (S ch) (columns arr) |}
  else if (length values =? 1)%nat then
    Ok {| shape0 := shape0 arr;
          columns := firstn ch (columns arr)
                       ++ repeat (hd 0%Q values) (shape0 arr)
                       :: skipn (S ch) (columns arr) |}
  else Raise ValueError.

(** [l[i] = v] on a one-dimensional array, for any integer [i]. *)
Definition setitem (l : list Q) (i : Z) (v : Q) : result (list Q) :=
  let n := len l in
  if (i <? - n) || (n <=? i) then Raise IndexError
  else
    let k := Z.to_nat (if i <? 0 then i + n else i) in
    Ok (firstn k l ++ v :: skipn (S k) l).

(** [np.max(np.abs(a))] over every sample of [a]: an array without samples
    has no maximum. *)
Definition max_abs (samples : list Q) : result Q :=
  max_list (map Qabs samples).

(** Samplewise sum of two sequences; the longer one's tail is kept. *)
Fixpoint add_lists (x y : list Q) : list Q :=
  match x, y with
  | [], _ => y
  | _, [] => x
  | a :: x', b :: y' => (a + b)%Q :: add_lists x' y'
  end.

(** The full linear convolution of [a] with a kernel [v]:
    [out[k] = sum_i a[i] * v[k - i]], of [len a + len v - 1] samples. *)
Fixpoint convolve_full (a v : list Q) : list Q :=
  match a with
  | [] => []
  | x :: a' =>
      match v with
      | [] => []
      | _ => add_lists (map (Qmult x) v) (0%Q :: convolve_full a' v)
      end
  end.

(** [np.convolve(a, v, mode='same')]: the middle [max(M, N)] samples of the
    full convolution; an empty operand raises. *)
Definition np_convolve_same (a v : list Q) : result (list Q) :=
  match a, v with
  | [], _ | _, [] => Raise ValueError
  | _, _ =>
      let m := length a in
      let n := length v in
      let off := ((Nat.min m n - 1) / 2)%nat in
      Ok (firstn (Nat.max m n) (skipn off (convolve_full a v)))
  end.

(** [scipy.signal.fftconvolve(a, v, mode='full')]. *)
Definition fftconvolve_full (a v : list Q) : list Q := convolve_full a v.

Section Signal.

Context `{SP : Scipy}.

(** [scipy.signal.resample_poly(x, up, down)]: the factors are reduced by
    their gcd; equal factors return a copy of [x]; otherwise the output has
    [ceil(len(x) * up / down)] samples. *)
Definition resample_poly (x : list Q) (up down : Z) : result (list Q) :=
  if (up <? 1) || (down <? 1) then Raise ValueError
  else
    let g := Z.gcd up down in
    let up' := up / g in
    let down' := down / g in
    if (up' =? 1) && (down' =? 1) then Ok x
    else
      let n_out := len x * up' in
      let n_out := n_out / down' + (if n_out mod down' =? 0 then 0 else 1) in
      Ok (map (resample_poly_value x up' down') (seq 0 (Z.to_nat n_out))).

(** [scipy.signal.firwin(numtaps, cutoff, window=('kaiser', beta))]: a
    cutoff outside [(0, 1)] is refused. *)
Definition firwin (numtaps : Z) (cutoff beta : Q) : result (list Q) :=
  if Qle_bool cutoff 0 || Qle_bool 1 cutoff || (numtaps <? 1)
  then Raise ValueError
  else Ok (map (firwin_tap numtaps cutoff beta) (seq 0 (Z.to_nat numtaps))).

End Signal.

(** [scipy.signal.lfilter(b, a, x)] for a second-order section, after the
    division of every coefficient by [a[0]]; [x1 x2 y1 y2] are the two
    previous inputs and outputs. *)
Fixpoint lfilter_from (b0 b1 b2 a1 a2 : Q) (x1 x2 y1 y2 : Q) (x : list Q)
  : list Q :=
  match x with
  | [] => []
  | xn :: x' =>
      let yn := (b0 * xn + b1 * x1 + b2 * x2 - a1 * y1 - a2 * y2)%Q in
      yn :: lfilter_from b0 b1 b2 a1 a2 xn x1 yn y1 x'
  end.

Definition lfilter (b a : Q * Q * Q) (x : list Q) : result (list Q) :=
  let '(b0, b1, b2) := b in
  let '(a0, a1, a2) := a in
  if Qeq_bool a0 0 then Raise ValueError
  else Ok (lfilter_from (b0 / a0) (b1 / a0) (b2 / a0) (a1 / a0) (a2 / a0)
             0 0 0 0 x).

Section Design.

Context `{L : Libm}.

(** [scipy.signal.iirpeak(w0, Q)]: the second-order resonator
    [b = (1 - gain) * [1, 0, -1]], [a = [1, -2 gain cos w0, 2 gain - 1]]. *)
Definition iirpeak (w0 q : Q) : result ((Q * Q * Q) * (Q * Q * Q)) :=
  if Qlt_le_dec 1 w0 then Raise ValueError
  else if Qlt_le_dec w0 0 then Raise ValueError
  else
    bw <- truediv w0 q ;;
    let bw := (bw * np_pi)%Q in
    let w0 := (w0 * np_pi)%Q in
    gb <- np_divide 1 (np_sqrt 2) ;;
    r <- np_divide gb (np_sqrt (1 - py_pow gb 2)) ;;
    let beta := (r * np_tan (bw / 2))%Q in
    gain <- np_divide 1 (1 + beta) ;;
    let k := (1 - gain)%Q in
    Ok ((k * 1, k * 0, k * -1)%Q,
        (1, -2 * gain * np_cos w0, 2 * gain - 1)%Q).

End Design.

(* ------------------------------------------------------------------ *)
(** * pipeline.py *)

(** Samplewise operations on two-dimensional arrays. *)
Definition map_samples (f : Q -> Q) (a : ndarray) : ndarray :=
  {| shape0 := shape0 a; columns := map (map f) (columns a) |}.

Definition zip_samples (f : Q -> Q -> Q) (a b : ndarray) : ndarray :=
  {| shape0 := shape0 a;
     columns := map (fun p => map (fun s => f (fst s) (snd s))
                                (combine (fst p) (snd p)))
                    (combine (columns a) (columns b)) |}.

(** Every sample of the array, for a reduction over all of it. *)
Definition all_samples (a : ndarray) : list Q := concat (columns a).

(** The per-channel loops [for ch in range(channels): out[:, ch] = f(pcm[:, ch])]
    of the pipeline: [out] starts as [acc] and receives channel after
    channel. *)
Fixpoint per_channel (f : list Q -> result (list Q)) (cols : list (list Q))
  (ch : nat) (acc : ndarray) : result ndarray :=
  match cols with
  | [] => Ok acc
  | col :: rest =>
      y <- f col ;;
      acc' <- set_column acc ch y ;;
      per_channel f rest (S ch) acc'
  end.

Section Pipeline.

Context `{SP : Scipy}.

(** [Oversampler(factor).process(pcm)]: the channels are resampled one by
    one and stacked; [np.stack] refuses an empty list of channels. *)
Fixpoint oversample_channels (factor : Z) (cols : list (list Q))
  : result (list (list Q)) :=
  match cols with
  | [] => Ok []
  | col :: rest =>
      up_ch <- resample_poly col factor 1 ;;
      ups <- oversample_channels factor rest ;;
      Ok (up_ch :: ups)
  end.

Definition Oversampler_process (factor : Z) (pcm : ndarray) : result ndarray :=
  upsampled_list <- oversample_channels factor (columns pcm) ;;
  match upsampled_list with
  | [] => Raise ValueError
  | c :: _ => Ok {| shape0 := length c; columns := upsampled_list |}
  end.

(** [AntiAliasFilter.process(pcm)] with the kernel designed at
    construction. *)
Definition AntiAliasFilter_process (kernel : list Q) (pcm : ndarray)
  : result ndarray :=
  per_channel (fun col => np_convolve_same col kernel) (columns pcm) 0
    (map_samples (fun _ => 0%Q) pcm).

(** The soft-knee curve of one sample. *)
Definition soft_knee (threshold ratio x : Q) : Q :=
  if Qlt_le_dec threshold (Qabs x)
  then (inject_Z (Z.sgn (Qnum x))
        * (threshold + (Qabs x - threshold) / ratio))%Q
  else x.

(** [DynamicsProcessor(threshold, ratio).process(pcm)]: a zero ratio makes
    the samples over the threshold infinite. *)
Definition DynamicsProcessor_process (threshold ratio : Q) (pcm : ndarray)
  : result ndarray :=
  if Qeq_bool ratio 0
     && existsb (fun x => if Qlt_le_dec threshold (Qabs x) then true else false)
          (all_samples pcm)
  then Raise NonFinite
  else Ok (map_samples (soft_knee threshold ratio) pcm).

(** The scaling step of the normalizer: [pcm / max_val] when the peak is
    positive, [pcm] itself otherwise. *)
Definition normalize_scale (pcm : ndarray) : result ndarray :=
  max_val <- max_abs (all_samples pcm) ;;
  if Qlt_le_dec 0 max_val
  then Ok (map_samples (fun x => (x / max_val)%Q) pcm)
  else Ok pcm.

(** The dither of the normalizer: the sum of two uniform draws in
    [[-dither_amp, dither_amp]] per sample. *)
Definition tpdf_noise (dither_amp : Q) (n c : nat) (g : RandomState)
  : ndarray * RandomState :=
  let '(u1, g1) := random_uniform (- dither_amp) dither_amp n c g in
  let '(u2, g2) := random_uniform (- dither_amp) dither_amp n c g1 in
  (zip_samples Qplus u1 u2, g2).

(** [Normalizer(dither_amp).process(pcm)]. *)
Definition Normalizer_process (dither_amp : Q) (pcm : ndarray)
  (g : RandomState) : result (ndarray * RandomState) :=
  pcm' <- normalize_scale pcm ;;
  let '(noise, g') := tpdf_noise dither_amp (shape0 pcm') (shape1 pcm') g in
  Ok (zip_samples Qplus pcm' noise, g').

(** The processing blocks an [AudioPipeline] chains. *)
Inductive block : Type :=
| Oversampler (factor : Z)
| AntiAliasFilter (kernel : list Q)
| DynamicsProcessor (threshold ratio : Q)
| Normalizer (dither_amp : Q).

Definition block_process (b : block) (pcm : ndarray) (g : RandomState)
  : result (ndarray * RandomState) :=
  match b with
  | Oversampler factor =>
      r <- Oversampler_process factor pcm ;; Ok (r, g)
  | AntiAliasFilter kernel =>
      r <- AntiAliasFilter_process kernel pcm ;; Ok (r, g)
  | DynamicsProcessor threshold ratio =>
      r <- DynamicsProcessor_process threshold ratio pcm ;; Ok (r, g)
  | Normalizer dither_amp => Normalizer_process dither_amp pcm g
  end.

(** [AudioPipeline(blocks).process(pcm)]. *)
Fixpoint AudioPipeline_process (blocks : list block) (pcm : ndarray)
  (g : RandomState) : result (ndarray * RandomState) :=
  match blocks with
  | [] => Ok (pcm, g)
  | b :: rest =>
      r <- block_process b pcm g ;;
      AudioPipeline_process rest (fst r) (snd r)
  end.

End Pipeline.

(* ------------------------------------------------------------------ *)
(** * effects.py *)

(** [a / m] when [m = np.max(np.abs(a))] is not zero, [a] otherwise. *)
Definition normalize_by_peak (a : list Q) : result (list Q) :=
  m <- max_abs a ;;
  if Qeq_bool m 0 then Ok a else Ok (map (fun x => (x / m)%Q) a).

(** The loop that writes the early reflections into the impulse response. *)
Fixpoint write_reflections (sample_rate : Z) (early_decay : Q)
  (early_ir_length : Z) (delays : list Q) (early_ir : list Q)
  : result (list Q) :=
  match delays with
  | [] => Ok early_ir
  | delay_ms :: rest =>
      let delay_samples := int (delay_ms * inject_Z sample_rate / 1000) in
      if delay_samples <? early_ir_length then
        early_ir' <- setitem early_ir delay_samples early_decay ;;
        write_reflections sample_rate early_decay early_ir_length rest early_ir'
      else write_reflections sample_rate early_decay early_ir_length rest early_ir
  end.

(** The mix [(1.0 - wet_mix) * pcm + wet_mix * wet]. *)
Definition wet_dry_mix (wet_mix : Q) (pcm wet : ndarray) : ndarray :=
  zip_samples (fun d w => ((1 - wet_mix) * d + wet_mix * w)%Q) pcm wet.

(** One channel of the wet signal: the full convolution cut to the length
    of the input. *)
Definition wet_channel (ir : list Q) (rows : nat) (col : list Q) : result (list Q) :=
  Ok (slice_to (fftconvolve_full col ir) (Z.of_nat rows)).

Section Effects.

Context `{L : Libm}.

(** The early part of the impulse response. *)
Definition early_reflections (sample_rate : Z) (early_delay_ms : list Q)
  (early_decay : Q) : result (list Q) :=
  longest <- max_list early_delay_ms ;;
  let early_ir_length := int (longest * inject_Z sample_rate / 1000) + 1 in
  early_ir <- Np.full early_ir_length 0 ;;
  early_ir <- setitem early_ir 0 1 ;;
  early_ir <- write_reflections sample_rate early_decay early_ir_length
                early_delay_ms early_ir ;;
  normalize_by_peak early_ir.

(** The late part: noise under [exp(-3 t)] and [tail_decay ** n]. *)
Definition late_tail (sample_rate : Z) (tail_decay tail_length_sec : Q)
  (g : RandomState) : result (list Q * RandomState) :=
  let tail_length := int (tail_length_sec * inject_Z sample_rate) in
  t <- Np.linspace 0 tail_length_sec tail_length false ;;
  let '(noise, g') := random_randn (Z.to_nat tail_length) g in
  let shaped := np_multiply noise (map (fun ti => np_exp (-3 * ti)) t) in
  let tail_ir :=
    np_multiply shaped
      (map (fun n => py_pow tail_decay (inject_Z (Z.of_nat n)))
           (seq 0 (Z.to_nat tail_length))) in
  tail_ir <- normalize_by_peak tail_ir ;;
  Ok (tail_ir, g').

(** The combined impulse response: both parts padded to the longer one and
    summed. *)
Definition impulse_response (sample_rate : Z) (early_delay_ms : list Q)
  (early_decay tail_decay tail_length_sec : Q) (g : RandomState)
  : result (list Q * RandomState) :=
  early_ir <- early_reflections sample_rate early_delay_ms early_decay ;;
  r <- late_tail sample_rate tail_decay tail_length_sec g ;;
  let tail_ir := fst r in
  let combined_length := Z.max (len early_ir) (len tail_ir) in
  early_ir_padded <- Np.pad_right early_ir (combined_length - len early_ir) ;;
  tail_ir_padded <- Np.pad_right tail_ir (combined_length - len tail_ir) ;;
  Ok (add_lists early_ir_padded tail_ir_padded, snd r).

(** [apply_advanced_reverb(pcm, sample_rate, early_delay_ms, early_decay,
    tail_decay, tail_length_sec, wet_mix)]. *)
Definition apply_advanced_reverb (pcm : ndarray) (sample_rate : Z)
  (early_delay_ms : list Q) (early_decay tail_decay tail_length_sec wet_mix : Q)
  (g : RandomState) : result (ndarray * RandomState) :=
  r <- impulse_response sample_rate early_delay_ms early_decay tail_decay
         tail_length_sec g ;;
  let ir := fst r in
  wet <- per_channel (wet_channel ir (shape0 pcm)) (columns pcm) 0
           (map_samples (fun _ => 0%Q) pcm) ;;
  Ok (wet_dry_mix wet_mix pcm wet, snd r).

(** The defaults of the signature. *)
Definition apply_advanced_reverb_default (pcm : ndarray) (sample_rate : Z)
  (g : RandomState) : result (ndarray * RandomState) :=
  apply_advanced_reverb pcm sample_rate [20; 40; 60]%Q (6 # 10) (995 # 1000)
    (3 # 2) (1 # 2) g.

(** An equaliser band [{'gain_db', 'center_freq', 'Q'}]. *)
Record eq_band : Type := {
  gain_db : Q;
  center_freq : Q;
  band_Q : Q
}.

Definition default_bands : list eq_band :=
  [ {| gain_db := 3; center_freq := 1000; band_Q := 1 |} ].

(** One band of the equaliser, applied to every channel in place.  The
    log call after the loop over the channels reads the loop variable
    [ch], which is not bound when the array has no channel. *)
Definition apply_band (sample_rate : Z) (band : eq_band) (processed : ndarray)
  : result ndarray :=
  half_rate <- truediv (inject_Z sample_rate) 2 ;;
  normalized_center <- truediv (center_freq band) half_rate ;;
  ba <- iirpeak normalized_center (band_Q band) ;;
  let '((b0, b1, b2), a) := ba in
  let gain_factor := py_pow 10 (gain_db band / 20) in
  let b := (b0 * gain_factor, b1 * gain_factor, b2 * gain_factor)%Q in
  filtered <- per_channel (lfilter b a) (columns processed) 0 processed ;;
  match columns processed with
  | [] => Raise UnboundLocalError
  | _ :: _ => Ok filtered
  end.

Fixpoint apply_bands (sample_rate : Z) (bands : list eq_band)
  (processed : ndarray) : result ndarray :=
  match bands with
  | [] => Ok processed
  | band :: rest =>
      processed' <- apply_band sample_rate band processed ;;
      apply_bands sample_rate rest processed'
  end.

(** [apply_advanced_eq(pcm, sample_rate, bands)]. *)
Definition apply_advanced_eq (pcm : ndarray) (sample_rate : Z)
  (bands : option (list eq_band)) : result ndarray :=
  let bands :=
    match bands with
    | None => default_bands
    | Some bs => bs
    end in
  apply_bands sample_rate bands pcm.

End Effects.

(* ------------------------------------------------------------------ *)
(** * converter.py: UniversalConverter *)

(** The state [__init__] leaves on the converter.  [target_length_sec] is
    [None] for the target length ["00:00"] and the whole number of seconds
    [parse_target_length] returns otherwise. *)
Record UniversalConverter : Type := {
  uc_sample_rate : Z;
  uc_channels : Z;
  uc_default_duration : Q;
  uc_target_length_sec : option Z;
  uc_midi_events : list midi_event;
  uc_duration : Q
}.

(** The transposition loop: [if 'note' in event: event['note'] += t]. *)
Definition transpose (t : Z) (e : midi_event) : midi_event :=
  {| ev_type := ev_type e;
     ev_time := ev_time e;
     ev_note := match ev_note e with
                | Some n => Some (n + t)
                | None => None
                end;
     ev_velocity := ev_velocity e;
     ev_channel := ev_channel e;
     ev_value := ev_value e |}.

(** The tempo loop: [if event['type'] == 'tempo': event['value'] = tempo]. *)
Definition override_tempo (bpm : Q) (e : midi_event) : midi_event :=
  {| ev_type := ev_type e;
     ev_time := ev_time e;
     ev_note := ev_note e;
     ev_velocity := ev_velocity e;
     ev_channel := ev_channel e;
     ev_value := if event_type_eqb (ev_type e) tempo then Some bpm
                 else ev_value e |}.

(** The duration [__init__] derives from the events: the time of the last
    event of the list plus half a second, and at least the default. *)
Definition total_duration (default_duration : Q) (events : list midi_event)
  : Q :=
  match events with
  | [] => default_duration
  | e :: rest =>
      let last_time := b64 (ev_time (last rest e) / 1000000) in
      max2 default_duration (b64 (last_time + (1 # 2)))
  end.

(** [UniversalConverter.__init__] on pre-parsed events. *)
Definition UniversalConverter_init (events : list midi_event)
  (sample_rate channels : Z) (default_duration : Q)
  (target_length_sec : option Z) (transposition : Z) (bpm : Q)
  : UniversalConverter :=
  let events := map (transpose transposition) events in
  let events := map (override_tempo bpm) events in
  {| uc_sample_rate := sample_rate;
     uc_channels := channels;
     uc_default_duration := default_duration;
     uc_target_length_sec := target_length_sec;
     uc_midi_events := events;
     uc_duration := total_duration default_duration events |}.

(** [processed[::k]] on the rows of an array. *)
Definition stride_rows (a : ndarray) (k : nat) : ndarray :=
  {| shape0 := length (stride (seq 0 (shape0 a)) k);
     columns := map (fun col => stride col k) (columns a) |}.

Section Converter.

Context `{L : Libm} `{SP : Scipy}.

(** [_generate_waveform]. *)
Definition generate_waveform (self : UniversalConverter) : result ndarray :=
  let synth := {| sample_rate := uc_sample_rate self;
                  channels := uc_channels self;
                  duration := uc_duration self |} in
  render synth (uc_midi_events self).

(** [_process_audio(pcm)]. *)
Definition process_audio (self : UniversalConverter) (pcm : ndarray)
  (g : RandomState) : result (ndarray * RandomState) :=
  kernel <- firwin 151 (45 # 100) 8 ;;
  let pipeline :=
    [ Oversampler 8;
      AntiAliasFilter kernel;
      DynamicsProcessor (9 # 10) 10;
      Normalizer (1 # 100000) ] in
  r <- AudioPipeline_process pipeline pcm g ;;
  let processed := stride_rows (fst r) 8 in
  r' <- apply_advanced_reverb_default processed (uc_sample_rate self) (snd r) ;;
  processed <- apply_advanced_eq (fst r') (uc_sample_rate self) None ;;
  Ok (processed, snd r').

(** [_time_stretch(pcm, target_duration_sec)]. *)
Definition time_stretch (self : UniversalConverter) (pcm : ndarray)
  (target_duration_sec : Q) : result ndarray :=
  let rows := Z.of_nat (shape0 pcm) in
  current_duration <-
    truediv64 (inject_Z rows) (inject_Z (uc_sample_rate self)) ;;
  if Qle_bool current_duration 0 then Ok pcm
  else
    ratio <- truediv64 target_duration_sec current_duration ;;
    let new_num_samples := int (b64 (inject_Z rows * ratio)) in
    stretched <- np_zeros new_num_samples (Z.of_nat (shape1 pcm)) ;;
    per_channel (fun col => resample_poly col new_num_samples rows)
      (columns pcm) 0 stretched.

(** The time-stretch step of [convert]: taken whenever a target length was
    given. *)
Definition stretch_to_target (self : UniversalConverter) (processed_pcm : ndarray)
  : result ndarray :=
  match uc_target_length_sec self with
  | Some target => time_stretch self processed_pcm (inject_Z target)
  | None => Ok processed_pcm
  end.

(** [convert], up to the buffer that is handed to the encoders. *)
Definition convert_pcm (self : UniversalConverter) (g : RandomState)
  : result (ndarray * RandomState) :=
  pcm <- generate_waveform self ;;
  r <- process_audio self pcm g ;;
  processed_pcm <- stretch_to_target self (fst r) ;;
  Ok (processed_pcm, snd r).

End Converter.

(* ------------------------------------------------------------------ *)
(** * synthesizer.py: ResonanceModel *)

(** [ResonanceModel.__init__]: 128 factors, all zero. *)
Definition ResonanceModel_init : list Q := repeat 0%Q 128.

(** [0.2 / (1 + np.abs(np.arange(128) - note))] at index [i]. *)
Definition resonance_of (note : Z) (i : nat) : Q :=
  ((2 # 10) / (1 + Qabs (inject_Z (Z.of_nat i) - inject_Z note)))%Q.

(** [ResonanceModel.update(active_notes)] on the 128 factors: one in-place
    addition per active note. *)
Definition ResonanceModel_update (factors : list Q) (active_notes : list Z)
  : list Q :=
  fold_left
    (fun factors note =>
       map (fun p => (fst p + snd p)%Q)
           (combine factors (map (resonance_of note) (seq 0 128))))
    active_notes factors.

(* ------------------------------------------------------------------ *)
(** * sanitizer.py: MidiSanitizer *)

(** [open_notes], a [defaultdict(list)]: for every channel the notes that
    were struck and not released yet, in the order they were struck. *)
Definition open_notes : Type := Z -> list Z.

Definition no_open_notes : open_notes := fun _ => [].

(** [open_notes[channel].append(note)]. *)
Definition open_append (o : open_notes) (channel note : Z) : open_notes :=
  fun c => if c =? channel then o c ++ [note] else o c.

(** [l.remove(note)]: the first occurrence is removed. *)
Fixpoint list_remove (note : Z) (l : list Z) : list Z :=
  match l with
  | [] => []
  | x :: l' => if x =? note then l' else x :: list_remove note l'
  end.

(** [open_notes[channel].remove(note)]. *)
Definition open_remove (o : open_notes) (channel note : Z) : open_notes :=
  fun c => if c =? channel then list_remove note (o c) else o c.

(** [note in open_notes[channel]]. *)
Definition is_open (o : open_notes) (channel note : Z) : bool :=
  existsb (Z.eqb note) (o channel).

(** The loop of [validate_note_events], from a state of [open_notes] on:
    the events that are kept, in their order. *)
Fixpoint validate_from (o : open_notes) (events : list midi_event)
  : result (list midi_event) :=
  match events with
  | [] => Ok []
  | event :: rest =>
      match ev_type event with
      | note_on =>
          channel <- getitem (ev_channel event) ;;
          note <- getitem (ev_note event) ;;
          sanitized <- validate_from (open_append o channel note) rest ;;
          Ok (event :: sanitized)
      | note_off =>
          note <- getitem (ev_note event) ;;
          channel <- getitem (ev_channel event) ;;
          if is_open o channel note then
            sanitized <- validate_from (open_remove o channel note) rest ;;
            Ok (event :: sanitized)
          else validate_from o rest
      | _ =>
          sanitized <- validate_from o rest ;;
          Ok (event :: sanitized)
      end
  end.

(** [MidiSanitizer(events).validate_note_events()]. *)
Definition validate_note_events (events : list midi_event)
  : result (list midi_event) :=
  validate_from no_open_notes events.

(* ------------------------------------------------------------------ *)
(** * note_parser.py: NoteParser *)

(** A Python string: the sequence of its code points. *)
Definition str : Type := list N.

(** The string of an ASCII literal. *)
Definition codes (s : String.string) : str :=
  map Ascii.N_of_ascii (String.list_ascii_of_string s).

Arguments codes s%_string_scope.

Fixpoint str_eqb (a b : str) : bool :=
  match a, b with
  | [], [] => true
  | x :: a', y :: b' => (x =? y)%N && str_eqb a' b'
  | _, _ => false
  end.

(** A decimal digit and the value [int()] gives it. *)
Inductive digit : Type := D0 | D1 | D2 | D3 | D4 | D5 | D6 | D7 | D8 | D9.

Definition digit_value (d : digit) : Z :=
  match d with
  | D0 => 0 | D1 => 1 | D2 => 2 | D3 => 3 | D4 => 4
  | D5 => 5 | D6 => 6 | D7 => 7 | D8 => 8 | D9 => 9
  end.

(** What the program uses of the Unicode database: the decimal digits,
    which [\d] matches and [int()] converts. *)
Class Unicode : Type := {
  decimal_digit : N -> option digit
}.

(** [NOTE_OFFSETS]. *)
Definition NOTE_OFFSETS : list (str * Z) :=
  [ (codes "C", 0); (codes "C#", 1); (codes "Db", 1); (codes "D", 2);
    (codes "D#", 3); (codes "Eb", 3); (codes "E", 4); (codes "F", 5);
    (codes "F#", 6); (codes "Gb", 6); (codes "G", 7); (codes "G#", 8);
    (codes "Ab", 8); (codes "A", 9); (codes "A#", 10); (codes "Bb", 10);
    (codes "B", 11) ].

(** [d.get(key)]. *)
Fixpoint dict_get (d : list (str * Z)) (key : str) : option Z :=
  match d with
  | [] => None
  | (k, v) :: d' => if str_eqb k key then Some v else dict_get d' key
  end.

(** The character classes [[A-Ga-g]] and [[#b]], and [c.upper()] for a
    letter of the first. *)
Definition is_note_letter (c : N) : bool :=
  ((65 <=? c) && (c <=? 71) || (97 <=? c) && (c <=? 103))%N.

Definition is_accidental (c : N) : bool := ((c =? 35) || (c =? 98))%N.

Definition upper (c : N) : N :=
  if ((97 <=? c) && (c <=? 122))%N then (c - 32)%N else c.

Section NoteParser.

Context `{U : Unicode}.

Definition is_digit (c : N) : bool :=
  match decimal_digit c with Some _ => true | None => false end.

(** The pattern [([A-Ga-g])([#b]?)(\d)] at the start of [s], with its
    three groups.  The accidental is taken when a digit follows it;
    otherwise the match is tried again without it. *)
Definition match_note (s : str) : option (N * str * N) :=
  match s with
  | [] => None
  | letter :: rest =>
      if is_note_letter letter then
        match rest with
        | [] => None
        | [a] => if is_digit a then Some (letter, [], a) else None
        | a :: d :: _ =>
            if is_accidental a && is_digit d then Some (letter, [a], d)
            else if is_digit a then Some (letter, [], a)
            else None
        end
      else None
  end.

(** The number of characters the pattern [[A-Ga-g][#b]?\d] matches at the
    start of [s]. *)
Definition note_match_length (s : str) : option nat :=
  match match_note s with
  | Some (_, accidental, _) => Some (2 + length accidental)%nat
  | None => None
  end.

(** The number of characters [.*?\]] matches at the start of [s]: up to
    the first closing bracket, which no newline may precede. *)
Fixpoint bracket_match_length (s : str) : option nat :=
  match s with
  | [] => None
  | c :: rest =>
      if (c =? 93)%N then Some 1%nat
      else if (c =? 10)%N then None
      else option_map S (bracket_match_length rest)
  end.

(** The pattern [\[.*?\]|[A-Ga-g][#b]?\d] at the start of [s]. *)
Definition token_match_length (s : str) : option nat :=
  let chord :=
    match s with
    | c :: rest =>
        if (c =? 91)%N then option_map S (bracket_match_length rest) else None
    | [] => None
    end in
  match chord with
  | Some n => Some n
  | None => note_match_length s
  end.

(** [re.findall(pattern, s)] for a pattern without groups that matches no
    empty string: the matches from left to right, each search starting
    where the last match ended; [skip] characters of a match are still to
    be passed. *)
Fixpoint findall_from (match_length : str -> option nat) (skip : nat)
  (s : str) : list str :=
  match s with
  | [] => []
  | _ :: rest =>
      match skip with
      | S k => findall_from match_length k rest
      | O =>
          match match_length s with
          | Some n => firstn n s :: findall_from match_length (n - 1) rest
          | None => findall_from match_length 0 rest
          end
      end
  end.

Definition findall (match_length : str -> option nat) (s : str) : list str :=
  findall_from match_length 0 s.

(** [NoteParser._note_to_midi(note_str)]. *)
Definition note_to_midi (note_str : str) : result Z :=
  match match_note note_str with
  | None => Raise ValueError
  | Some (note, accidental, octave) =>
      let note := upper note :: accidental in
      match dict_get NOTE_OFFSETS note with
      | None => Raise ValueError
      | Some semitone =>
          match decimal_digit octave with
          | None => Raise ValueError
          | Some octave => Ok ((digit_value octave + 1) * 12 + semitone)
          end
      end
  end.

(** [s.startswith(c)], [s.endswith(c)] and [s[1:-1]]. *)
Definition startswith (s : str) (c : N) : bool :=
  match s with
  | x :: _ => (x =? c)%N
  | [] => false
  end.

Definition endswith (s : str) (c : N) : bool :=
  match s with
  | [] => false
  | _ => (last s 0 =? c)%N
  end.

Definition strip_ends (s : str) : str := removelast (tl s).

(** The notes of a token: those found between the brackets of a chord,
    or the token itself. *)
Definition token_notes (token : str) : list str :=
  if startswith token 91 && endswith token 93
  then findall note_match_length (strip_ends token)
  else [token].

(** The two events [parse] appends for a note. *)
Definition note_events (midi_note : Z) (time default_duration : Q)
  : list midi_event :=
  [ {| ev_type := note_on;
       ev_time := inject_Z (int (b64 (time * 1000000)));
       ev_note := Some midi_note;
       ev_velocity := Some 100;
       ev_channel := Some 0;
       ev_value := None |};
    {| ev_type := note_off;
       ev_time :=
         inject_Z (int (b64 (b64 (time + default_duration) * 1000000)));
       ev_note := Some midi_note;
       ev_velocity := Some 0;
       ev_channel := Some 0;
       ev_value := None |} ].

(** The loop over the notes of a token. *)
Fixpoint notes_to_events (notes : list str) (time default_duration : Q)
  : result (list midi_event) :=
  match notes with
  | [] => Ok []
  | note :: rest =>
      midi_note <- note_to_midi note ;;
      events <- notes_to_events rest time default_duration ;;
      Ok (note_events midi_note time default_duration ++ events)
  end.

(** The loop over the tokens: [time] advances by [default_duration] after
    every token. *)
Fixpoint tokens_to_events (tokens : list str) (time default_duration : Q)
  : result (list midi_event) :=
  match tokens with
  | [] => Ok []
  | token :: rest =>
      events <- notes_to_events (token_notes token) time default_duration ;;
      more <- tokens_to_events rest (b64 (time + default_duration))
                default_duration ;;
      Ok (events ++ more)
  end.

(** [NoteParser(notation_str, tempo).parse()]. *)
Definition NoteParser_parse (notation_str : str) (tempo : Q)
  : result (list midi_event) :=
  beat_duration <- truediv64 60 tempo ;;
  let default_duration := beat_duration in
  let tokens := findall token_match_length notation_str in
  tokens_to_events tokens 0 default_duration.

End NoteParser.

(* ------------------------------------------------------------------ *)
(** * parser.py: MidiParser *)

(** A message of a track, as [mido] delivers it; [time] is the delta time
    in ticks.  The messages the parser does not look at are [OtherMessage]. *)
Inductive mido_message : Type :=
| SetTempo (time msg_tempo : Z)
| NoteOn (time note velocity channel : Z)
| NoteOff (time note velocity channel : Z)
| ControlChange (time control value channel : Z)
| Pitchwheel (time pitch channel : Z)
| OtherMessage (time : Z).

Definition msg_time (msg : mido_message) : Z :=
  match msg with
  | SetTempo time _ | NoteOn time _ _ _ | NoteOff time _ _ _
  | ControlChange time _ _ _ | Pitchwheel time _ _ | OtherMessage time => time
  end.

(** [mido.tick2second(tick, ticks_per_beat, tempo)]:
    [scale = tempo * 1e-6 / ticks_per_beat] and [tick * scale]. *)
Definition tick2second (tick ticks_per_beat us_per_beat : Z) : result Q :=
  scale <- truediv64 (b64 (inject_Z us_per_beat * b64 (1 # 1000000)))
             (inject_Z ticks_per_beat) ;;
  Ok (b64 (inject_Z tick * scale)).

(** The state of a [MidiParser]: the events appended so far, the tempo in
    microseconds per beat and the running time in microseconds. *)
Record MidiParser : Type := {
  mp_events : list midi_event;
  mp_tempo : Z;
  mp_current_time : Q
}.

(** [MidiParser.__init__]. *)
Definition MidiParser_init : MidiParser :=
  {| mp_events := []; mp_tempo := 500000; mp_current_time := 0 |}.

(** The event a message is turned into, if any, at the time [now]. *)
Definition message_event (now : Q) (msg : mido_message) : option midi_event :=
  match msg with
  | SetTempo _ msg_tempo =>
      Some {| ev_type := tempo; ev_time := now; ev_note := None;
              ev_velocity := None; ev_channel := None;
              ev_value := Some (inject_Z msg_tempo) |}
  | NoteOn _ note velocity channel =>
      let velocity := Z.max 0 (Z.min 127 velocity) in
      Some {| ev_type := if velocity =? 0 then note_off else note_on;
              ev_time := now; ev_note := Some note;
              ev_velocity := Some velocity; ev_channel := Some channel;
              ev_value := None |}
  | NoteOff _ note velocity channel =>
      let velocity := Z.max 0 (Z.min 127 velocity) in
      Some {| ev_type := note_off; ev_time := now; ev_note := Some note;
              ev_velocity := Some velocity; ev_channel := Some channel;
              ev_value := None |}
  | ControlChange _ control value channel =>
      if control =? 64 then
        Some {| ev_type := sustain; ev_time := now; ev_note := None;
                ev_velocity := None; ev_channel := Some channel;
                ev_value := Some (inject_Z value) |}
      else None
  | Pitchwheel _ pitch channel =>
      Some {| ev_type := pitch_bend; ev_time := now; ev_note := None;
              ev_velocity := None; ev_channel := Some channel;
              ev_value := Some (inject_Z (pitch + 8192) / 16384)%Q |}
  | OtherMessage _ => None
  end.

(** The body of the loop of [parse] for one message. *)
Definition handle_message (ticks_per_beat : Z) (self : MidiParser)
  (msg : mido_message) : result MidiParser :=
  seconds <- tick2second (msg_time msg) ticks_per_beat (mp_tempo self) ;;
  let delta := b64 (seconds * 1000000) in
  let now := b64 (mp_current_time self + delta) in
  Ok {| mp_events :=
          match message_event now msg with
          | Some event => mp_events self ++ [event]
          | None => mp_events self
          end;
        mp_tempo :=
          match msg with
          | SetTempo _ msg_tempo => msg_tempo
          | _ => mp_tempo self
          end;
        mp_current_time := now |}.

(** The loops over the tracks and their messages: the tempo and the clock
    run on from one track to the next. *)
Fixpoint handle_messages (ticks_per_beat : Z) (self : MidiParser)
  (msgs : list mido_message) : result MidiParser :=
  match msgs with
  | [] => Ok self
  | msg :: rest =>
      self' <- handle_message ticks_per_beat self msg ;;
      handle_messages ticks_per_beat self' rest
  end.

(** [events.sort(key=lambda x: x['time'])]: the sort is stable, so an
    event goes behind those that are not later than it. *)
Fixpoint insert_by_time (e : midi_event) (sorted : list midi_event)
  : list midi_event :=
  match sorted with
  | [] => [e]
  | x :: rest =>
      if Qle_bool (ev_time x) (ev_time e) then x :: insert_by_time e rest
      else e :: sorted
  end.

Definition sort_by_time (events : list midi_event) : list midi_event :=
  fold_left (fun sorted e => insert_by_time e sorted) events [].

(** [MidiParser(midi_path).parse()] on the file [mido] has opened:
    [ticks_per_beat] and the tracks. *)
Definition MidiParser_parse (ticks_per_beat : Z)
  (tracks : list (list mido_message)) : result (list midi_event) :=
  self <- handle_messages ticks_per_beat MidiParser_init (concat tracks) ;;
  Ok (sort_by_time (mp_events self)).

(* ------------------------------------------------------------------ *)
(** * Notions the statements use *)

(** The sample of row [i] and channel [ch]. *)
Definition sample (a : ndarray) (ch i : nat) : Q :=
  nth i (nth ch (columns a) []) 0%Q.

(** Two arrays hold the same numbers, sample by sample. *)
Definition samples_equiv (a b : ndarray) : Prop :=
  shape0 a = shape0 b /\ Forall2 (Forall2 Qeq) (columns a) (columns b).

(** Every sample of the array is zero. *)
Definition all_zero (a : ndarray) : Prop :=
  Forall (Forall (fun x => x == 0)%Q) (columns a).

(** A note-on event carries the keys [render] reads from it in its own
    thread: ['note'] and ['channel']. *)
Definition has_note_keys (e : midi_event) : Prop :=
  ev_type e = note_on -> ev_note e <> None /\ ev_channel e <> None.

(** The convolution sum [sum_{i <= k} a[i] * v[k - i]], the samples
    beyond the ends of [a] and [v] counting as zero. *)
Definition sum_list (l : list Q) : Q := fold_right Qplus 0%Q l.

Definition convolution_sum (a v : list Q) (k : nat) : Q :=
  sum_list (map (fun i => (nth i a 0 * nth (k - i) v 0)%Q) (seq 0 (S k))).

(** The resonator design of a band returns coefficients: none of the
    divisions in [iirpeak] meets a zero. *)
Definition design_is_finite `{Libm} (sample_rate : Z) (band : eq_band) : Prop :=
  exists ba,
    iirpeak (center_freq band / (inject_Z sample_rate / 2)) (band_Q band)
    = Ok ba.

(** The voice threads [render] starts, in the order it starts them: one
    per note-on event, with the duration found for it. *)
Fixpoint voice_jobs (midi_events : list midi_event)
  : result (list (midi_event * Q)) :=
  match midi_events with
  | [] => Ok []
  | event :: rest =>
      if event_type_eqb (ev_type event) note_on then
        duration_sec <- note_duration_sec event rest ;;
        jobs <- voice_jobs rest ;;
        Ok ((event, duration_sec) :: jobs)
      else voice_jobs rest
  end.

(** The voices writing into the shared buffer one after the other, in the
    order in which they take the lock. *)
Definition run_voices `{Libm} (self : HybridSynthesizer) (num_samples : Z)
  (jobs : list (midi_event * Q)) (audio : ndarray) : ndarray :=
  fold_left (fun a job => run_voice self num_samples (fst job) (snd job) a)
    jobs audio.

(** [s] is a note-off of the note [note] on the channel [channel]: the
    test of the inner loop of [render]. *)
Definition is_note_off_of (note channel : Z) (s : midi_event) : bool :=
  event_type_eqb (ev_type s) note_off
  && get_eqb (ev_note s) note
  && get_eqb (ev_channel s) channel.

(** The sanitizer reads ['note'] and ['channel'] of every note-on and
    note-off event. *)
Definition has_sanitizer_keys (e : midi_event) : bool :=
  match ev_type e with
  | note_on | note_off =>
      match ev_note e, ev_channel e with
      | Some _, Some _ => true
      | _, _ => false
      end
  | _ => true
  end.

(** [out] is [events] without some of its note-off events. *)
Inductive drops_note_offs : list midi_event -> list midi_event -> Prop :=
| drops_nil : drops_note_offs [] []
| drops_keep (e : midi_event) (events out : list midi_event) :
    drops_note_offs events out -> drops_note_offs (e :: events) (e :: out)
| drops_drop (e : midi_event) (events out : list midi_event) :
    ev_type e = note_off ->
    drops_note_offs events out -> drops_note_offs (e :: events) out.

(** What the parser guarantees of an event: a note-on has a velocity from
    1 to 127, a note-off one from 0 to 127, both carry note and channel;
    the other events carry their value. *)
Definition parsed_event_ok (e : midi_event) : Prop :=
  match ev_type e with
  | note_on =>
      ev_note e <> None /\ ev_channel e <> None
      /\ exists v, ev_velocity e = Some v /\ 1 <= v <= 127
  | note_off =>
      ev_note e <> None /\ ev_channel e <> None
      /\ exists v, ev_velocity e = Some v /\ 0 <= v <= 127
  | _ => ev_value e <> None
  end.

(** The messages of a file: delta times and tempos are not negative. *)
Definition message_ok (msg : mido_message) : Prop :=
  0 <= msg_time msg
  /\ match msg with
     | SetTempo _ msg_tempo => 0 <= msg_tempo
     | _ => True
     end.

(** The events in the order they were appended: none is earlier than one
    before it, none is later than the clock [now], and sorting them by
    time changes nothing. *)
Definition appended_in_order (events : list midi_event) (now : Q) : Prop :=
  (0 <= now)%Q
  /\ ForallOrdPairs (fun a b => ev_time a <= ev_time b)%Q events
  /\ Forall (fun x => 0 <= ev_time x <= now)%Q events
  /\ sort_by_time events = events.

(** The result of scaling by [c]: [y'] is [c * y]. *)
Definition scaled (c : Q) (y y' : Q) : Prop := (y' == c * y)%Q.

(** Two arrays of one shape whose samples are related by [R]. *)
Definition samples_related (R : Q -> Q -> Prop) (a a' : ndarray) : Prop :=
  shape0 a = shape0 a' /\ Forall2 (Forall2 R) (columns a) (columns a').

(** Two results of the same kind: two values that are related, or the
    same exception. *)
Definition results_related {A} (R : A -> A -> Prop) (r r' : result A) : Prop :=
  match r, r' with
  | Ok a, Ok a' => R a a'
  | Raise e, Raise e' => e = e'
  | _, _ => False
  end.

(* ------------------------------------------------------------------ *)
(** * Example inputs *)

(** Coarse rational stand-ins for the elementary functions and for the
    sample values of scipy's designs, to run the model on examples: low
    order polynomials, a sample-and-hold resampler and equal taps.  The
    theorems hold for every instance of the interfaces. *)
Definition example_libm : Libm :=
  {| np_sin := fun x => (x - x * x * x / 6)%Q;
     np_cos := fun x => (1 - x * x / 2)%Q;
     np_tan := fun x => (x + x * x * x / 3)%Q;
     np_exp := fun x => (1 + x + x * x / 2)%Q;
     np_sqrt := fun x => ((1 + x) / 2)%Q;
     np_power := fun b e => (1 + e * (b - 1))%Q |}.

Definition example_scipy : Scipy :=
  {| resample_poly_value := fun x up down i =>
       nth (Z.to_nat (Z.of_nat i * down / up)) x 0%Q;
     firwin_tap := fun numtaps _ _ _ => (1 / inject_Z numtaps)%Q |}.

(** A generator state: every uniform draw is [3/4], every normal draw
    is [1]. *)
Definition example_generator : RandomState :=
  {| unit_uniform := fun _ => (3 # 4)%Q;
     standard_normal := fun _ => 1%Q;
     cursor := 0 |}.

(** A note event as the parsers build it. *)
Definition note_event (ty : event_type) (time : Q) (note velocity : Z)
  : midi_event :=
  {| ev_type := ty; ev_time := time; ev_note := Some note;
     ev_velocity := Some velocity; ev_channel := Some 0; ev_value := None |}.

(** A small synthesizer and a silent buffer: ten samples per second, two
    channels, one second. *)
Definition example_synth : HybridSynthesizer :=
  {| sample_rate := 10; channels := 2; duration := 1 |}.

Definition example_audio : ndarray :=
  {| shape0 := 10; columns := [repeat 0%Q 10; repeat 0%Q 10] |}.

(** A silent buffer of [n] rows and [c] channels. *)
Definition silent_buffer (n : Z) (c : nat) : ndarray :=
  {| shape0 := Z.to_nat n; columns := repeat (repeat 0%Q (Z.to_nat n)) c |}.

(** A converter without events at ten samples per second, two channels,
    with the target length ["00:02"]. *)
Definition example_converter : UniversalConverter :=
  UniversalConverter_init [] 10 2 1 (Some 2) 0 120.

(** The chord of the end-to-end example: C4, E4 and G4 struck at time
    zero and released after half a second. *)
Definition chord_events : list midi_event :=
  [ note_event note_on 0 60 100;
    note_event note_on 0 64 100;
    note_event note_on 0 67 100;
    note_event note_off 500000 60 0;
    note_event note_off 500000 64 0;
    note_event note_off 500000 67 0 ].

(** A unit impulse on one channel, and an equaliser band of 0 dB at
    1 kHz. *)
Definition unit_impulse : ndarray :=
  {| shape0 := 3; columns := [[1; 0; 0]%Q] |}.

Definition flat_band : eq_band :=
  {| gain_db := 0; center_freq := 1000; band_Q := 1 |}.

(** The events of a parsed notation come in pairs: a note-on of velocity
    100 and right after it the note-off of the same note, both on
    channel 0. *)
Inductive note_pairs : list midi_event -> Prop :=
| note_pairs_nil : note_pairs []
| note_pairs_cons (note : Z) (t_on t_off : Q) (rest : list midi_event) :
    12 <= note <= 131 ->
    note_pairs rest ->
    note_pairs (note_event note_on t_on note 100
                :: note_event note_off t_off note 0 :: rest).

(** The decimal digits of ASCII alone. *)
Definition example_unicode : Unicode :=
  {| decimal_digit := fun c =>
       match c with
       | 48 => Some D0 | 49 => Some D1 | 50 => Some D2 | 51 => Some D3
       | 52 => Some D4 | 53 => Some D5 | 54 => Some D6 | 55 => Some D7
       | 56 => Some D8 | 57 => Some D9
       | _ => None
       end%N |}.

(** The tracks of a small MIDI file at 480 ticks per beat, and the events
    the parser returns for them. *)
Definition example_tracks : list (list mido_message) :=
  [ [ SetTempo 0 600000; NoteOn 0 60 90 0; NoteOff 480 60 0 0 ];
    [ NoteOn 240 64 0 1; ControlChange 0 64 127 1; NoteOff 0 60 0 0 ] ].

Definition example_midi_events : list midi_event :=
  Eval vm_compute in
    match MidiParser_parse 480 example_tracks with
    | Ok events => events
    | Raise _ => []
    end.

(** The unit impulse through the equaliser with the 0 dB band, and
    through a short reverb at 100 samples per second. *)
Definition unit_impulse_filtered : ndarray :=
  Eval vm_compute in
    match apply_advanced_eq (L := example_libm) unit_impulse 44100
            (Some [flat_band]) with
    | Ok out => out
    | Raise _ => unit_impulse
    end.

Definition unit_impulse_reverberated : ndarray * RandomState :=
  match apply_advanced_reverb (L := example_libm) unit_impulse 100
          [20; 40; 60]%Q (6 # 10) (995 # 1000) (1 # 10) (1 # 2)
          example_generator with
  | Ok r => r
  | Raise _ => (unit_impulse, example_generator)
  end.

(* ================================================================== *)
(** * Properties *)

(** ** Rounding to binary64 *)


Lemma two_pow_pos (k : Z) : (0 < 2 ^ k)%Q.
Proof. apply Qpower_0_lt. reflexivity. Qed.

Lemma two_pow_succ (k : Z) : (2 ^ (k + 1) == 2 * 2 ^ k)%Q.
Proof.
  rewrite Qpower_plus by discriminate. rewrite Qpower_1_r. ring.
Qed.

Lemma two_pow_le (j k : Z) : j <= k -> (2 ^ j <= 2 ^ k)%Q.
Proof. intros H. apply Qpower_le_compat_l; [exact H | discriminate]. Qed.

Lemma two_pow_lt (j k : Z) : j < k -> (2 ^ j < 2 ^ k)%Q.
Proof. intros H. apply Qpower_lt_compat_l; [exact H | reflexivity]. Qed.

Lemma two_pow_inject (k : Z) : 0 <= k -> (inject_Z (2 ^ k) == 2 ^ k)%Q.
Proof. intros H. rewrite Zpower_Qpower by exact H. reflexivity. Qed.

Lemma Q_as_fraction (x : Q) :
  (x == inject_Z (Qnum x) / inject_Z (Z.pos (Qden x)))%Q.
Proof.
  destruct x as [n d]. cbn [Qnum Qden]. unfold Qdiv, Qinv, inject_Z, Qeq, Qmult.
  cbn. lia.
Qed.

Lemma binade_bounds (x : Q) :
  (0 < x)%Q -> (2 ^ binade x <= x /\ x < 2 ^ (binade x + 1))%Q.
Proof.
  intros Hx.
  assert (Hn : 0 < Qnum x) by (destruct x as [n d]; unfold Qlt in Hx; cbn in *; lia).
  set (a := Z.log2 (Qnum x)). set (b := Z.log2 (Z.pos (Qden x))).
  assert (Ha := Z.log2_spec (Qnum x) Hn). fold a in Ha.
  assert (Hb := Z.log2_spec (Z.pos (Qden x)) (Pos2Z.is_pos _)). fold b in Hb.
  assert (Ha0 : 0 <= a) by apply Z.log2_nonneg.
  assert (Hb0 : 0 <= b) by apply Z.log2_nonneg.
  assert (Hd : (0 < inject_Z (Z.pos (Qden x)))%Q) by reflexivity.
  assert (HA1 : (2 ^ a <= inject_Z (Qnum x))%Q).
  { rewrite <- two_pow_inject by exact Ha0. rewrite <- Zle_Qle. lia. }
  assert (HA2 : (inject_Z (Qnum x) < 2 ^ (a + 1))%Q).
  { rewrite <- two_pow_inject by lia. rewrite <- Zlt_Qlt. unfold Z.succ in Ha. lia. }
  assert (HB1 : (2 ^ b <= inject_Z (Z.pos (Qden x)))%Q).
  { rewrite <- two_pow_inject by exact Hb0. rewrite <- Zle_Qle. lia. }
  assert (HB2 : (inject_Z (Z.pos (Qden x)) < 2 ^ (b + 1))%Q).
  { rewrite <- two_pow_inject by lia. rewrite <- Zlt_Qlt. unfold Z.succ in Hb. lia. }
  (* x * den = num *)
  assert (Hx' : (x * inject_Z (Z.pos (Qden x)) == inject_Z (Qnum x))%Q).
  { rewrite (Q_as_fraction x) at 1. field. intros E. rewrite E in Hd. discriminate. }
  assert (Hlo : (2 ^ (a - b - 1) < x)%Q).
  { (* 2^(a-b-1) * den < 2^(a-b-1) * 2^(b+1) = 2^a <= num = x * den *)
    apply Qmult_lt_r with (z := inject_Z (Z.pos (Qden x))); [exact Hd|].
    rewrite Hx'.
    apply Qlt_le_trans with (2 ^ (a - b - 1) * 2 ^ (b + 1))%Q.
    - apply Qmult_lt_l; [apply two_pow_pos | exact HB2].
    - rewrite <- Qpower_plus by discriminate.
      replace (a - b - 1 + (b + 1)) with a by lia. exact HA1. }
  assert (Hhi : (x < 2 ^ (a - b + 1))%Q).
  { apply Qmult_lt_r with (z := inject_Z (Z.pos (Qden x))); [exact Hd|].
    rewrite Hx'.
    apply Qlt_le_trans with (2 ^ (a + 1))%Q; [exact HA2|].
    replace (a + 1) with (a - b + 1 + b) by lia.
    rewrite Qpower_plus by discriminate.
    apply Qmult_le_l; [apply two_pow_pos | exact HB1]. }
  unfold binade. fold a b.
  destruct (Qle_bool (2 ^ (a - b)) x) eqn:E.
  - apply Qle_bool_iff in E. split; [exact E | exact Hhi].
  - assert (E' : ~ (2 ^ (a - b) <= x)%Q).
    { intros C. apply Qle_bool_iff in C. congruence. }
    apply Qnot_le_lt in E'. split.
    + apply Qlt_le_weak. exact Hlo.
    + replace (a - b - 1 + 1) with (a - b) by lia. exact E'.
Qed.

Lemma binade_unique (x : Q) (k : Z) :
  (2 ^ k <= x)%Q -> (x < 2 ^ (k + 1))%Q -> binade x = k.
Proof.
  intros H1 H2.
  assert (Hx : (0 < x)%Q) by (eapply Qlt_le_trans; [apply two_pow_pos | exact H1]).
  destruct (binade_bounds x Hx) as [B1 B2].
  assert (A : binade x < k + 1).
  { apply Qpower_lt_compat_l_inv with (q := 2%Q); [|reflexivity].
    eapply Qle_lt_trans; [exact B1 | exact H2]. }
  assert (B : k < binade x + 1).
  { apply Qpower_lt_compat_l_inv with (q := 2%Q); [|reflexivity].
    eapply Qle_lt_trans; [exact H1 | exact B2]. }
  lia.
Qed.

Lemma binade_comp (x y : Q) : (0 < x)%Q -> (x == y)%Q -> binade x = binade y.
Proof.
  intros Hx E. destruct (binade_bounds x Hx) as [B1 B2].
  symmetry. apply binade_unique; rewrite <- E; assumption.
Qed.

(** Rounding to the nearest integer. *)

Lemma py_round_cases (x : Q) :
  py_round x = Qfloor x \/ py_round x = Qfloor x + 1.
Proof.
  unfold py_round.
  destruct (Qlt_le_dec _ _); [left; reflexivity|].
  destruct (Qlt_le_dec _ _); [right; reflexivity|].
  destruct (Z.even _); [left | right]; reflexivity.
Qed.

Lemma py_round_near (x : Q) : (Qabs (inject_Z (py_round x) - x) <= 1 # 2)%Q.
Proof.
  assert (F1 := Qfloor_le x). assert (F2 := Qlt_floor x).
  rewrite inject_Z_plus in F2. change (inject_Z 1) with 1%Q in F2.
  apply Qabs_Qle_condition.
  unfold py_round.
  destruct (Qlt_le_dec _ _) as [A|A].
  - split; lra.
  - destruct (Qlt_le_dec _ _) as [B|B].
    + rewrite inject_Z_plus. change (inject_Z 1) with 1%Q. split; lra.
    + destruct (Z.even _);
        [|rewrite inject_Z_plus; change (inject_Z 1) with 1%Q]; split; lra.
Qed.

Lemma py_round_inject_Z (n : Z) : py_round (inject_Z n) = n.
Proof.
  unfold py_round. rewrite Qfloor_Z.
  destruct (Qlt_le_dec _ _) as [A|A]; [reflexivity|].
  exfalso. lra.
Qed.

Lemma py_round_comp (x y : Q) : (x == y)%Q -> py_round x = py_round y.
Proof.
  intros E. unfold py_round. rewrite (Qfloor_comp x y E).
  destruct (Qlt_le_dec (x - _) _) as [A|A], (Qlt_le_dec (y - _) _) as [A'|A'];
    try reflexivity; try (exfalso; lra).
  destruct (Qlt_le_dec _ (x - _)) as [B|B], (Qlt_le_dec _ (y - _)) as [B'|B'];
    try reflexivity; exfalso; lra.
Qed.

Lemma py_round_le (x y : Q) : (x <= y)%Q -> py_round x <= py_round y.
Proof.
  intros H.
  assert (F := Qfloor_resp_le x y H).
  destruct (Z.eq_dec (Qfloor x) (Qfloor y)) as [E|NE].
  - unfold py_round. rewrite E.
    destruct (Qlt_le_dec (x - _) _) as [A|A].
    + destruct (Qlt_le_dec (y - _) _); [lia|].
      destruct (Qlt_le_dec _ (y - _)); [lia|]. destruct (Z.even _); lia.
    + destruct (Qlt_le_dec (y - _) _) as [A'|A']; [exfalso; lra|].
      destruct (Qlt_le_dec _ (x - _)) as [B|B].
      * destruct (Qlt_le_dec _ (y - _)) as [B'|B']; [lia | exfalso; lra].
      * destruct (Qlt_le_dec _ (y - _)) as [B'|B']; [destruct (Z.even _); lia | lia].
  - destruct (py_round_cases x) as [Hx|Hx], (py_round_cases y) as [Hy|Hy]; lia.
Qed.

(** The significand has 53 bits. *)

Lemma scaled_bounds (x : Q) :
  (0 < x)%Q ->
  (2 ^ 52 <= x / 2 ^ (binade x - 52) /\ x / 2 ^ (binade x - 52) < 2 ^ 53)%Q.
Proof.
  intros Hx. destruct (binade_bounds x Hx) as [B1 B2].
  set (k := binade x) in *.
  assert (P := two_pow_pos (k - 52)).
  split.
  - apply Qle_shift_div_l; [exact P|].
    rewrite <- Qpower_plus by discriminate.
    replace (52 + (k - 52)) with k by lia. exact B1.
  - apply Qlt_shift_div_r; [exact P|].
    rewrite <- Qpower_plus by discriminate.
    replace (53 + (k - 52)) with (k + 1) by lia. exact B2.
Qed.

Lemma significand_bounds (x : Q) :
  (0 < x)%Q ->
  2 ^ 52 <= py_round (x / 2 ^ (binade x - 52)) <= 2 ^ 53.
Proof.
  intros Hx. destruct (scaled_bounds x Hx) as [S1 S2].
  split.
  - rewrite <- (py_round_inject_Z (2 ^ 52)). apply py_round_le.
    rewrite two_pow_inject by lia. exact S1.
  - rewrite <- (py_round_inject_Z (2 ^ 53)). apply py_round_le.
    rewrite two_pow_inject by lia. apply Qlt_le_weak. exact S2.
Qed.

Lemma nearest53_bounds (x : Q) :
  (0 < x)%Q ->
  (2 ^ binade x <= nearest53 x /\ nearest53 x <= 2 ^ (binade x + 1))%Q.
Proof.
  intros Hx. destruct (significand_bounds x Hx) as [M1 M2].
  unfold nearest53. set (k := binade x) in *.
  set (m := py_round _) in *.
  assert (P := two_pow_pos (k - 52)).
  split.
  - replace k with (52 + (k - 52)) at 1 by lia.
    rewrite Qpower_plus by discriminate.
    apply Qmult_le_compat_r; [|apply Qlt_le_weak; exact P].
    rewrite <- two_pow_inject by lia. rewrite <- Zle_Qle. exact M1.
  - replace (k + 1) with (53 + (k - 52)) by lia.
    rewrite Qpower_plus by discriminate.
    apply Qmult_le_compat_r; [|apply Qlt_le_weak; exact P].
    rewrite <- two_pow_inject by lia. rewrite <- Zle_Qle. exact M2.
Qed.

Lemma nearest53_comp (x y : Q) :
  (0 < x)%Q -> (x == y)%Q -> (nearest53 x == nearest53 y)%Q.
Proof.
  intros Hx E. unfold nearest53. rewrite <- (binade_comp x y Hx E).
  rewrite (py_round_comp (x / 2 ^ (binade x - 52)) (y / 2 ^ (binade x - 52))).
  - reflexivity.
  - apply Qdiv_comp; [exact E | reflexivity].
Qed.

Lemma nearest53_le (x y : Q) :
  (0 < x)%Q -> (x <= y)%Q -> (nearest53 x <= nearest53 y)%Q.
Proof.
  intros Hx H.
  assert (Hy : (0 < y)%Q) by (eapply Qlt_le_trans; eassumption).
  destruct (binade_bounds x Hx) as [X1 X2].
  destruct (binade_bounds y Hy) as [Y1 Y2].
  assert (K : binade x < binade y + 1).
  { apply Qpower_lt_compat_l_inv with (q := 2%Q); [|reflexivity].
    eapply Qle_lt_trans; [exact X1|]. eapply Qle_lt_trans; [exact H | exact Y2]. }
  destruct (Z.eq_dec (binade x) (binade y)) as [E|NE].
  - unfold nearest53. rewrite <- E.
    apply Qmult_le_compat_r; [|apply Qlt_le_weak, two_pow_pos].
    rewrite <- Zle_Qle. apply py_round_le.
    apply Qmult_le_compat_r; [exact H|].
    apply Qlt_le_weak, Qinv_lt_0_compat, two_pow_pos.
  - apply Qle_trans with (2 ^ (binade x + 1))%Q.
    + apply nearest53_bounds; exact Hx.
    + apply Qle_trans with (2 ^ binade y)%Q.
      * apply two_pow_le. lia.
      * apply nearest53_bounds; exact Hy.
Qed.

Lemma nearest53_pos (x : Q) : (0 < x)%Q -> (0 < nearest53 x)%Q.
Proof.
  intros Hx. eapply Qlt_le_trans; [apply (two_pow_pos (binade x))|].
  apply nearest53_bounds; exact Hx.
Qed.

Lemma nearest53_error (x : Q) :
  (0 < x)%Q -> (Qabs (nearest53 x - x) <= x * (1 # 2) ^ 53)%Q.
Proof.
  intros Hx. destruct (binade_bounds x Hx) as [B1 _].
  unfold nearest53. set (k := binade x) in *.
  set (s := (2 ^ (k - 52))%Q).
  assert (P : (0 < s)%Q) by apply two_pow_pos.
  assert (N := py_round_near (x / s)).
  set (m := py_round (x / s)) in *.
  assert (E : (inject_Z m * s - x == (inject_Z m - x / s) * s)%Q).
  { field. intros C. rewrite C in P. discriminate. }
  rewrite E, Qabs_Qmult, (Qabs_pos s) by (apply Qlt_le_weak; exact P).
  apply Qle_trans with ((1 # 2) * s)%Q.
  - apply Qmult_le_compat_r; [exact N | apply Qlt_le_weak; exact P].
  - apply Qle_trans with (2 ^ k * (1 # 2) ^ 53)%Q.
    + unfold s. replace (k - 52) with (k + (- 52)) by lia.
      rewrite Qpower_plus by discriminate.
      assert (C : ((1 # 2) * 2 ^ (-52) == (1 # 2) ^ 53)%Q) by reflexivity.
      rewrite <- C. ring_simplify. apply Qle_refl.
    + apply Qmult_le_compat_r; [exact B1 | discriminate].
Qed.

Lemma nearest53_dyadic (m j : Z) :
  0 < m < 2 ^ 53 ->
  (nearest53 (inject_Z m * 2 ^ j) == inject_Z m * 2 ^ j)%Q.
Proof.
  intros Hm.
  set (x := (inject_Z m * 2 ^ j)%Q).
  assert (Hx : (0 < x)%Q).
  { apply Qmult_lt_0_compat; [|apply two_pow_pos].
    change 0%Q with (inject_Z 0). rewrite <- Zlt_Qlt. lia. }
  destruct (scaled_bounds x Hx) as [S1 S2].
  unfold nearest53. set (e := binade x - 52) in *.
  assert (Ex : (x / 2 ^ e == inject_Z m * 2 ^ (j - e))%Q).
  { unfold x. rewrite Qpower_minus by discriminate. field.
    intros C. assert (P := two_pow_pos e). rewrite C in P. discriminate. }
  assert (J : 0 <= j - e).
  { destruct (Z_le_gt_dec 0 (j - e)) as [G|G]; [exact G | exfalso].
    rewrite Ex in S1.
    assert (Q1 : (2 ^ (j - e) <= 1 # 2)%Q).
    { change (1 # 2)%Q with (2 ^ (-1))%Q. apply two_pow_le. lia. }
    assert (Q2 : (inject_Z m < 2 ^ 53)%Q).
    { rewrite <- two_pow_inject by lia. rewrite <- Zlt_Qlt. lia. }
    assert (Q3 : (0 < inject_Z m)%Q).
    { change 0%Q with (inject_Z 0). rewrite <- Zlt_Qlt. lia. }
    assert (Q4 : (inject_Z m * 2 ^ (j - e) <= inject_Z m * (1 # 2))%Q).
    { apply Qmult_le_l; [exact Q3 | exact Q1]. }
    change ((2:Q) ^ 52)%Q with (4503599627370496 # 1)%Q in S1.
    change ((2:Q) ^ 53)%Q with (9007199254740992 # 1)%Q in Q2.
    lra. }
  rewrite (py_round_comp _ (inject_Z (m * 2 ^ (j - e)))).
  - rewrite py_round_inject_Z. rewrite inject_Z_mult, two_pow_inject by exact J.
    unfold x. rewrite Qpower_minus by discriminate. field.
    intros C. assert (P := two_pow_pos e). rewrite C in P. discriminate.
  - rewrite Ex, inject_Z_mult, two_pow_inject by exact J. reflexivity.
Qed.

(** The laws of [b64]: it depends on the value alone, keeps the sign and
    the order, is exact on the numbers of 53 bits, and is off by at most
    [2^-53] of its argument. *)

Lemma b64_comp (x y : Q) : (x == y)%Q -> b64 x = b64 y.
Proof.
  intros E. unfold b64.
  rewrite (Qcompare_comp x y E 0%Q 0%Q (Qeq_refl 0)).
  rewrite (Qred_complete x y E).
  rewrite (Qred_complete (- x) (- y)) by (rewrite E; reflexivity).
  reflexivity.
Qed.

Lemma b64_zero (x : Q) : (x == 0)%Q -> b64 x = 0%Q.
Proof.
  intros E. unfold b64. rewrite (proj1 (Qeq_alt x 0) E). reflexivity.
Qed.

Lemma b64_of_pos (x : Q) : (0 < x)%Q -> (b64 x == nearest53 x)%Q.
Proof.
  intros Hx. unfold b64. rewrite (proj1 (Qgt_alt x 0) Hx).
  rewrite Qred_correct. apply nearest53_comp.
  - rewrite Qred_correct. exact Hx.
  - apply Qred_correct.
Qed.

Lemma b64_of_neg (x : Q) : (x < 0)%Q -> (b64 x == - nearest53 (- x))%Q.
Proof.
  intros Hx. unfold b64. rewrite (proj1 (Qlt_alt x 0) Hx).
  rewrite Qred_correct. apply Qopp_comp. apply nearest53_comp.
  - rewrite Qred_correct. lra.
  - apply Qred_correct.
Qed.

Lemma b64_opp (x : Q) : (b64 (- x) == - b64 x)%Q.
Proof.
  destruct (Q_dec x 0) as [[H|H]|H].
  - rewrite (b64_of_neg x H), b64_of_pos by lra. ring.
  - rewrite (b64_of_pos x H), b64_of_neg by lra.
    rewrite (nearest53_comp (- - x) x); [reflexivity | lra | ring].
  - rewrite (b64_zero x H), (b64_zero (- x)) by lra. reflexivity.
Qed.

Lemma b64_pos (x : Q) : (0 < x)%Q -> (0 < b64 x)%Q.
Proof. intros H. rewrite b64_of_pos by exact H. apply nearest53_pos, H. Qed.

Lemma b64_neg (x : Q) : (x < 0)%Q -> (b64 x < 0)%Q.
Proof.
  intros H. rewrite b64_of_neg by exact H.
  assert (P := nearest53_pos (- x)). lra.
Qed.

Lemma b64_nonneg (x : Q) : (0 <= x)%Q -> (0 <= b64 x)%Q.
Proof.
  intros H. destruct (Qle_lt_or_eq _ _ H) as [P|E].
  - apply Qlt_le_weak, b64_pos, P.
  - rewrite (b64_zero x) by (symmetry; exact E). apply Qle_refl.
Qed.

Lemma b64_nonpos (x : Q) : (x <= 0)%Q -> (b64 x <= 0)%Q.
Proof.
  intros H. destruct (Qle_lt_or_eq _ _ H) as [P|E].
  - apply Qlt_le_weak, b64_neg, P.
  - rewrite (b64_zero x) by exact E. apply Qle_refl.
Qed.

Lemma b64_le (x y : Q) : (x <= y)%Q -> (b64 x <= b64 y)%Q.
Proof.
  intros H.
  destruct (Qlt_le_dec 0 x) as [Px|Nx].
  - rewrite (b64_of_pos x), (b64_of_pos y) by lra. apply nearest53_le; assumption.
  - destruct (Qlt_le_dec 0 y) as [Py|Ny].
    + apply Qle_trans with 0%Q; [apply b64_nonpos, Nx | apply b64_nonneg; lra].
    + destruct (Qle_lt_or_eq _ _ Ny) as [Ly|Ey].
      * rewrite (b64_of_neg x), (b64_of_neg y) by lra.
        apply Qopp_le_compat. apply nearest53_le; lra.
      * rewrite (b64_zero y) by exact Ey. apply b64_nonpos, Nx.
Qed.

Lemma b64_dyadic (m j : Z) :
  Z.abs m < 2 ^ 53 -> (b64 (inject_Z m * 2 ^ j) == inject_Z m * 2 ^ j)%Q.
Proof.
  intros Hm. assert (P := two_pow_pos j).
  destruct (Z.lt_trichotomy m 0) as [N|[Z0|Pm]].
  - assert (X : (inject_Z m * 2 ^ j == - (inject_Z (- m) * 2 ^ j))%Q).
    { rewrite inject_Z_opp. ring. }
    assert (Y : (0 < inject_Z (- m) * 2 ^ j)%Q).
    { apply Qmult_lt_0_compat; [|exact P].
      change 0%Q with (inject_Z 0); rewrite <- Zlt_Qlt; lia. }
    rewrite (b64_comp _ _ X), b64_opp, (b64_of_pos _ Y).
    rewrite (nearest53_dyadic (- m) j) by lia.
    symmetry. exact X.
  - subst m. rewrite b64_zero; [ring | ring].
  - rewrite b64_of_pos, nearest53_dyadic; [reflexivity | lia |].
    apply Qmult_lt_0_compat; [|exact P].
    change 0%Q with (inject_Z 0); rewrite <- Zlt_Qlt; lia.
Qed.

Lemma b64_inject_Z (n : Z) :
  Z.abs n < 2 ^ 53 -> (b64 (inject_Z n) == inject_Z n)%Q.
Proof.
  intros H. assert (E : (inject_Z n == inject_Z n * 2 ^ 0)%Q) by (cbn; ring).
  rewrite (b64_comp _ _ E). rewrite b64_dyadic by exact H. symmetry. exact E.
Qed.

Lemma b64_idempotent (x : Q) : (b64 (b64 x) == b64 x)%Q.
Proof.
  assert (P : forall y, (0 < y)%Q -> (b64 (nearest53 y) == nearest53 y)%Q).
  { intros y Hy. destruct (significand_bounds y Hy) as [M1 M2].
    unfold nearest53. set (m := py_round _) in *. set (e := binade y - 52).
    destruct (Z.eq_dec m (2 ^ 53)) as [E|NE].
    - assert (X : (inject_Z m * 2 ^ e == inject_Z 1 * 2 ^ (e + 53))%Q).
      { rewrite E, Qpower_plus by discriminate.
        rewrite two_pow_inject by lia. change (inject_Z 1) with 1%Q. ring. }
      rewrite (b64_comp _ _ X), b64_dyadic; [symmetry; exact X | reflexivity].
    - apply b64_dyadic. lia. }
  destruct (Q_dec x 0) as [[H|H]|H].
  - assert (Hy : (0 < - x)%Q) by lra.
    rewrite (b64_comp _ _ (b64_of_neg x H)), b64_opp, P by exact Hy.
    symmetry. apply b64_of_neg, H.
  - rewrite (b64_comp _ _ (b64_of_pos x H)), P by exact H.
    symmetry. apply b64_of_pos, H.
  - rewrite (b64_zero x H). reflexivity.
Qed.

Lemma b64_error (x : Q) : (Qabs (b64 x - x) <= Qabs x * (1 # 2) ^ 53)%Q.
Proof.
  destruct (Q_dec x 0) as [[H|H]|H].
  - rewrite (b64_of_neg x H).
    assert (E := nearest53_error (- x)).
    assert (A : (- nearest53 (- x) - x == - (nearest53 (- x) - - x))%Q) by ring.
    rewrite A, Qabs_opp. rewrite <- (Qabs_opp x), (Qabs_pos (- x)) by lra.
    apply E. lra.
  - rewrite (b64_of_pos x H), (Qabs_pos x) by lra. apply nearest53_error, H.
  - rewrite (b64_zero x H), H. cbn. discriminate.
Qed.

(** ** Integers, slices and array constructors *)

Lemma int_nonneg (x : Q) : (0 <= x)%Q -> int x = Qfloor x.
Proof.
  destruct x as [n d]. unfold Qle, int, Qfloor. simpl. intros H.
  apply Z.quot_div_nonneg; lia.
Qed.

Lemma int_nonneg_le (x : Q) : (0 <= x)%Q -> 0 <= int x.
Proof.
  destruct x as [n d]. unfold Qle, int. simpl. intros H.
  apply Z.quot_pos; lia.
Qed.

Lemma inject_Z_nonneg (z : Z) : 0 <= z -> (0 <= inject_Z z)%Q.
Proof. intros H. unfold Qle, inject_Z. simpl. lia. Qed.

Lemma inject_Z_pos (z : Z) : 0 < z -> (0 < inject_Z z)%Q.
Proof. intros H. unfold Qlt, inject_Z. simpl. lia. Qed.

(** A time that is not negative, scaled to samples, is not negative. *)
Lemma scaled_time_nonneg (t : Q) (rate : Z) (unit : Q) :
  (0 <= t)%Q -> 0 <= rate -> (0 < unit)%Q ->
  (0 <= t * inject_Z rate / unit)%Q.
Proof.
  intros Ht Hr Hu. apply Qle_shift_div_l; [exact Hu|]. rewrite Qmult_0_l.
  apply Qmult_le_0_compat; [exact Ht | apply inject_Z_nonneg, Hr].
Qed.

Lemma int_mul_nonneg (x : Q) (k : Z) :
  (0 <= x)%Q -> 0 <= k -> 0 <= int (b64 (x * inject_Z k)).
Proof.
  intros Hx Hk. apply int_nonneg_le, b64_nonneg.
  apply Qmult_le_0_compat; [exact Hx | apply inject_Z_nonneg, Hk].
Qed.

(** The same through the two roundings of [time * rate / 1e6]. *)
Lemma rounded_time_nonneg (t : Q) (rate : Z) (unit : Q) :
  (0 <= t)%Q -> 0 <= rate -> (0 < unit)%Q ->
  (0 <= b64 (b64 (t * inject_Z rate) / unit))%Q.
Proof.
  intros Ht Hr Hu. apply b64_nonneg.
  apply Qle_shift_div_l; [exact Hu|]. rewrite Qmult_0_l.
  apply b64_nonneg.
  apply Qmult_le_0_compat; [exact Ht | apply inject_Z_nonneg, Hr].
Qed.

Lemma int_b64_nonneg (x : Q) : (0 <= x)%Q -> int (b64 x) = Qfloor (b64 x).
Proof. intros H. apply int_nonneg, b64_nonneg, H. Qed.

Lemma len_nonneg {A} (l : list A) : 0 <= len l.
Proof. unfold len. lia. Qed.

Lemma len_app {A} (l1 l2 : list A) : len (l1 ++ l2) = len l1 + len l2.
Proof. unfold len. rewrite length_app. lia. Qed.

Lemma slice_to_firstn {A} (l : list A) (k : nat) :
  slice_to l (Z.of_nat k) = firstn k l.
Proof.
  unfold slice_to, norm_index.
  destruct (Z.of_nat k <? 0) eqn:E; [apply Z.ltb_lt in E; lia|].
  destruct (Nat.le_gt_cases k (length l)) as [Hle|Hgt].
  - f_equal. unfold len. lia.
  - replace (Z.to_nat (Z.min (Z.of_nat k) (len l))) with (length l)
      by (unfold len; lia).
    rewrite firstn_all, firstn_all2 by lia. reflexivity.
Qed.

Lemma np_multiply_length (x y : list Q) :
  length (np_multiply x y) = Nat.min (length x) (length y).
Proof. unfold np_multiply. now rewrite length_map, length_combine. Qed.

Lemma set_last_length (l : list Q) (v : Q) :
  length (Np.set_last l v) = length l.
Proof.
  destruct l as [|x l]; [reflexivity|].
  unfold Np.set_last. rewrite length_app.
  assert (H : x :: l <> []) by discriminate.
  destruct (exists_last H) as [l' [y ->]].
  rewrite removelast_last, length_app. simpl. lia.
Qed.

Lemma linspace_ok (start stop : Q) (num : Z) (endpoint : bool) :
  0 <= num ->
  exists y, Np.linspace start stop num endpoint = Ok y /\ len y = num.
Proof.
  intros Hn. unfold Np.linspace.
  destruct (num <? 0) eqn:E; [lia|].
  eexists. split; [reflexivity|].
  unfold len.
  destruct (endpoint && (num >? 1));
    rewrite ?set_last_length, length_map, length_seq; lia.
Qed.

Lemma linspace_raises (start stop : Q) (num : Z) (endpoint : bool) :
  num < 0 -> Np.linspace start stop num endpoint = Raise ValueError.
Proof.
  intros Hn. unfold Np.linspace. destruct (num <? 0) eqn:E; [reflexivity|lia].
Qed.

Lemma full_ok (n : Z) (v : Q) :
  0 <= n -> exists y, Np.full n v = Ok y /\ len y = n.
Proof.
  intros Hn. unfold Np.full. destruct (n <? 0) eqn:E; [lia|].
  eexists. split; [reflexivity|]. unfold len. rewrite repeat_length. lia.
Qed.

(** ** The ADSR envelope *)

Section Envelope.

Variables (note_duration : Q) (sample_rate : Z).
Variables (attack decay sustain_level release : Q).

Let total_samples := int (b64 (note_duration * inject_Z sample_rate)).
Let attack_samples := int (b64 (attack * inject_Z sample_rate)).
Let decay_samples := int (b64 (decay * inject_Z sample_rate)).
Let release_samples := int (b64 (release * inject_Z sample_rate)).

(** With non-negative segment counts the generator returns, and the
    envelope is as long as the longer of the note and its three timed
    segments. *)
Lemma apply_adsr_envelope_len :
  0 <= attack_samples -> 0 <= decay_samples -> 0 <= release_samples ->
  exists envelope,
    apply_adsr_envelope note_duration sample_rate
      attack decay sustain_level release = Ok envelope
    /\ len envelope
       = Z.max total_samples (attack_samples + decay_samples + release_samples).
Proof.
  intros Ha Hd Hr. unfold apply_adsr_envelope.
  fold total_samples attack_samples decay_samples release_samples.
  set (sus := if total_samples - (attack_samples + decay_samples + release_samples) <? 0
              then 0
              else total_samples - (attack_samples + decay_samples + release_samples)).
  assert (Hsus : 0 <= sus) by (subst sus; destruct (_ <? 0) eqn:E; lia).
  destruct (linspace_ok 0 1 _ false Ha) as [ae [-> Lae]].
  destruct (linspace_ok 1 sustain_level _ false Hd) as [de [-> Lde]].
  destruct (full_ok _ sustain_level Hsus) as [se [-> Lse]].
  destruct (linspace_ok sustain_level 0 _ true Hr) as [re [-> Lre]].
  cbn [bind].
  assert (Hlen : len (ae ++ de ++ se ++ re)
                 = attack_samples + decay_samples + sus + release_samples).
  { rewrite !len_app. lia. }
  assert (Hge : total_samples <= len (ae ++ de ++ se ++ re)).
  { rewrite Hlen. subst sus. destruct (_ <? 0) eqn:E; lia. }
  destruct (len (ae ++ de ++ se ++ re) <? total_samples) eqn:E; [lia|].
  eexists. split; [reflexivity|].
  rewrite Hlen. subst sus. destruct (_ <? 0) eqn:E'; lia.
Qed.

(** A negative segment count is refused by numpy. *)
Lemma apply_adsr_envelope_raises :
  attack_samples < 0 \/ decay_samples < 0 \/ release_samples < 0 ->
  apply_adsr_envelope note_duration sample_rate
    attack decay sustain_level release = Raise ValueError.
Proof.
  intros H. unfold apply_adsr_envelope.
  fold total_samples attack_samples decay_samples release_samples.
  set (sus := if total_samples - (attack_samples + decay_samples + release_samples) <? 0
              then 0
              else total_samples - (attack_samples + decay_samples + release_samples)).
  assert (Hsus : 0 <= sus) by (subst sus; destruct (_ <? 0) eqn:E; lia).
  destruct (Z_lt_le_dec attack_samples 0) as [Ha|Ha].
  { rewrite (linspace_raises _ _ _ _ Ha). reflexivity. }
  destruct (linspace_ok 0 1 _ false Ha) as [ae [-> Lae]]. cbn [bind].
  destruct (Z_lt_le_dec decay_samples 0) as [Hd|Hd].
  { rewrite (linspace_raises _ _ _ _ Hd). reflexivity. }
  destruct (linspace_ok 1 sustain_level _ false Hd) as [de [-> Lde]]. cbn [bind].
  destruct (full_ok _ sustain_level Hsus) as [se [-> Lse]]. cbn [bind].
  destruct (Z_lt_le_dec release_samples 0) as [Hr|Hr].
  { rewrite (linspace_raises _ _ _ _ Hr). reflexivity. }
  lia.
Qed.

End Envelope.

(** C1 (amended). For a positive duration and sample rate and non-negative
    segment times the envelope generator returns a gain sequence whose
    length is the larger of the sample count of the note and the attack,
    decay and release sample counts together, each count being the
    binary64 product of the time and the sample rate, truncated: when the
    three segments fit, the sustain segment fills the remainder and the
    length is the sample count of the note; when they exceed it, the
    sequence is not truncated and has the length of the three segments. *)
Theorem adsr_envelope_length
  (note_duration : Q) (sample_rate : Z)
  (attack decay sustain_level release : Q) :
  (0 < note_duration)%Q -> 0 < sample_rate ->
  (0 <= attack)%Q -> (0 <= decay)%Q -> (0 <= release)%Q ->
  let total := Qfloor (b64 (note_duration * inject_Z sample_rate)) in
  let segments := Qfloor (b64 (attack * inject_Z sample_rate))
                  + Qfloor (b64 (decay * inject_Z sample_rate))
                  + Qfloor (b64 (release * inject_Z sample_rate)) in
  exists envelope,
    apply_adsr_envelope note_duration sample_rate
      attack decay sustain_level release = Ok envelope
    /\ (segments <= total -> len envelope = total)
    /\ (total < segments -> len envelope = segments).
Proof.
  intros Hdur Hsr Ha Hd Hr total segments.
  assert (Hsr' : (0 <= inject_Z sample_rate)%Q)
    by (apply inject_Z_nonneg; lia).
  assert (Et : int (b64 (note_duration * inject_Z sample_rate)) = total).
  { apply int_b64_nonneg.
    apply Qmult_le_0_compat; [apply Qlt_le_weak|]; assumption. }
  assert (Ea : int (b64 (attack * inject_Z sample_rate))
               = Qfloor (b64 (attack * inject_Z sample_rate)))
    by (apply int_b64_nonneg, Qmult_le_0_compat; assumption).
  assert (Ed : int (b64 (decay * inject_Z sample_rate))
               = Qfloor (b64 (decay * inject_Z sample_rate)))
    by (apply int_b64_nonneg, Qmult_le_0_compat; assumption).
  assert (Er : int (b64 (release * inject_Z sample_rate))
               = Qfloor (b64 (release * inject_Z sample_rate)))
    by (apply int_b64_nonneg, Qmult_le_0_compat; assumption).
  destruct (apply_adsr_envelope_len note_duration sample_rate attack decay
              sustain_level release) as [env [Henv Hlen]];
    try (apply int_mul_nonneg; [assumption | lia]).
  exists env. split; [exact Henv|].
  rewrite Et, Ea, Ed, Er in Hlen. fold segments in Hlen.
  split; intros; lia.
Qed.

Lemma adsr_envelope_length_witness :
  exists envelope,
    apply_adsr_envelope (1 # 2) 48000 default_attack default_decay
      default_sustain_level default_release = Ok envelope
    /\ (Qfloor (b64 (default_attack * inject_Z 48000))
        + Qfloor (b64 (default_decay * inject_Z 48000))
        + Qfloor (b64 (default_release * inject_Z 48000))
        <= Qfloor (b64 ((1 # 2) * inject_Z 48000)) -> len envelope = 24000)
    /\ (Qfloor (b64 ((1 # 2) * inject_Z 48000))
        < Qfloor (b64 (default_attack * inject_Z 48000))
          + Qfloor (b64 (default_decay * inject_Z 48000))
          + Qfloor (b64 (default_release * inject_Z 48000)) ->
        len envelope = 14880).
Proof.
  apply (adsr_envelope_length (1 # 2) 48000 default_attack default_decay
           default_sustain_level default_release);
    [reflexivity | lia | discriminate | discriminate | discriminate].
Defined.

(** C1, as stated, fails for a short note: a tenth of a second at 48 kHz
    has 4800 samples, and the generator returns the 14880 samples of its
    attack, decay and release segments.  Nor is the sample count of a
    note the floor of the exact product: without segments, the binary64
    number [0.3] at 44.1 kHz gives 13230 samples, and the floor of its
    product with 44100 is 13229. *)
Lemma adsr_envelope_not_truncated :
  (exists envelope,
     apply_adsr_envelope_default (b64 (1 # 10)) 48000 = Ok envelope
     /\ len envelope = 14880
     /\ Qfloor (b64 (1 # 10) * inject_Z 48000) = 4800)
  /\ (exists envelope,
        apply_adsr_envelope (b64 (3 # 10)) 44100 0 0 0 0 = Ok envelope
        /\ len envelope = 13230
        /\ Qfloor (b64 (3 # 10) * inject_Z 44100) = 13229).
Proof.
  split.
  - destruct (apply_adsr_envelope_len (b64 (1 # 10)) 48000 default_attack
                default_decay default_sustain_level default_release)
      as [env [Henv Hlen]]; [vm_compute; discriminate .. |].
    exists env. split; [exact Henv|]. split; [|reflexivity].
    rewrite Hlen. vm_compute. reflexivity.
  - destruct (apply_adsr_envelope_len (b64 (3 # 10)) 44100 0 0 0 0)
      as [env [Henv Hlen]]; [vm_compute; discriminate .. |].
    exists env. split; [exact Henv|]. split; [|vm_compute; reflexivity].
    rewrite Hlen. vm_compute. reflexivity.
Qed.

(** C6 (amended). The envelope generator validates neither the duration
    nor the sample rate and knows no [InvalidParameterError]: it returns
    exactly when the attack, decay and release sample counts, the
    truncated binary64 products of the times and the sample rate, are all
    non-negative, whatever the duration, and otherwise numpy's
    [ValueError] comes out of it.  With the default segment times it
    returns for every duration and every sample rate that is not
    negative. *)
Theorem adsr_envelope_no_validation :
  (forall (note_duration : Q) (sample_rate : Z)
          (attack decay sustain_level release : Q),
      match apply_adsr_envelope note_duration sample_rate
              attack decay sustain_level release with
      | Ok _ =>
          0 <= int (b64 (attack * inject_Z sample_rate))
          /\ 0 <= int (b64 (decay * inject_Z sample_rate))
          /\ 0 <= int (b64 (release * inject_Z sample_rate))
      | Raise e =>
          e = ValueError
          /\ (int (b64 (attack * inject_Z sample_rate)) < 0
              \/ int (b64 (decay * inject_Z sample_rate)) < 0
              \/ int (b64 (release * inject_Z sample_rate)) < 0)
      end)
  /\ (forall (note_duration : Q) (sample_rate : Z),
        0 <= sample_rate ->
        is_ok (apply_adsr_envelope_default note_duration sample_rate) = true).
Proof.
  split.
  - intros dur sr a d s r.
    destruct (Z_lt_le_dec (int (b64 (a * inject_Z sr))) 0) as [Ha|Ha];
      [rewrite apply_adsr_envelope_raises by lia; split; [reflexivity|lia]|].
    destruct (Z_lt_le_dec (int (b64 (d * inject_Z sr))) 0) as [Hd|Hd];
      [rewrite apply_adsr_envelope_raises by lia; split; [reflexivity|lia]|].
    destruct (Z_lt_le_dec (int (b64 (r * inject_Z sr))) 0) as [Hr|Hr];
      [rewrite apply_adsr_envelope_raises by lia; split; [reflexivity|lia]|].
    destruct (apply_adsr_envelope_len dur sr a d s r Ha Hd Hr) as [env [-> _]].
    lia.
  - intros dur sr Hsr. unfold apply_adsr_envelope_default.
    destruct (apply_adsr_envelope_len dur sr default_attack default_decay
                default_sustain_level default_release) as [env [-> _]];
      try (apply int_mul_nonneg; [discriminate | exact Hsr]).
    reflexivity.
Qed.

Lemma adsr_envelope_no_validation_witness :
  is_ok (apply_adsr_envelope_default (-1) 48000) = true.
Proof.
  apply (proj2 adsr_envelope_no_validation (-1)%Q 48000). lia.
Defined.

(** C6, as stated, fails: a zero duration is not refused, the generator
    returns an envelope for it. *)
Lemma adsr_envelope_zero_duration_returns :
  is_ok (apply_adsr_envelope_default 0 48000) = true.
Proof.
  unfold apply_adsr_envelope_default.
  destruct (apply_adsr_envelope_len 0 48000 default_attack default_decay
              default_sustain_level default_release) as [env [-> _]];
    [vm_compute; discriminate .. |].
  reflexivity.
Qed.

(** ** Writing a voice into the master buffer *)

Lemma add_from_length (k : nat) (col rhs : list Q) :
  length (add_from k col rhs) = length col.
Proof.
  revert k rhs. induction col as [|x col IH]; intros k rhs; [reflexivity|].
  destruct k as [|k]; simpl.
  - destruct rhs as [|r rhs]; simpl; [reflexivity|]. now rewrite IH.
  - now rewrite IH.
Qed.

Lemma add_from_nth_before (k : nat) (col rhs : list Q) (i : nat) :
  (i < k)%nat -> nth i (add_from k col rhs) 0%Q = nth i col 0%Q.
Proof.
  revert k i rhs. induction col as [|x col IH]; intros k i rhs Hi; [reflexivity|].
  destruct k as [|k]; [lia|]. simpl.
  destruct i as [|i]; [reflexivity|]. apply IH. lia.
Qed.

Lemma add_from_nth_after (k : nat) (col rhs : list Q) (i : nat) :
  (k + length rhs <= i)%nat -> nth i (add_from k col rhs) 0%Q = nth i col 0%Q.
Proof.
  revert k i rhs. induction col as [|x col IH]; intros k i rhs Hi; [reflexivity|].
  destruct k as [|k]; simpl.
  - destruct rhs as [|r rhs]; [reflexivity|].
    simpl in Hi. destruct i as [|i]; [lia|]. simpl. apply IH. simpl. lia.
  - destruct i as [|i]; [lia|]. simpl. apply IH. lia.
Qed.

(** What a successful [iadd_rows] did: every column received one and the
    same sequence, as long as the slice, from the first row of the slice. *)
Lemma iadd_rows_ok (audio : ndarray) (a b : Z) (rhs : list Q) (audio' : ndarray) :
  iadd_rows audio a b rhs = Ok audio' ->
  let n := Z.of_nat (shape0 audio) in
  exists rhs',
    len rhs' = Z.max 0 (norm_index n b - norm_index n a)
    /\ shape0 audio' = shape0 audio
    /\ columns audio'
       = map (fun col => add_from (Z.to_nat (norm_index n a)) col rhs')
             (columns audio).
Proof.
  intros H n. unfold iadd_rows in H. fold n in H.
  destruct (len rhs =? _) eqn:E1.
  - injection H as <-. exists rhs. apply Z.eqb_eq in E1. auto.
  - destruct (len rhs =? 1) eqn:E2; [|discriminate].
    injection H as <-. eexists. split; [|split; reflexivity].
    unfold len. rewrite repeat_length. lia.
Qed.

Lemma well_shaped_map (f : list Q -> list Q) (a : ndarray) :
  (forall col, length (f col) = length col) ->
  well_shaped a ->
  well_shaped {| shape0 := shape0 a; columns := map f (columns a) |}.
Proof.
  unfold well_shaped. simpl. intros Hf H.
  apply Forall_map. eapply Forall_impl; [|exact H].
  simpl. intros col Hc. now rewrite Hf.
Qed.

Lemma iadd_rows_shape (audio : ndarray) (a b : Z) (rhs : list Q) (audio' : ndarray) :
  iadd_rows audio a b rhs = Ok audio' ->
  shape0 audio' = shape0 audio
  /\ shape1 audio' = shape1 audio
  /\ (well_shaped audio -> well_shaped audio').
Proof.
  intros H. destruct (iadd_rows_ok _ _ _ _ _ H) as [rhs' [_ [H0 Hc]]].
  split; [exact H0|]. split.
  - unfold shape1. rewrite Hc. apply length_map.
  - intros Hw. destruct audio' as [n' cols']. simpl in *. subst.
    apply well_shaped_map; [|exact Hw]. intros. apply add_from_length.
Qed.

Section SynthesizerProperties.

Context `{L : Libm}.

(** A voice thread leaves the shape of the master buffer alone. *)
Lemma run_voice_shape (self : HybridSynthesizer) (num_samples : Z)
  (event : midi_event) (duration_sec : Q) (audio : ndarray) :
  let audio' := run_voice self num_samples event duration_sec audio in
  shape0 audio' = shape0 audio
  /\ shape1 audio' = shape1 audio
  /\ (well_shaped audio -> well_shaped audio').
Proof.
  unfold run_voice, synthesize.
  destruct (getitem (ev_note event)) as [note|]; cbn [bind]; [|auto].
  destruct (getitem (ev_velocity event)) as [velocity|]; cbn [bind]; [|auto].
  destruct (synthesize_note _ _ _ _) as [wave|]; [|auto].
  destruct (iadd_rows _ _ _ _) as [audio'|] eqn:E; [|auto].
  exact (iadd_rows_shape _ _ _ _ _ E).
Qed.

Lemma add_from_nil (k : nat) (col : list Q) : add_from k col [] = col.
Proof.
  revert k. induction col as [|x col IH]; intros [|k]; simpl; try reflexivity.
  now rewrite IH.
Qed.

Lemma add_from_nth_in (k : nat) (col rhs : list Q) (i : nat) :
  (k <= i < k + length rhs)%nat -> (i < length col)%nat ->
  nth i (add_from k col rhs) 0%Q
  = (nth i col 0 + nth (i - k) rhs 0)%Q.
Proof.
  revert k i rhs. induction col as [|x col IH]; intros k i rhs Hi Hc;
    [simpl in Hc; lia|].
  destruct k as [|k].
  - destruct rhs as [|r rhs]; [simpl in Hi; lia|].
    destruct i as [|i]; [reflexivity|].
    cbn [add_from nth]. rewrite IH; [|simpl in Hi; lia | simpl in Hc; lia].
    rewrite Nat.sub_0_r. reflexivity.
  - destruct i as [|i]; [lia|]. cbn [add_from nth].
    rewrite IH; [|lia | simpl in Hc; lia]. reflexivity.
Qed.

(** [iadd_rows] with a right-hand side exactly as long as the slice. *)
Lemma iadd_rows_exact (audio : ndarray) (a b : Z) (rhs : list Q) :
  let n := Z.of_nat (shape0 audio) in
  len rhs = Z.max 0 (norm_index n b - norm_index n a) ->
  iadd_rows audio a b rhs
  = Ok {| shape0 := shape0 audio;
          columns := map (fun col => add_from (Z.to_nat (norm_index n a)) col rhs)
                         (columns audio) |}.
Proof.
  intros n H. unfold iadd_rows. fold n. rewrite H, Z.eqb_refl. reflexivity.
Qed.

Lemma nth_map_add_from (k : nat) (rhs : list Q) (cols : list (list Q))
  (ch : nat) :
  nth ch (map (fun col => add_from k col rhs) cols) []
  = add_from k (nth ch cols []) rhs.
Proof.
  revert ch. induction cols as [|c cols IH]; intros [|ch]; simpl; auto.
Qed.

Lemma nth_column_length (a : ndarray) (ch : nat) :
  well_shaped a -> (length (nth ch (columns a) []) <= shape0 a)%nat.
Proof.
  unfold well_shaped. intros H.
  destruct (Nat.lt_ge_cases ch (length (columns a))) as [Hlt|Hge].
  - rewrite Forall_forall in H. rewrite (H (nth ch (columns a) [])); [lia|].
    now apply nth_In.
  - rewrite nth_overflow by exact Hge. simpl. lia.
Qed.

(** C7 (amended). The start offset of a voice is
    [int(time * sample_rate / 1e6)]: the binary64 product and quotient,
    truncated and not rounded to the nearest sample.  The additive write keeps the master buffer's shape, so that
    no row beyond its end exists or is written; it leaves every row
    before the start offset as it was, and every row from the clipped end
    [min(start + len(wave), num_samples)] on; the rows in between receive
    the waveform from its first sample on. *)
Theorem voice_start_and_clipping (self : HybridSynthesizer) (num_samples : Z)
  (event : midi_event) (duration_sec : Q) (audio : ndarray) :
  (0 <= ev_time event)%Q -> 0 <= sample_rate self ->
  well_shaped audio -> Z.of_nat (shape0 audio) = num_samples ->
  let start_sample := start_sample_of self event in
  let audio' := run_voice self num_samples event duration_sec audio in
  start_sample
    = Qfloor (b64 (b64 (ev_time event * inject_Z (sample_rate self))
                   / 1000000))
  /\ shape0 audio' = shape0 audio
  /\ shape1 audio' = shape1 audio
  /\ well_shaped audio'
  /\ (forall ch i : nat,
        Z.of_nat i < start_sample ->
        sample audio' ch i = sample audio ch i)
  /\ (forall (note velocity : Z) (note_wave : list Q),
        ev_note event = Some note ->
        ev_velocity event = Some velocity ->
        synthesize_note self (440 * py_pow 2 (inject_Z (note - 69) / 12))
          duration_sec velocity = Ok note_wave ->
        let end_sample := Z.min (start_sample + len note_wave) num_samples in
        forall ch i : nat,
          (ch < shape1 audio)%nat ->
          (start_sample <= Z.of_nat i < end_sample ->
           sample audio' ch i
           = (sample audio ch i
              + nth (Z.to_nat (Z.of_nat i - start_sample)) note_wave 0)%Q)
          /\ (end_sample <= Z.of_nat i ->
              sample audio' ch i = sample audio ch i)).
Proof.
  intros Ht Hsr Hw Hn start_sample audio'.
  assert (Hpos : (0 <= b64 (b64 (ev_time event * inject_Z (sample_rate self))
                            / 1000000))%Q)
    by (apply rounded_time_nonneg; [exact Ht | exact Hsr | reflexivity]).
  assert (Hs : 0 <= start_sample)
    by (subst start_sample; apply int_nonneg_le; exact Hpos).
  destruct (run_voice_shape self num_samples event duration_sec audio)
    as [H0 [H1 H2]].
  split; [apply int_nonneg; exact Hpos|].
  split; [exact H0|]. split; [exact H1|]. split; [exact (H2 Hw)|].
  split.
  - intros ch i Hi. subst audio'. unfold sample, run_voice, synthesize.
    destruct (getitem (ev_note event)) as [note|]; cbn [bind]; [|reflexivity].
    destruct (getitem (ev_velocity event)) as [velocity|]; cbn [bind];
      [|reflexivity].
    destruct (synthesize_note _ _ _ _) as [wave|]; [|reflexivity].
    destruct (iadd_rows _ _ _ _) as [out|] eqn:E; [|reflexivity].
    destruct (iadd_rows_ok _ _ _ _ _ E) as [rhs' [_ [_ Hc]]].
    rewrite Hc, nth_map_add_from.
    fold start_sample.
    unfold norm_index. destruct (start_sample <? 0) eqn:En; [lia|].
    destruct (Z_lt_le_dec (Z.of_nat i) (Z.of_nat (shape0 audio))) as [Hin|Hout].
    + apply add_from_nth_before. lia.
    + pose proof (nth_column_length audio ch Hw) as Hlen.
      rewrite !nth_overflow; [reflexivity | lia |].
      rewrite add_from_length. lia.
  - intros note velocity wave Hnote Hvel Hwave end_sample ch i Hch.
    subst audio'. unfold sample, run_voice, synthesize.
    rewrite Hnote, Hvel. cbn [getitem bind]. rewrite Hwave.
    fold start_sample. fold end_sample.
    assert (Hcol : length (nth ch (columns audio) []) = shape0 audio).
    { unfold well_shaped in Hw. rewrite Forall_forall in Hw.
      apply Hw, nth_In. exact Hch. }
    pose proof (len_nonneg wave) as Hwl.
    destruct (Z_lt_le_dec num_samples start_sample) as [Hfar|Hnear].
    + (* the voice starts beyond the buffer: nothing is written *)
      assert (Hend : end_sample = num_samples) by (subst end_sample; lia).
      assert (Hsame : forall out,
                 iadd_rows audio start_sample end_sample
                   (slice_to wave (end_sample - start_sample)) = Ok out ->
                 nth i (nth ch (columns out) []) 0%Q
                 = nth i (nth ch (columns audio) []) 0%Q).
      { intros out E. destruct (iadd_rows_ok _ _ _ _ _ E) as [rhs' [Hl [_ Hc]]].
        rewrite Hc, nth_map_add_from.
        assert (Hr : rhs' = []).
        { destruct rhs'; [reflexivity|]. exfalso. revert Hl.
          unfold len, norm_index. cbn [length].
          destruct (end_sample <? 0) eqn:E1; destruct (start_sample <? 0) eqn:E2;
            lia. }
        rewrite Hr, add_from_nil. reflexivity. }
      split; [lia|]. intros _.
      destruct (iadd_rows _ _ _ _) as [out|] eqn:E; [|reflexivity].
      apply Hsame. reflexivity.
    + assert (Hend : start_sample <= end_sample <= num_samples)
        by (subst end_sample; lia).
      assert (Ha : norm_index (Z.of_nat (shape0 audio)) start_sample
                   = start_sample).
      { unfold norm_index. destruct (start_sample <? 0) eqn:En; lia. }
      assert (Hb : norm_index (Z.of_nat (shape0 audio)) end_sample
                   = end_sample).
      { unfold norm_index. destruct (end_sample <? 0) eqn:En; lia. }
      assert (Hrhs : slice_to wave (end_sample - start_sample)
                     = firstn (Z.to_nat (end_sample - start_sample)) wave).
      { rewrite <- (slice_to_firstn wave (Z.to_nat (end_sample - start_sample))).
        f_equal. lia. }
      assert (Hlen : len (slice_to wave (end_sample - start_sample))
                     = end_sample - start_sample).
      { rewrite Hrhs. unfold len. rewrite length_firstn.
        subst end_sample. unfold len. lia. }
      rewrite iadd_rows_exact by (rewrite Ha, Hb, Hlen; lia).
      cbn [columns]. rewrite nth_map_add_from, Ha.
      split.
      * intros Hi. rewrite add_from_nth_in.
        -- f_equal. rewrite Hrhs, nth_firstn.
           replace (i - Z.to_nat start_sample)%nat
             with (Z.to_nat (Z.of_nat i - start_sample)) by lia.
           destruct (_ <? _)%nat eqn:El; [reflexivity|].
           apply Nat.ltb_ge in El. lia.
        -- unfold len in Hlen. lia.
        -- lia.
      * intros Hi. apply add_from_nth_after. unfold len in Hlen. lia.
Qed.

End SynthesizerProperties.

Lemma voice_start_and_clipping_witness :
  let event := note_event note_on 300000 60 100 in
  let start_sample := start_sample_of example_synth event in
  let audio' :=
    @run_voice example_libm example_synth 10 event (1 # 2) example_audio in
  start_sample = Qfloor (b64 (b64 (ev_time event * inject_Z 10) / 1000000))
  /\ shape0 audio' = 10%nat
  /\ shape1 audio' = 2%nat
  /\ well_shaped audio'
  /\ (forall ch i : nat,
        Z.of_nat i < start_sample ->
        sample audio' ch i = sample example_audio ch i)
  /\ (forall (note velocity : Z) (note_wave : list Q),
        ev_note event = Some note ->
        ev_velocity event = Some velocity ->
        @synthesize_note example_libm example_synth
          (440 * @py_pow example_libm 2 (inject_Z (note - 69) / 12))
          (1 # 2) velocity = Ok note_wave ->
        let end_sample := Z.min (start_sample + len note_wave) 10 in
        forall ch i : nat,
          (ch < 2)%nat ->
          (start_sample <= Z.of_nat i < end_sample ->
           sample audio' ch i
           = (sample example_audio ch i
              + nth (Z.to_nat (Z.of_nat i - start_sample)) note_wave 0)%Q)
          /\ (end_sample <= Z.of_nat i ->
              sample audio' ch i = sample example_audio ch i)).
Proof.
  apply (@voice_start_and_clipping example_libm example_synth 10
           (note_event note_on 300000 60 100) (1 # 2) example_audio);
    [discriminate | simpl; lia | repeat constructor | reflexivity].
Defined.

(** C7, as stated, fails: an event at 15 microseconds and 48 kHz lies at
    0.72 samples, which rounds to sample 1, and the voice starts at
    sample 0. *)
Lemma start_sample_not_rounded :
  start_sample_of {| sample_rate := 48000; channels := 2; duration := 1 |}
    (note_event note_on 15 60 100) = 0
  /\ py_round (15 / 1000000 * inject_Z 48000) = 1.
Proof. split; reflexivity. Qed.

(** ** Note synthesis *)

(** The waveform of a note has [int(duration * sample_rate)] samples,
    the binary64 product truncated: an envelope that overshoots is
    trimmed to the tone. *)
Lemma synthesize_note_length `{L : Libm} (self : HybridSynthesizer)
  (freq duration_sec : Q) (velocity : Z) :
  (0 <= duration_sec)%Q -> 0 <= sample_rate self ->
  exists note_wave,
    synthesize_note self freq duration_sec velocity = Ok note_wave
    /\ len note_wave = int (b64 (duration_sec * inject_Z (sample_rate self))).
Proof.
  intros Hd Hsr. unfold synthesize_note.
  set (num_samples := int (b64 (duration_sec * inject_Z (sample_rate self)))).
  assert (Hnum : 0 <= num_samples)
    by (subst num_samples; apply int_mul_nonneg; assumption).
  destruct (linspace_ok 0 duration_sec num_samples false Hnum) as [t [-> Lt]].
  cbn [bind]. unfold apply_adsr_envelope_default.
  destruct (apply_adsr_envelope_len duration_sec (sample_rate self)
              default_attack default_decay default_sustain_level
              default_release) as [env [-> Le]];
    try (apply int_mul_nonneg; [discriminate | exact Hsr]).
  cbn [bind]. fold num_samples in Le.
  eexists. split; [reflexivity|].
  assert (Ltone : len (map (fun ti => np_sin (2 * np_pi * freq * ti)) t)
                  = num_samples)
    by (unfold len in *; rewrite length_map; exact Lt).
  set (tone := map (fun ti => np_sin (2 * np_pi * freq * ti)) t) in *.
  unfold len at 1. rewrite length_map, np_multiply_length.
  destruct (len tone =? len env) eqn:E; cbn [negb].
  - apply Z.eqb_eq in E. unfold len in *. lia.
  - replace (Z.min (len tone) (len env)) with (Z.of_nat (Z.to_nat num_samples))
      by lia.
    rewrite !slice_to_firstn, !length_firstn. unfold len in *. lia.
Qed.


(** The pedal noise follows the state of the generator. *)
Lemma generate_pedal_noise_depends_on_generator :
  let g1 := {| unit_uniform := fun _ => 0%Q; standard_normal := fun _ => 0%Q;
               cursor := 0 |} in
  let g2 := {| unit_uniform := fun _ => (1 # 2)%Q;
               standard_normal := fun _ => 0%Q; cursor := 0 |} in
  match generate_pedal_noise 50 127 g1, generate_pedal_noise 50 127 g2 with
  | Ok r1, Ok r2 => fst r1 <> fst r2
  | _, _ => False
  end.
Proof. vm_compute. discriminate. Qed.

(** ** The length of the render *)

Lemma max2_ge_l (a b : Q) : (a <= max2 a b)%Q.
Proof.
  unfold max2. destruct (Qlt_le_dec a b) as [H|H].
  - apply Qlt_le_weak. exact H.
  - apply Qle_refl.
Qed.

Lemma np_zeros_ok (n c : Z) :
  0 <= n -> 0 <= c ->
  exists a,
    np_zeros n c = Ok a
    /\ shape0 a = Z.to_nat n /\ shape1 a = Z.to_nat c /\ well_shaped a.
Proof.
  intros Hn Hc. unfold np_zeros.
  destruct (n <? 0) eqn:En; [lia|]. destruct (c <? 0) eqn:Ec; [lia|].
  eexists. split; [reflexivity|]. unfold shape1, well_shaped. simpl.
  split; [reflexivity|]. split; [apply repeat_length|].
  apply Forall_forall. intros col Hin. apply repeat_spec in Hin. subst col.
  apply repeat_length.
Qed.

Lemma last_map {A B} (f : A -> B) (l : list A) (d : A) :
  last (map f l) (f d) = f (last l d).
Proof.
  induction l as [|x l IH]; [reflexivity|].
  destruct l as [|y l]; [reflexivity|]. exact IH.
Qed.

(** Transposition and the tempo override leave the timing alone. *)
Lemma total_duration_init (default_duration : Q) (events : list midi_event)
  (transposition : Z) (bpm : Q) :
  total_duration default_duration
    (map (override_tempo bpm) (map (transpose transposition) events))
  = total_duration default_duration events.
Proof.
  rewrite map_map. destruct events as [|e rest]; [reflexivity|].
  unfold total_duration. cbn [map].
  rewrite (last_map (fun x => override_tempo bpm (transpose transposition x))).
  reflexivity.
Qed.

Lemma has_note_keys_init (transposition : Z) (bpm : Q) (e : midi_event) :
  has_note_keys e -> has_note_keys (override_tempo bpm (transpose transposition e)).
Proof.
  unfold has_note_keys. simpl. intros H Hty. destruct (H Hty) as [Hn Hc].
  split; [|exact Hc]. destruct (ev_note e); [discriminate|contradiction].
Qed.

Section RenderProperties.

Context `{L : Libm}.

Lemma note_duration_sec_ok (event : midi_event) (subsequent : list midi_event) :
  ev_note event <> None -> ev_channel event <> None ->
  exists d, note_duration_sec event subsequent = Ok d.
Proof.
  intros Hn Hc.
  destruct (ev_note event) as [note|] eqn:En; [|contradiction].
  destruct (ev_channel event) as [channel|] eqn:Ec; [|contradiction].
  induction subsequent as [|s rest IH]; simpl; [eauto|].
  rewrite En, Ec. cbn [getitem bind].
  destruct (event_type_eqb (ev_type s) note_off); [|exact IH].
  destruct (get_eqb (ev_note s) note); [|exact IH].
  destruct (get_eqb (ev_channel s) channel); [eauto | exact IH].
Qed.

Lemma event_type_eqb_eq (a b : event_type) :
  event_type_eqb a b = true -> a = b.
Proof. destruct a, b; simpl; congruence. Qed.

(** The event loop returns, with the buffer in the shape it was given. *)
Lemma render_events_ok (self : HybridSynthesizer) (num_samples : Z)
  (midi_events : list midi_event) (audio : ndarray) :
  Forall has_note_keys midi_events ->
  exists audio',
    render_events self num_samples midi_events audio = Ok audio'
    /\ shape0 audio' = shape0 audio
    /\ shape1 audio' = shape1 audio
    /\ (well_shaped audio -> well_shaped audio').
Proof.
  intros Hk. revert audio.
  induction Hk as [|event rest Hev Hrest IH]; intros audio; simpl; [eauto|].
  destruct (event_type_eqb (ev_type event) note_on) eqn:Ety; [|apply IH].
  apply event_type_eqb_eq in Ety. destruct (Hev Ety) as [Hn Hc].
  destruct (note_duration_sec_ok event rest Hn Hc) as [d ->]. cbn [bind].
  destruct (run_voice_shape self num_samples event d audio) as [V0 [V1 Vw]].
  destruct (IH (run_voice self num_samples event d audio))
    as [audio' [-> [R0 [R1 Rw]]]].
  exists audio'. split; [reflexivity|].
  split; [congruence|]. split; [congruence|]. auto.
Qed.

End RenderProperties.

Section ConverterProperties.

Context `{L : Libm} `{SP : Scipy}.

(** Synthesis returns a buffer of [int(sample_rate * duration)] rows, the
    binary64 product truncated, and [channels] columns. *)
Lemma generate_waveform_ok (self : UniversalConverter) :
  (0 <= inject_Z (uc_sample_rate self) * uc_duration self)%Q ->
  0 <= uc_channels self ->
  Forall has_note_keys (uc_midi_events self) ->
  exists audio,
    generate_waveform self = Ok audio
    /\ Z.of_nat (shape0 audio)
       = int (b64 (inject_Z (uc_sample_rate self) * uc_duration self))
    /\ Z.of_nat (shape1 audio) = uc_channels self
    /\ well_shaped audio.
Proof.
  intros Hpos Hch Hk.
  unfold generate_waveform, render. cbn [sample_rate channels duration].
  pose proof (int_nonneg_le _ (b64_nonneg _ Hpos)) as Hrows.
  destruct (np_zeros_ok
              (int (b64 (inject_Z (uc_sample_rate self) * uc_duration self)))
              (uc_channels self))
    as [audio0 [-> [Z0 [Z1 Zw]]]];
    [exact Hrows | exact Hch |].
  cbn [bind].
  edestruct render_events_ok as [audio [-> [R0 [R1 Rw]]]]; [exact Hk|].
  exists audio. split; [reflexivity|].
  rewrite R0, R1, Z0, Z1.
  split; [lia|]. split; [lia|]. exact (Rw Zw).
Qed.

(** C10 (amended). The converter renders [max(default_duration,
    last_time / 1e6 + 0.5)] seconds, the quotient and the sum as binary64
    computes them, [last_time] being the time of the last event of the
    list, and [default_duration] seconds when there is no event; the
    master buffer synthesis returns has [int(sample_rate * duration)]
    rows, the binary64 product truncated, and [channels] columns. *)
Theorem render_duration_and_shape (events : list midi_event)
  (rate nchannels : Z) (default_duration : Q)
  (target_length_sec : option Z) (transposition : Z) (bpm : Q) :
  0 <= rate -> 0 <= nchannels -> (0 <= default_duration)%Q ->
  Forall has_note_keys events ->
  let self := UniversalConverter_init events rate nchannels
                default_duration target_length_sec transposition bpm in
  (events = [] -> uc_duration self = default_duration)
  /\ (forall e rest, events = e :: rest ->
        uc_duration self
        = max2 default_duration
            (b64 (b64 (ev_time (last rest e) / 1000000) + (1 # 2))))
  /\ exists audio,
       generate_waveform self = Ok audio
       /\ Z.of_nat (shape0 audio)
          = Qfloor (b64 (inject_Z rate * uc_duration self))
       /\ Z.of_nat (shape1 audio) = nchannels
       /\ well_shaped audio.
Proof.
  intros Hsr Hch Hdd Hk self.
  assert (Hdur : uc_duration self = total_duration default_duration events).
  { subst self. unfold UniversalConverter_init. cbn [uc_duration].
    apply total_duration_init. }
  split; [intros ->; exact Hdur|].
  split; [intros e rest ->; exact Hdur|].
  assert (Hpos : (0 <= inject_Z rate * uc_duration self)%Q).
  { apply Qmult_le_0_compat; [apply inject_Z_nonneg, Hsr|].
    rewrite Hdur. destruct events as [|e rest]; [exact Hdd|].
    unfold total_duration. eapply Qle_trans; [exact Hdd|apply max2_ge_l]. }
  destruct (generate_waveform_ok self) as [audio [Ha [A0 [A1 Aw]]]].
  { exact Hpos. }
  { exact Hch. }
  { subst self. unfold UniversalConverter_init. cbn [uc_midi_events].
    rewrite map_map. apply Forall_map.
    eapply Forall_impl; [|exact Hk]. intros e. apply has_note_keys_init. }
  exists audio. split; [exact Ha|].
  rewrite <- (int_b64_nonneg _ Hpos). auto.
Qed.

End ConverterProperties.

Lemma render_duration_and_shape_witness :
  let self := UniversalConverter_init chord_events 44100 2 1 None 0 120 in
  (chord_events = [] -> uc_duration self = 1%Q)
  /\ (forall e rest, chord_events = e :: rest ->
        uc_duration self
        = max2 1 (b64 (b64 (ev_time (last rest e) / 1000000) + (1 # 2))))
  /\ exists audio,
       generate_waveform (L := example_libm) self = Ok audio
       /\ Z.of_nat (shape0 audio)
          = Qfloor (b64 (inject_Z 44100 * uc_duration self))
       /\ Z.of_nat (shape1 audio) = 2
       /\ well_shaped audio.
Proof.
  apply (@render_duration_and_shape example_libm chord_events 44100 2 1
           None 0 120); [lia | lia | discriminate |].
  unfold chord_events, has_note_keys.
  repeat constructor; discriminate.
Defined.

(** C10, as stated, fails: for a note released 0.57 s into the piece the
    duration is 1.07 s, and at 44.1 kHz the buffer has 47186 rows, one
    less than [floor(44100 * 1.07) = 47187]: the binary64 number for
    1.07 lies below it, and so does its product with the sample rate. *)
Lemma render_rows_below_exact_floor :
  let events := [ note_event note_on 70000 60 100;
                  note_event note_off 570000 60 0 ] in
  let self := UniversalConverter_init events 44100 2 1 None 0 120 in
  (exists audio,
     generate_waveform (L := example_libm) self = Ok audio
     /\ Z.of_nat (shape0 audio) = 47186)
  /\ Qfloor (inject_Z 44100 * max2 1 (570000 / 1000000 + (1 # 2))) = 47187.
Proof.
  intros events self. split; [|reflexivity].
  destruct (generate_waveform_ok (L := example_libm) self)
    as [audio [Ha [A0 _]]].
  - vm_compute. discriminate.
  - vm_compute. discriminate.
  - subst self events. unfold UniversalConverter_init, has_note_keys.
    repeat constructor; discriminate.
  - exists audio. split; [exact Ha|]. rewrite A0. vm_compute. reflexivity.
Qed.

(** For the chord, the duration is one second and the buffer has 44100
    rows. *)
Lemma chord_render_rows :
  let self := UniversalConverter_init chord_events 44100 2 1 None 0 120 in
  (uc_duration self == 1)%Q
  /\ Qfloor (b64 (inject_Z 44100 * uc_duration self)) = 44100.
Proof. split; vm_compute; reflexivity. Qed.

(** ** The normalizer *)

Lemma fold_max2_zero (l : list Q) (m : Q) :
  (m == 0)%Q -> Forall (fun x => x == 0)%Q l -> (fold_left max2 l m == 0)%Q.
Proof.
  revert m. induction l as [|x l IH]; intros m Hm Hl; [exact Hm|].
  inversion Hl as [|? ? Hx Hl']; subst. simpl. apply IH; [|exact Hl'].
  unfold max2. destruct (Qlt_le_dec m x); assumption.
Qed.

Lemma max_abs_zero (l : list Q) :
  l <> [] -> Forall (fun x => x == 0)%Q l ->
  exists m, max_abs l = Ok m /\ (m == 0)%Q.
Proof.
  intros Hne Hl. destruct l as [|x l]; [contradiction|].
  unfold max_abs. cbn [map max_list]. eexists. split; [reflexivity|].
  inversion Hl as [|? ? Hx Hl']; subst.
  apply fold_max2_zero.
  - rewrite Hx. reflexivity.
  - apply Forall_map. eapply Forall_impl; [|exact Hl'].
    simpl. intros a Ha. rewrite Ha. reflexivity.
Qed.

Lemma all_zero_samples (a : ndarray) :
  all_zero a -> Forall (fun x => x == 0)%Q (all_samples a).
Proof.
  unfold all_zero, all_samples. intros H.
  induction H as [|c cols Hc Hcols IH]; simpl; [constructor|].
  apply Forall_app. split; assumption.
Qed.

(** The scaling step leaves an all-zero buffer as it is: nothing is
    divided. *)
Lemma normalize_scale_zero (pcm : ndarray) :
  all_zero pcm -> all_samples pcm <> [] -> normalize_scale pcm = Ok pcm.
Proof.
  intros Hz Hne. unfold normalize_scale.
  destruct (max_abs_zero _ Hne (all_zero_samples _ Hz)) as [m [-> Hm]].
  cbn [bind]. destruct (Qlt_le_dec 0 m) as [Hlt|Hle]; [|reflexivity].
  rewrite Hm in Hlt. discriminate.
Qed.

Lemma random_uniform_shape (low high : Q) (n c : nat) (g : RandomState) :
  let u := fst (random_uniform low high n c g) in
  shape0 u = n /\ length (columns u) = c
  /\ Forall (fun col => length col = n) (columns u).
Proof.
  simpl. split; [reflexivity|]. split; [now rewrite length_map, length_seq|].
  apply Forall_map, Forall_forall. intros ch _.
  now rewrite length_map, length_seq.
Qed.

(** Adding a column of zeros to a column of the same length changes no
    sample. *)
Lemma zip_zero_column (zs ys : list Q) :
  Forall (fun x => x == 0)%Q zs -> length zs = length ys ->
  Forall2 Qeq (map (fun s => Qplus (fst s) (snd s)) (combine zs ys)) ys.
Proof.
  intros Hz. revert ys. induction Hz as [|z zs Hz0 Hzs IH]; intros ys Hlen.
  - destruct ys; [constructor|discriminate].
  - destruct ys as [|y ys]; [discriminate|]. simpl. constructor.
    + rewrite Hz0. apply Qplus_0_l.
    + apply IH. simpl in Hlen. congruence.
Qed.

Lemma zip_zero_array (zc yc : list (list Q)) (n : nat) :
  Forall (Forall (fun x => x == 0)%Q) zc ->
  Forall (fun c => length c = n) zc ->
  Forall (fun c => length c = n) yc ->
  length zc = length yc ->
  Forall2 (Forall2 Qeq)
    (map (fun p => map (fun s => Qplus (fst s) (snd s))
                     (combine (fst p) (snd p)))
         (combine zc yc))
    yc.
Proof.
  intros Hz. revert yc.
  induction Hz as [|z zc Hz0 Hzc IH]; intros yc Hzn Hyn Hlen.
  - destruct yc; [constructor|discriminate].
  - destruct yc as [|y yc]; [discriminate|].
    inversion Hzn; inversion Hyn; subst. simpl. constructor.
    + apply zip_zero_column; [exact Hz0|congruence].
    + apply IH; try assumption. simpl in Hlen. congruence.
Qed.

Lemma tpdf_noise_shape (dither_amp : Q) (n c : nat) (g : RandomState) :
  let noise := fst (tpdf_noise dither_amp n c g) in
  shape0 noise = n /\ length (columns noise) = c
  /\ Forall (fun col => length col = n) (columns noise).
Proof.
  unfold tpdf_noise. simpl. split; [reflexivity|].
  split.
  - rewrite length_map, length_combine, !length_map, !length_seq. lia.
  - apply Forall_map, Forall_forall. intros [c1 c2] Hin. simpl.
    rewrite length_map, length_combine.
    apply in_combine_l in Hin as H1. apply in_combine_r in Hin as H2.
    apply in_map_iff in H1 as [? [<- _]]. apply in_map_iff in H2 as [? [<- _]].
    rewrite !length_map, !length_seq. lia.
Qed.

(** C4 (amended). For an all-zero input the normalizer divides nothing,
    the scaling step returns the buffer itself, but the dither is added
    all the same: the output is the dither noise, the sum of two uniform
    draws for every sample, and the generator has moved on by two draws
    per sample. *)
Theorem normalizer_zero_input (dither_amp : Q) (pcm : ndarray)
  (g : RandomState) :
  all_zero pcm -> all_samples pcm <> [] -> well_shaped pcm ->
  let noise := fst (tpdf_noise dither_amp (shape0 pcm) (shape1 pcm) g) in
  normalize_scale pcm = Ok pcm
  /\ exists out g',
       Normalizer_process dither_amp pcm g = Ok (out, g')
       /\ samples_equiv out noise
       /\ cursor g' = (cursor g + 2 * (shape0 pcm * shape1 pcm))%nat.
Proof.
  intros Hz Hne Hw noise.
  split; [exact (normalize_scale_zero _ Hz Hne)|].
  unfold Normalizer_process. rewrite (normalize_scale_zero _ Hz Hne). cbn [bind].
  destruct (tpdf_noise_shape dither_amp (shape0 pcm) (shape1 pcm) g)
    as [N0 [N1 Nw]]. fold noise in N0, N1, Nw.
  destruct (tpdf_noise dither_amp (shape0 pcm) (shape1 pcm) g)
    as [noise' g'] eqn:E.
  simpl in noise. subst noise. exists (zip_samples Qplus pcm noise'), g'.
  split; [reflexivity|]. split.
  - unfold samples_equiv, zip_samples. cbn [shape0 columns].
    split; [congruence|].
    apply zip_zero_array with (n := shape0 pcm); try assumption.
    unfold shape1 in N1. congruence.
  - unfold tpdf_noise in E. simpl in E. injection E as _ <-. simpl. lia.
Qed.

Lemma normalizer_zero_input_witness :
  let noise := fst (tpdf_noise (1 # 100000) 10 2 example_generator) in
  normalize_scale example_audio = Ok example_audio
  /\ exists out g',
       Normalizer_process (1 # 100000) example_audio example_generator
       = Ok (out, g')
       /\ samples_equiv out noise
       /\ cursor g' = 40%nat.
Proof.
  apply (normalizer_zero_input (1 # 100000) example_audio example_generator).
  - unfold all_zero, example_audio. simpl.
    repeat (constructor; try reflexivity).
  - simpl. discriminate.
  - unfold well_shaped, example_audio. simpl. repeat constructor.
Defined.

(** C4, as stated, fails: one sample of silence comes back from the
    normalizer as the dither it drew, not as zero. *)
Lemma normalizer_adds_dither_to_silence :
  let silence := {| shape0 := 1; columns := [[0%Q]] |} in
  exists out g',
    Normalizer_process (1 # 100000) silence example_generator = Ok (out, g')
    /\ sample out 0 0 == 1 # 100000
    /\ ~ samples_equiv out silence.
Proof.
  eexists. eexists. split; [vm_compute; reflexivity|].
  split; [reflexivity|].
  intros [_ H]. simpl in H.
  inversion H as [|? ? ? ? Hc _]; subst.
  inversion Hc as [|? ? ? ? Hx _]; subst.
  vm_compute in Hx. discriminate.
Qed.

(** ** Per-channel loops and resampling *)

(** A per-channel loop whose function returns a column of the right length
    for each channel returns, having replaced those channels by the
    function's results. *)
Lemma per_channel_ok (f : list Q -> result (list Q)) (cols : list (list Q)) :
  forall (ch : nat) (acc : ndarray),
    (ch + length cols <= length (columns acc))%nat ->
    Forall (fun col => exists y, f col = Ok y /\ length y = shape0 acc) cols ->
    exists ys,
      Forall2 (fun col y => f col = Ok y /\ length y = shape0 acc) cols ys
      /\ per_channel f cols ch acc
         = Ok {| shape0 := shape0 acc;
                 columns := firstn ch (columns acc) ++ ys
                            ++ skipn (ch + length cols) (columns acc) |}.
Proof.
  induction cols as [|col rest IH]; intros ch acc Hlen Hf.
  - exists []. split; [constructor|]. simpl.
    rewrite Nat.add_0_r, firstn_skipn. destruct acc; reflexivity.
  - inversion Hf as [|? ? [y [Hy Ly]] Hrest]; subst.
    simpl in Hlen. simpl. rewrite Hy. cbn [bind].
    unfold set_column, shape1.
    destruct (length (columns acc) <=? ch)%nat eqn:E1;
      [apply Nat.leb_le in E1; lia|].
    rewrite Ly, Nat.eqb_refl. cbn [bind].
    set (acc' := {| shape0 := shape0 acc;
                    columns := firstn ch (columns acc) ++ y
                               :: skipn (S ch) (columns acc) |}).
    assert (Hl' : length (columns acc') = length (columns acc)).
    { subst acc'. cbn [columns]. rewrite length_app, length_firstn.
      cbn [length]. rewrite length_skipn. lia. }
    destruct (IH (S ch) acc') as [ys [Hys Hrun]].
    { rewrite Hl'. lia. }
    { exact Hrest. }
    exists (y :: ys). split; [constructor; [split|]; assumption|].
    rewrite Hrun. f_equal. f_equal. subst acc'. cbn [columns shape0].
    assert (Hf1 : length (firstn ch (columns acc)) = ch)
      by (rewrite length_firstn; lia).
    rewrite firstn_app, Hf1, firstn_firstn.
    replace (Nat.min (S ch) ch) with ch by lia.
    replace (S ch - ch)%nat with 1%nat by lia.
    rewrite skipn_app, Hf1.
    replace (S ch + length rest - ch)%nat with (S (length rest)) by lia.
    rewrite (skipn_all2 (firstn ch (columns acc))) by (rewrite Hf1; lia).
    change (firstn 1 (y :: skipn (S ch) (columns acc))) with [y].
    change (skipn (S (length rest)) (y :: skipn (S ch) (columns acc)))
      with (skipn (length rest) (skipn (S ch) (columns acc))).
    rewrite skipn_skipn.
    replace (length rest + S ch)%nat with (ch + S (length rest))%nat by lia.
    rewrite <- !app_assoc. reflexivity.
Qed.

Section StretchProperties.

Context `{SP : Scipy}.

(** Resampling [x] by [up / len x] gives [up] samples, and [x] itself
    when [up] is its length already. *)
Lemma resample_poly_to_length (x : list Q) (up : Z) :
  1 <= up -> 1 <= len x ->
  exists y,
    resample_poly x up (len x) = Ok y
    /\ len y = up
    /\ (up = len x -> y = x).
Proof.
  intros Hup Hx. unfold resample_poly.
  destruct (up <? 1) eqn:E1; [lia|]. destruct (len x <? 1) eqn:E2; [lia|].
  cbn [orb].
  set (g := Z.gcd up (len x)).
  assert (Hg : 0 < g).
  { subst g. pose proof (Z.gcd_nonneg up (len x)).
    assert (Z.gcd up (len x) <> 0) by (intros H0; apply Z.gcd_eq_0_l in H0; lia).
    lia. }
  destruct (Z.gcd_divide_l up (len x)) as [u Hu].
  destruct (Z.gcd_divide_r up (len x)) as [d Hd].
  fold g in Hu, Hd.
  assert (Eu : up / g = u) by (rewrite Hu; apply Z.div_mul; lia).
  assert (Ed : len x / g = d) by (rewrite Hd at 1; apply Z.div_mul; lia).
  rewrite Eu, Ed.
  assert (Hdpos : 0 < d) by nia.
  destruct ((u =? 1) && (d =? 1)) eqn:E3.
  - apply andb_prop in E3 as [Hu1 Hd1].
    apply Z.eqb_eq in Hu1, Hd1. subst u d.
    exists x. split; [reflexivity|]. split; [lia|]. reflexivity.
  - assert (Hn : len x * u = up * d) by (rewrite Hd, Hu; ring).
    rewrite Hn, Z.div_mul, Z.mod_mul by lia. rewrite Z.eqb_refl.
    eexists. split; [reflexivity|]. split.
    + unfold len. rewrite length_map, length_seq. lia.
    + intros Heq. exfalso.
      assert (Hud : u = d) by nia.
      assert (Hgd : Z.gcd up (len x) = len x)
        by (rewrite Heq; apply Z.gcd_diag_nonneg; lia).
      fold g in Hgd. assert (Hd1 : d = 1) by nia.
      rewrite Hud, Hd1 in E3. discriminate.
Qed.

Lemma Forall2_same_result (f : list Q -> result (list Q)) (n : nat)
  (cols ys : list (list Q)) :
  Forall2 (fun col y => f col = Ok y /\ length y = n) cols ys ->
  Forall (fun col => f col = Ok col) cols ->
  ys = cols.
Proof.
  induction 1 as [|col y cols ys [Hy _] _ IH]; intros Hc; [reflexivity|].
  inversion Hc as [|? ? Hcol Hrest]; subst.
  rewrite Hcol in Hy. injection Hy as <-. f_equal. apply IH, Hrest.
Qed.


(** The duration of a buffer with rows, at a positive sample rate, is
    positive in binary64 as well. *)
Lemma current_duration_pos (rows rate : Z) :
  0 < rows -> 0 < rate -> (0 < b64 (inject_Z rows / inject_Z rate))%Q.
Proof.
  intros Hr Hs. apply b64_pos.
  apply Qlt_shift_div_l; [apply inject_Z_pos, Hs|].
  rewrite Qmult_0_l. apply inject_Z_pos, Hr.
Qed.

(** The time-stretch returns a buffer of [int(rows * ratio)] rows as long
    as that is at least one row, and the buffer it was given when that is
    the number of rows it has. *)
Lemma time_stretch_ok (self : UniversalConverter) (pcm : ndarray) (target : Q) :
  well_shaped pcm -> (0 < shape0 pcm)%nat -> 0 < uc_sample_rate self ->
  let rows := inject_Z (Z.of_nat (shape0 pcm)) in
  let current_duration := b64 (rows / inject_Z (uc_sample_rate self)) in
  let new_num_samples := int (b64 (rows * b64 (target / current_duration))) in
  1 <= new_num_samples ->
  exists out,
    time_stretch self pcm target = Ok out
    /\ Z.of_nat (shape0 out) = new_num_samples
    /\ shape1 out = shape1 pcm
    /\ well_shaped out
    /\ (new_num_samples = Z.of_nat (shape0 pcm) -> out = pcm).
Proof.
  intros Hw Hrows Hsr rows current_duration new_num_samples Hnew.
  assert (Hspos : (0 < inject_Z (uc_sample_rate self))%Q)
    by (apply inject_Z_pos; lia).
  assert (Hcur : (0 < current_duration)%Q)
    by (apply current_duration_pos; lia).
  unfold time_stretch, truediv64. fold rows.
  destruct (Qeq_bool (inject_Z (uc_sample_rate self)) 0) eqn:Es.
  { apply Qeq_bool_iff in Es. rewrite Es in Hspos. discriminate. }
  cbn [bind]. fold current_duration.
  destruct (Qle_bool current_duration 0) eqn:Ec.
  { apply Qle_bool_iff in Ec. exfalso. apply (Qlt_not_le _ _ Hcur Ec). }
  destruct (Qeq_bool current_duration 0) eqn:Ez.
  { apply Qeq_bool_iff in Ez. rewrite Ez in Hcur. discriminate. }
  cbn [bind]. fold new_num_samples.
  destruct (np_zeros_ok new_num_samples (Z.of_nat (shape1 pcm)))
    as [stretched [-> [S0 [S1 Sw]]]]; [lia | lia |].
  cbn [bind].
  assert (Hcols : Forall (fun col => len col = Z.of_nat (shape0 pcm)) (columns pcm)).
  { eapply Forall_impl; [|exact Hw]. simpl. unfold len. intros c Hc. lia. }
  destruct (per_channel_ok
              (fun col => resample_poly col new_num_samples (Z.of_nat (shape0 pcm)))
              (columns pcm) 0 stretched) as [ys [Hys Hrun]].
  { unfold shape1 in S1. rewrite S1. unfold shape1. lia. }
  { eapply Forall_impl; [|exact Hcols]. simpl. intros col Hc.
    destruct (resample_poly_to_length col new_num_samples) as [y [Hy [Ly _]]];
      [lia | lia |].
    rewrite Hc in Hy. exists y. split; [exact Hy|]. unfold len in Ly. lia. }
  rewrite Hrun. eexists. split; [reflexivity|]. cbn [shape0 columns].
  assert (Hskip : skipn (0 + length (columns pcm)) (columns stretched) = []).
  { apply skipn_all2. unfold shape1 in S1. rewrite S1. unfold shape1. lia. }
  rewrite Hskip, app_nil_r. cbn [firstn app].
  split; [rewrite S0; lia|].
  split; [unfold shape1; cbn [columns];
          symmetry; exact (Forall2_length Hys)|].
  split.
  { unfold well_shaped. cbn [shape0 columns].
    clear - Hys. induction Hys as [|? ? ? ? [_ Hl] _ IH]; constructor; auto. }
  intros Hsame.
  assert (Hid : ys = columns pcm).
  { apply (Forall2_same_result _ _ _ _ Hys).
    eapply Forall_impl; [|exact Hcols]. simpl. intros col Hc.
    destruct (resample_poly_to_length col new_num_samples) as [y [Hy [_ Hx]]];
      [lia | lia |].
    rewrite Hc in Hy. rewrite Hy. f_equal. apply Hx. lia. }
  rewrite Hid. destruct pcm as [n cols]. cbn [shape0 columns] in *.
  f_equal. rewrite S0. lia.
Qed.

(** C8 (amended). With no target length the buffer passes through
    unchanged; with one, the time-stretch runs and resamples each channel
    to [int(rows * (target / (rows / sample_rate)))] samples, the two
    quotients and the product as binary64 computes them and the product
    truncated, not rounded; a target equal to the current duration leaves
    the buffer unchanged, so that the buffer changes only for a target
    that differs from the current duration. *)
Theorem time_stretch_length (self : UniversalConverter) (pcm : ndarray) :
  well_shaped pcm -> (0 < shape0 pcm)%nat -> 0 < uc_sample_rate self ->
  Z.of_nat (shape0 pcm) < 2 ^ 53 ->
  let rows := inject_Z (Z.of_nat (shape0 pcm)) in
  let current_duration := b64 (rows / inject_Z (uc_sample_rate self)) in
  (uc_target_length_sec self = None -> stretch_to_target self pcm = Ok pcm)
  /\ (forall t : Z,
        uc_target_length_sec self = Some t ->
        stretch_to_target self pcm = time_stretch self pcm (inject_Z t))
  /\ (forall target : Q,
        1 <= Qfloor (b64 (rows * b64 (target / current_duration))) ->
        exists out,
          time_stretch self pcm target = Ok out
          /\ Z.of_nat (shape0 out)
             = Qfloor (b64 (rows * b64 (target / current_duration)))
          /\ shape1 out = shape1 pcm
          /\ well_shaped out
          /\ (target == current_duration -> out = pcm)%Q).
Proof.
  intros Hw Hrows Hsr Hbig rows current_duration.
  split; [unfold stretch_to_target; intros ->; reflexivity|].
  split; [unfold stretch_to_target; intros t ->; reflexivity|].
  intros target Hnew.
  assert (Hcur : (0 < current_duration)%Q)
    by (apply current_duration_pos; lia).
  assert (Enew : int (b64 (rows * b64 (target / current_duration)))
                 = Qfloor (b64 (rows * b64 (target / current_duration)))).
  { apply int_nonneg. apply Qnot_lt_le. intros Hneg.
    assert (Hfl : Qfloor (b64 (rows * b64 (target / current_duration)))
                  <= Qfloor 0)
      by (apply Qfloor_resp_le, Qlt_le_weak, Hneg).
    change (Qfloor 0) with 0 in Hfl. lia. }
  destruct (time_stretch_ok self pcm target Hw Hrows Hsr)
    as [out [Hout [O0 [O1 [Ow Oid]]]]].
  { fold rows current_duration. rewrite Enew. exact Hnew. }
  fold rows current_duration in O0, Oid. rewrite Enew in O0, Oid.
  exists out. split; [exact Hout|]. split; [exact O0|].
  split; [exact O1|]. split; [exact Ow|].
  intros Heq. apply Oid.
  assert (Hratio : b64 (target / current_duration) = 1%Q).
  { rewrite (b64_comp (target / current_duration) 1); [reflexivity|].
    rewrite Heq. field. intros H0. rewrite H0 in Hcur. discriminate. }
  rewrite Hratio.
  rewrite (b64_comp (rows * 1) rows) by ring.
  assert (Hexact := b64_inject_Z (Z.of_nat (shape0 pcm)) ltac:(lia)).
  unfold rows. rewrite (Qfloor_comp _ _ Hexact). apply Qfloor_Z.
Qed.

End StretchProperties.

Lemma time_stretch_length_witness :
  let rows := inject_Z 10 in
  let current_duration := b64 (rows / inject_Z 10) in
  (uc_target_length_sec example_converter = None ->
   stretch_to_target (SP := example_scipy) example_converter example_audio
   = Ok example_audio)
  /\ (forall t : Z,
        uc_target_length_sec example_converter = Some t ->
        stretch_to_target (SP := example_scipy) example_converter example_audio
        = time_stretch (SP := example_scipy) example_converter example_audio
            (inject_Z t))
  /\ (forall target : Q,
        1 <= Qfloor (b64 (rows * b64 (target / current_duration))) ->
        exists out,
          time_stretch (SP := example_scipy) example_converter example_audio
            target = Ok out
          /\ Z.of_nat (shape0 out)
             = Qfloor (b64 (rows * b64 (target / current_duration)))
          /\ shape1 out = 2%nat
          /\ well_shaped out
          /\ (target == current_duration -> out = example_audio)%Q).
Proof.
  apply (@time_stretch_length example_scipy example_converter example_audio).
  - unfold well_shaped, example_audio. simpl. repeat constructor.
  - simpl. lia.
  - simpl. lia.
  - simpl. lia.
Defined.

(** C8, as stated, fails: a buffer of 1.3 seconds at 44.1 kHz, 57330
    rows, stretched to the target length of one second should become
    [round(57330 * 1 / 1.3) = 44100] rows and becomes 44099. *)
Lemma time_stretch_not_rounded :
  exists out,
    stretch_to_target (SP := example_scipy)
      (UniversalConverter_init [] 44100 2 1 (Some 1) 0 120)
      (silent_buffer 57330 2) = Ok out
    /\ Z.of_nat (shape0 out) = 44099
    /\ py_round (inject_Z 57330
                 * (inject_Z 1 / (inject_Z 57330 / inject_Z 44100))) = 44100.
Proof.
  destruct (time_stretch_ok (SP := example_scipy)
              (UniversalConverter_init [] 44100 2 1 (Some 1) 0 120)
              (silent_buffer 57330 2) (inject_Z 1))
    as [out [Hout [O0 _]]].
  - unfold silent_buffer, well_shaped. cbn [shape0 columns repeat].
    repeat constructor; apply repeat_length.
  - cbn [silent_buffer shape0]. lia.
  - cbn. lia.
  - vm_compute. discriminate.
  - exists out. split; [exact Hout|]. split; [|vm_compute; reflexivity].
    rewrite O0. vm_compute. reflexivity.
Qed.

(** ** The reverb *)

Lemma setitem_ok (l : list Q) (i : Z) (v : Q) :
  0 <= i < len l ->
  exists l', setitem l i v = Ok l' /\ len l' = len l.
Proof.
  intros Hi. unfold setitem.
  destruct (i <? - len l) eqn:E1; [lia|].
  destruct (len l <=? i) eqn:E2; [lia|]. cbn [orb].
  destruct (i <? 0) eqn:E3; [lia|].
  eexists. split; [reflexivity|]. unfold len in *.
  rewrite length_app, length_firstn. cbn [length].
  rewrite length_skipn. lia.
Qed.

Lemma max2_nonneg (a b : Q) : (0 <= a)%Q -> (0 <= max2 a b)%Q.
Proof. intros H. eapply Qle_trans; [exact H|apply max2_ge_l]. Qed.

Lemma max_list_nonneg (l : list Q) :
  l <> [] -> Forall (Qle 0) l ->
  exists m, max_list l = Ok m /\ (0 <= m)%Q.
Proof.
  intros Hne Hl. destruct l as [|x l]; [contradiction|].
  inversion Hl as [|? ? Hx _]; subst. simpl. eexists. split; [reflexivity|].
  clear Hl Hne. revert x Hx. induction l as [|y l IH]; intros x Hx; [exact Hx|].
  simpl. apply IH. apply max2_nonneg. exact Hx.
Qed.

Lemma normalize_by_peak_ok (a : list Q) :
  a <> [] ->
  exists a', normalize_by_peak a = Ok a' /\ length a' = length a.
Proof.
  intros Hne. unfold normalize_by_peak, max_abs.
  destruct a as [|x a]; [contradiction|]. cbn [map max_list bind].
  destruct (Qeq_bool _ 0); eexists; (split; [reflexivity|]);
    simpl; rewrite ?length_map; reflexivity.
Qed.

Lemma write_reflections_ok (sample_rate : Z) (early_decay : Q)
  (early_ir_length : Z) (delays : list Q) :
  0 <= sample_rate -> Forall (Qle 0) delays ->
  forall early_ir,
    len early_ir = early_ir_length ->
    exists early_ir',
      write_reflections sample_rate early_decay early_ir_length delays early_ir
      = Ok early_ir'
      /\ len early_ir' = early_ir_length.
Proof.
  intros Hsr Hd. induction Hd as [|d delays Hd0 _ IH]; intros early_ir Hlen.
  - exists early_ir. split; [reflexivity | exact Hlen].
  - simpl.
    assert (Hpos : 0 <= int (d * inject_Z sample_rate / 1000)).
    { apply int_nonneg_le, scaled_time_nonneg;
        [exact Hd0 | exact Hsr | reflexivity]. }
    destruct (int (d * inject_Z sample_rate / 1000) <? early_ir_length) eqn:E.
    + apply Z.ltb_lt in E.
      destruct (setitem_ok early_ir (int (d * inject_Z sample_rate / 1000))
                  early_decay) as [ir' [-> Hl']]; [lia|].
      cbn [bind]. apply IH. lia.
    + apply IH. exact Hlen.
Qed.

Lemma add_lists_length (x y : list Q) :
  length (add_lists x y) = Nat.max (length x) (length y).
Proof.
  revert y. induction x as [|a x IH]; intros [|b y]; simpl; auto.
Qed.

Lemma convolve_full_length (a v : list Q) :
  a <> [] -> v <> [] ->
  length (convolve_full a v) = (length a + length v - 1)%nat.
Proof.
  intros Ha Hv. induction a as [|x a IH]; [contradiction|].
  destruct v as [|y v]; [contradiction|].
  cbn [convolve_full]. rewrite add_lists_length, length_map. cbn [length].
  destruct a as [|x' a].
  - simpl. lia.
  - rewrite IH by discriminate. cbn [length]. lia.
Qed.

Lemma nth_add_lists (x y : list Q) (k : nat) :
  (nth k (add_lists x y) 0 == nth k x 0 + nth k y 0)%Q.
Proof.
  revert y k. induction x as [|a x IH]; intros y k.
  - simpl. destruct k; ring.
  - destruct y as [|b y]; [simpl; destruct k; ring|].
    destruct k as [|k]; simpl; [reflexivity | apply IH].
Qed.

Lemma nth_map_scale (c : Q) (v : list Q) (k : nat) :
  (nth k (map (Qmult c) v) 0 == c * nth k v 0)%Q.
Proof.
  revert k. induction v as [|y v IH]; intros k.
  - simpl. destruct k; ring.
  - destruct k as [|k]; simpl; [reflexivity | apply IH].
Qed.

Lemma sum_list_ext (f h : nat -> Q) (l : list nat) :
  (forall i, f i == h i)%Q -> (sum_list (map f l) == sum_list (map h l))%Q.
Proof.
  intros Hfh. induction l as [|i l IH]; simpl; [reflexivity|].
  rewrite IH, Hfh. reflexivity.
Qed.

Lemma sum_list_zero (f : nat -> Q) (l : list nat) :
  (forall i, f i == 0)%Q -> (sum_list (map f l) == 0)%Q.
Proof.
  intros Hf. induction l as [|i l IH]; simpl; [reflexivity|].
  rewrite IH, Hf. ring.
Qed.

(** [convolve_full] computes the convolution sum at every index. *)
Lemma convolve_full_nth (a v : list Q) (k : nat) :
  (nth k (convolve_full a v) 0 == convolution_sum a v k)%Q.
Proof.
  revert k. induction a as [|x a IH]; intros k.
  - unfold convolution_sum. rewrite sum_list_zero.
    + simpl. destruct k; reflexivity.
    + intros i. destruct i; simpl; ring.
  - destruct v as [|y v].
    + unfold convolution_sum. rewrite sum_list_zero.
      * simpl. destruct k; reflexivity.
      * intros i. destruct (k - i)%nat; simpl; ring.
    + cbn [convolve_full]. rewrite nth_add_lists, nth_map_scale.
      unfold convolution_sum. rewrite <- cons_seq, <- seq_shift.
      cbn [map]. rewrite map_map.
      cbn [sum_list fold_right nth]. rewrite Nat.sub_0_r.
      apply Qplus_comp; [reflexivity|].
      destruct k as [|k]; [reflexivity|].
      cbn [nth]. rewrite IH. unfold convolution_sum.
      apply sum_list_ext. intros i. reflexivity.
Qed.

(** The wet channel has as many samples as the dry one. *)
Lemma wet_channel_length (ir col : list Q) :
  ir <> [] ->
  length (slice_to (fftconvolve_full col ir) (Z.of_nat (length col)))
  = length col.
Proof.
  intros Hir. unfold slice_to, fftconvolve_full, norm_index.
  destruct (Z.of_nat (length col) <? 0) eqn:E; [lia|].
  rewrite length_firstn.
  destruct col as [|x col]; [reflexivity|].
  unfold len. rewrite convolve_full_length by (discriminate || assumption).
  destruct ir as [|y ir]; [contradiction|]. cbn [length]. lia.
Qed.

(** Samplewise combination of two columns, two arrays. *)
Lemma zip_column_l (f : Q -> Q -> Q) (c1 c2 : list Q) :
  (forall d w, f d w == d)%Q -> length c1 = length c2 ->
  Forall2 Qeq (map (fun s => f (fst s) (snd s)) (combine c1 c2)) c1.
Proof.
  intros Hf. revert c2. induction c1 as [|d c1 IH]; intros [|w c2] Hlen;
    try discriminate; simpl; constructor; [apply Hf|].
  apply IH. simpl in Hlen. congruence.
Qed.

Lemma zip_column_r (f : Q -> Q -> Q) (c1 c2 : list Q) :
  (forall d w, f d w == w)%Q -> length c1 = length c2 ->
  Forall2 Qeq (map (fun s => f (fst s) (snd s)) (combine c1 c2)) c2.
Proof.
  intros Hf. revert c2. induction c1 as [|d c1 IH]; intros [|w c2] Hlen;
    try discriminate; simpl; constructor; [apply Hf|].
  apply IH. simpl in Hlen. congruence.
Qed.

Lemma zip_samples_l (f : Q -> Q -> Q) (a b : ndarray) :
  (forall d w, f d w == d)%Q ->
  Forall2 (fun c1 c2 => length c1 = length c2) (columns a) (columns b) ->
  samples_equiv (zip_samples f a b) a.
Proof.
  intros Hf H. split; [reflexivity|]. unfold zip_samples. cbn [columns].
  induction H as [|c1 c2 A B Hc _ IH]; simpl; constructor; [|exact IH].
  apply zip_column_l; assumption.
Qed.

Lemma zip_samples_r (f : Q -> Q -> Q) (a b : ndarray) :
  (forall d w, f d w == w)%Q -> shape0 a = shape0 b ->
  Forall2 (fun c1 c2 => length c1 = length c2) (columns a) (columns b) ->
  samples_equiv (zip_samples f a b) b.
Proof.
  intros Hf H0 H. split; [exact H0|]. unfold zip_samples. cbn [columns].
  induction H as [|c1 c2 A B Hc _ IH]; simpl; constructor; [|exact IH].
  apply zip_column_r; assumption.
Qed.

Lemma zip_samples_sample (f : Q -> Q -> Q) (a b : ndarray) (ch i : nat) :
  Forall2 (fun c1 c2 => length c1 = length c2) (columns a) (columns b) ->
  (ch < length (columns a))%nat ->
  (i < length (nth ch (columns a) []))%nat ->
  sample (zip_samples f a b) ch i = f (sample a ch i) (sample b ch i).
Proof.
  unfold sample, zip_samples. cbn [columns]. intros H. revert ch.
  induction H as [|c1 c2 A B Hc _ IH]; intros ch Hch Hi; [simpl in Hch; lia|].
  destruct ch as [|ch]; [|apply IH; simpl in Hch, Hi; [lia | exact Hi]].
  simpl in Hi |- *. clear IH Hch. revert c2 i Hc Hi.
  induction c1 as [|d c1 IH]; intros [|w c2] i Hc Hi; simpl in *;
    try discriminate; try lia.
  destruct i as [|i]; [reflexivity|]. apply IH; [congruence | lia].
Qed.

Section ReverbProperties.

Context `{L : Libm}.

Lemma early_reflections_ok (sample_rate : Z) (early_delay_ms : list Q)
  (early_decay : Q) :
  0 <= sample_rate -> early_delay_ms <> [] -> Forall (Qle 0) early_delay_ms ->
  exists early_ir,
    early_reflections sample_rate early_delay_ms early_decay = Ok early_ir
    /\ early_ir <> [].
Proof.
  intros Hsr Hne Hd. unfold early_reflections.
  destruct (max_list_nonneg _ Hne Hd) as [longest [-> Hl]]. cbn [bind].
  assert (Hpos : 0 <= int (longest * inject_Z sample_rate / 1000)).
  { apply int_nonneg_le, scaled_time_nonneg;
      [exact Hl | exact Hsr | reflexivity]. }
  destruct (full_ok (int (longest * inject_Z sample_rate / 1000) + 1) 0)
    as [ir0 [-> L0]]; [lia|]. cbn [bind].
  destruct (setitem_ok ir0 0 1) as [ir1 [-> L1]]; [lia|]. cbn [bind].
  destruct (write_reflections_ok sample_rate early_decay
              (int (longest * inject_Z sample_rate / 1000) + 1)
              early_delay_ms Hsr Hd ir1) as [ir2 [-> L2]]; [lia|].
  cbn [bind].
  assert (Hne2 : ir2 <> []) by (intros ->; unfold len in L2; simpl in L2; lia).
  destruct (normalize_by_peak_ok ir2 Hne2) as [ir3 [-> L3]].
  exists ir3. split; [reflexivity|]. intros ->. destruct ir2; [auto|discriminate].
Qed.

Lemma late_tail_ok (sample_rate : Z) (tail_decay tail_length_sec : Q)
  (g : RandomState) :
  1 <= int (tail_length_sec * inject_Z sample_rate) ->
  exists tail_ir g',
    late_tail sample_rate tail_decay tail_length_sec g = Ok (tail_ir, g')
    /\ tail_ir <> [].
Proof.
  intros Hn. unfold late_tail.
  destruct (linspace_ok 0 tail_length_sec
              (int (tail_length_sec * inject_Z sample_rate)) false)
    as [t [-> Lt]]; [lia|]. cbn [bind]. unfold random_randn.
  set (tail := np_multiply _ _).
  assert (Hlen : length tail = Z.to_nat (int (tail_length_sec * inject_Z sample_rate))).
  { subst tail. rewrite !np_multiply_length, !length_map, !length_seq.
    unfold len in Lt. lia. }
  assert (Hne : tail <> []) by (intros E; rewrite E in Hlen; simpl in Hlen; lia).
  destruct (normalize_by_peak_ok tail Hne) as [tail' [-> L']]. cbn [bind].
  eexists. eexists. split; [reflexivity|].
  intros ->. destruct tail; [auto|discriminate].
Qed.

(** The impulse response exists and is not empty. *)
Lemma impulse_response_ok (sample_rate : Z) (early_delay_ms : list Q)
  (early_decay tail_decay tail_length_sec : Q) (g : RandomState) :
  0 <= sample_rate -> early_delay_ms <> [] -> Forall (Qle 0) early_delay_ms ->
  1 <= int (tail_length_sec * inject_Z sample_rate) ->
  exists ir g',
    impulse_response sample_rate early_delay_ms early_decay tail_decay
      tail_length_sec g = Ok (ir, g')
    /\ ir <> [].
Proof.
  intros Hsr Hne Hd Hn. unfold impulse_response.
  destruct (early_reflections_ok sample_rate early_delay_ms early_decay
              Hsr Hne Hd) as [early [-> He]]. cbn [bind].
  destruct (late_tail_ok sample_rate tail_decay tail_length_sec g Hn)
    as [tail [g' [-> Ht]]]. cbn [bind fst snd].
  unfold Np.pad_right.
  destruct (Z.max (len early) (len tail) - len early <? 0) eqn:E1;
    [apply Z.ltb_lt in E1; lia|].
  destruct (Z.max (len early) (len tail) - len tail <? 0) eqn:E2;
    [apply Z.ltb_lt in E2; lia|].
  cbn [bind]. eexists. eexists. split; [reflexivity|].
  intros H. apply (f_equal (@length Q)) in H.
  rewrite add_lists_length, !length_app in H.
  destruct early as [|e0 early]; [contradiction|]. cbn [length] in H. lia.
Qed.

End ReverbProperties.

Section ReverbMix.

Context `{L : Libm}.

(** The reverb returns, and what it returns is the mix of the input with
    the truncated convolutions of its channels. *)
Lemma apply_advanced_reverb_ok (pcm : ndarray) (sample_rate : Z)
  (early_delay_ms : list Q)
  (early_decay tail_decay tail_length_sec wet_mix : Q) (g : RandomState) :
  well_shaped pcm -> 0 <= sample_rate ->
  early_delay_ms <> [] -> Forall (Qle 0) early_delay_ms ->
  1 <= int (tail_length_sec * inject_Z sample_rate) ->
  exists ir g' wet_cols,
    impulse_response sample_rate early_delay_ms early_decay tail_decay
      tail_length_sec g = Ok (ir, g')
    /\ wet_cols = map (fun col => firstn (shape0 pcm) (convolve_full col ir))
                      (columns pcm)
    /\ Forall2 (fun c1 c2 : list Q => length c1 = length c2)
         (columns pcm) wet_cols
    /\ apply_advanced_reverb pcm sample_rate early_delay_ms early_decay
         tail_decay tail_length_sec wet_mix g
       = Ok (wet_dry_mix wet_mix pcm
               {| shape0 := shape0 pcm; columns := wet_cols |}, g').
Proof.
  intros Hw Hsr Hne Hd Hn.
  destruct (impulse_response_ok sample_rate early_delay_ms early_decay
              tail_decay tail_length_sec g Hsr Hne Hd Hn) as [ir [g' [Hir Hirne]]].
  unfold apply_advanced_reverb. rewrite Hir. cbn [bind fst snd].
  destruct (per_channel_ok (wet_channel ir (shape0 pcm)) (columns pcm) 0
              (map_samples (fun _ => 0%Q) pcm)) as [ys [Hys Hrun]].
  { cbn [map_samples columns]. rewrite length_map. lia. }
  { eapply Forall_impl; [|exact Hw]. cbn [map_samples shape0].
    intros col Hc. eexists. split; [reflexivity|].
    rewrite <- Hc. apply wet_channel_length. exact Hirne. }
  rewrite Hrun. cbn [bind map_samples shape0 columns firstn app].
  rewrite Nat.add_0_l, skipn_all2 by (rewrite !length_map; lia).
  rewrite app_nil_r.
  exists ir, g', ys. split; [reflexivity|]. split; [|split; [|reflexivity]].
  - clear - Hys. induction Hys as [|col y cols ys' [Hy _] _ IH]; [reflexivity|].
    simpl. f_equal; [|exact IH].
    unfold wet_channel in Hy. injection Hy as <-. apply slice_to_firstn.
  - clear - Hys Hw. unfold well_shaped in Hw.
    induction Hys as [|col y cols ys' [_ Hy] _ IH]; [constructor|].
    inversion Hw; subst.
    constructor; [cbn [map_samples shape0] in Hy; congruence|].
    apply IH. assumption.
Qed.

(** C5. The reverb returns [(1 - wet_mix) * dry + wet_mix * wet], sample
    by sample, where each channel of [wet] is the full linear convolution
    of the dry channel with the combined impulse response, cut to the
    length of the input; with [wet_mix = 0] the output equals the input,
    with [wet_mix = 1] it equals the wet signal. *)
Theorem reverb_wet_dry_mix (pcm : ndarray) (sample_rate : Z)
  (early_delay_ms : list Q)
  (early_decay tail_decay tail_length_sec wet_mix : Q) (g : RandomState) :
  well_shaped pcm -> 0 <= sample_rate ->
  early_delay_ms <> [] -> Forall (Qle 0) early_delay_ms ->
  1 <= int (tail_length_sec * inject_Z sample_rate) ->
  exists ir g' out,
    impulse_response sample_rate early_delay_ms early_decay tail_decay
      tail_length_sec g = Ok (ir, g')
    /\ apply_advanced_reverb pcm sample_rate early_delay_ms early_decay
         tail_decay tail_length_sec wet_mix g = Ok (out, g')
    /\ let wet :=
         {| shape0 := shape0 pcm;
            columns := map (fun col => firstn (shape0 pcm) (convolve_full col ir))
                           (columns pcm) |} in
       shape0 out = shape0 pcm
       /\ shape1 out = shape1 pcm
       /\ (forall ch i : nat,
             (ch < shape1 pcm)%nat -> (i < shape0 pcm)%nat ->
             sample out ch i
             == (1 - wet_mix) * sample pcm ch i + wet_mix * sample wet ch i)
       /\ (wet_mix == 0 -> samples_equiv out pcm)
       /\ (wet_mix == 1 -> samples_equiv out wet).
Proof.
  intros Hw Hsr Hne Hd Hn.
  destruct (apply_advanced_reverb_ok pcm sample_rate early_delay_ms early_decay
              tail_decay tail_length_sec wet_mix g Hw Hsr Hne Hd Hn)
    as [ir [g' [ys [Hir [Hwet [HF2 Hrun]]]]]].
  exists ir, g'. eexists. split; [exact Hir|]. split; [exact Hrun|].
  rewrite <- Hwet. cbv zeta.
  split; [reflexivity|]. split.
  { unfold shape1, wet_dry_mix, zip_samples. cbn [columns].
    rewrite length_map, length_combine, <- (Forall2_length HF2). lia. }
  split.
  { intros ch i Hch Hi. unfold wet_dry_mix.
    rewrite zip_samples_sample; [reflexivity | exact HF2 | exact Hch |].
    cbn [columns]. unfold well_shaped in Hw. rewrite Forall_forall in Hw.
    rewrite (Hw (nth ch (columns pcm) [])); [exact Hi|].
    apply nth_In. exact Hch. }
  split.
  { intros H0. unfold wet_dry_mix. apply zip_samples_l; [|exact HF2].
    intros d w. rewrite H0. ring. }
  { intros H1. unfold wet_dry_mix.
    apply (zip_samples_r _ pcm {| shape0 := shape0 pcm; columns := ys |});
      [|reflexivity|exact HF2].
    intros d w. rewrite H1. ring. }
Qed.

End ReverbMix.

Lemma reverb_wet_dry_mix_witness :
  exists ir g' out,
    impulse_response (L := example_libm) 100 [20; 40; 60]%Q (6 # 10)
      (995 # 1000) (3 # 2) example_generator = Ok (ir, g')
    /\ apply_advanced_reverb (L := example_libm) example_audio 100
         [20; 40; 60]%Q (6 # 10) (995 # 1000) (3 # 2) 0
         example_generator = Ok (out, g')
    /\ let wet :=
         {| shape0 := 10;
            columns := map (fun col => firstn 10 (convolve_full col ir))
                           (columns example_audio) |} in
       shape0 out = 10%nat
       /\ shape1 out = 2%nat
       /\ (forall ch i : nat,
             (ch < 2)%nat -> (i < 10)%nat ->
             sample out ch i
             == (1 - 0) * sample example_audio ch i + 0 * sample wet ch i)
       /\ (0 == 0 -> samples_equiv out example_audio)
       /\ (0 == 1 -> samples_equiv out wet).
Proof.
  apply (@reverb_wet_dry_mix example_libm example_audio 100 [20; 40; 60]%Q
           (6 # 10) (995 # 1000) (3 # 2) 0 example_generator).
  - unfold well_shaped, example_audio. simpl. repeat constructor.
  - lia.
  - discriminate.
  - repeat constructor; discriminate.
  - vm_compute. discriminate.
Defined.

(** ** The equaliser *)

Lemma Qinv_nonzero (x : Q) : ~ (x == 0)%Q -> ~ (1 / x == 0)%Q.
Proof.
  intros Hx H. apply Hx.
  assert (E : (x * (1 / x) == 1)%Q) by (field; exact Hx).
  rewrite H, Qmult_0_r in E. discriminate.
Qed.

Section EqualiserProperties.

Context `{L : Libm}.

(** The numerator of the resonator [iirpeak] designs is [(1 - gain) *
    [1, 0, -1]] for a gain that is not zero, and its denominator starts
    with 1: it is never the identity filter. *)
Lemma iirpeak_coefficients (w0 q : Q) (b a : Q * Q * Q) :
  iirpeak w0 q = Ok (b, a) ->
  exists gain a1 a2,
    ~ (gain == 0)%Q
    /\ b = ((1 - gain) * 1, (1 - gain) * 0, (1 - gain) * -1)%Q
    /\ a = (1%Q, a1, a2).
Proof.
  unfold iirpeak. intros H.
  destruct (Qlt_le_dec 1 w0); [discriminate|].
  destruct (Qlt_le_dec w0 0); [discriminate|].
  destruct (truediv w0 q) as [bw|]; [|discriminate]. cbn [bind] in H.
  unfold np_divide in H.
  destruct (Qeq_bool (np_sqrt 2) 0); [discriminate|]. cbn [bind] in H.
  destruct (Qeq_bool (np_sqrt (1 - py_pow (1 / np_sqrt 2) 2)) 0);
    [discriminate|]. cbn [bind] in H.
  match type of H with
  | context [Qeq_bool ?d 0] => destruct (Qeq_bool d 0) eqn:E; [discriminate|]
  end.
  cbn [bind] in H. injection H as <- <-.
  eexists. eexists. eexists. split; [|split; reflexivity].
  apply Qinv_nonzero. apply Qeq_bool_neq. exact E.
Qed.

(** C3. The equaliser with a single band of 0 dB is not the identity: a
    unit impulse does not come back numerically unchanged, whatever the
    elementary functions return.  The first output sample of the
    resonator is [1 - gain] times the input's, with [gain] not zero. *)
Theorem eq_flat_band_not_identity :
  ~ exists out,
      apply_advanced_eq unit_impulse 44100 (Some [flat_band]) = Ok out
      /\ samples_equiv out unit_impulse.
Proof.
  intros [out [Hout Heq]].
  unfold apply_advanced_eq, apply_bands, apply_band in Hout.
  change (truediv (inject_Z 44100) 2)
    with (Ok (inject_Z 44100 / 2)%Q) in Hout.
  cbn [bind] in Hout.
  change (truediv (center_freq flat_band) (inject_Z 44100 / 2))
    with (Ok (1000 / (inject_Z 44100 / 2))%Q) in Hout.
  cbn [bind] in Hout.
  destruct (iirpeak _ _) as [[b a]|] eqn:Hpk; [|discriminate].
  destruct (iirpeak_coefficients _ _ _ _ Hpk) as [gain [a1 [a2 [Hg [-> ->]]]]].
  cbn [bind] in Hout.
  change (py_pow 10 (gain_db flat_band / 20)) with 1%Q in Hout.
  unfold unit_impulse, lfilter in Hout.
  change (Qeq_bool 1 0) with false in Hout.
  cbn [per_channel bind columns set_column shape0 shape1 length Nat.leb
       Nat.eqb firstn skipn app lfilter_from] in Hout.
  injection Hout as <-.
  destruct Heq as [_ Heq]. cbn [columns] in Heq.
  inversion Heq as [|? ? ? ? Hc _]; subst.
  inversion Hc as [|? ? ? ? Hx _]; subst.
  apply Hg. unfold Qdiv in Hx. change (/ 1)%Q with 1%Q in Hx.
  ring_simplify in Hx. lra.
Qed.

End EqualiserProperties.

(** With the example instance of the elementary functions the equaliser
    returns, and the impulse comes back with a first sample other than 1. *)
Lemma eq_flat_band_example :
  exists out,
    apply_advanced_eq (L := example_libm) unit_impulse 44100
      (Some [flat_band]) = Ok out
    /\ ~ (sample out 0 0 == 1)%Q.
Proof.
  eexists. split; [vm_compute; reflexivity|].
  vm_compute. discriminate.
Qed.

(** ** The shape of the buffer through the pipeline *)

Lemma map_samples_shape (f : Q -> Q) (a : ndarray) :
  well_shaped a ->
  shape0 (map_samples f a) = shape0 a
  /\ shape1 (map_samples f a) = shape1 a
  /\ well_shaped (map_samples f a).
Proof.
  intros Hw. split; [reflexivity|]. split.
  - unfold shape1, map_samples. cbn [columns]. apply length_map.
  - unfold well_shaped, map_samples in *. cbn [columns shape0].
    apply Forall_map. eapply Forall_impl; [|exact Hw].
    simpl. intros c Hc. now rewrite length_map.
Qed.

Lemma zip_samples_shape (f : Q -> Q -> Q) (a b : ndarray) :
  well_shaped a -> well_shaped b ->
  shape0 a = shape0 b -> shape1 a = shape1 b ->
  shape0 (zip_samples f a b) = shape0 a
  /\ shape1 (zip_samples f a b) = shape1 a
  /\ well_shaped (zip_samples f a b).
Proof.
  intros Ha Hb H0 H1. split; [reflexivity|]. split.
  - unfold shape1, zip_samples in *. cbn [columns].
    rewrite length_map, length_combine. lia.
  - unfold well_shaped, zip_samples in *. cbn [columns shape0].
    apply Forall_map, Forall_forall. intros [c1 c2] Hin. simpl.
    rewrite length_map, length_combine.
    rewrite Forall_forall in Ha, Hb.
    rewrite (Ha c1 (in_combine_l _ _ _ _ Hin)).
    rewrite (Hb c2 (in_combine_r _ _ _ _ Hin)). lia.
Qed.

(** A per-channel loop over every channel of [pcm] that fills [acc]. *)
Lemma per_channel_all (f : list Q -> result (list Q)) (pcm acc : ndarray) :
  shape1 acc = shape1 pcm ->
  Forall (fun col => exists y, f col = Ok y /\ length y = shape0 acc)
    (columns pcm) ->
  exists out,
    per_channel f (columns pcm) 0 acc = Ok out
    /\ shape0 out = shape0 acc
    /\ shape1 out = shape1 pcm
    /\ well_shaped out.
Proof.
  intros H1 Hf. unfold shape1 in H1.
  destruct (per_channel_ok f (columns pcm) 0 acc) as [ys [Hys Hrun]];
    [lia | exact Hf |].
  rewrite Hrun. eexists. split; [reflexivity|].
  cbn [shape0 columns firstn app].
  rewrite Nat.add_0_l, skipn_all2, app_nil_r by lia.
  split; [reflexivity|]. split.
  - unfold shape1. cbn [columns]. symmetry. exact (Forall2_length Hys).
  - unfold well_shaped. cbn [columns shape0]. clear - Hys.
    induction Hys as [|? ? ? ? [_ Hl] _ IH]; constructor; auto.
Qed.

Lemma all_samples_nonempty (a : ndarray) :
  well_shaped a -> (0 < shape0 a)%nat -> (0 < shape1 a)%nat ->
  all_samples a <> [].
Proof.
  unfold well_shaped, shape1, all_samples. intros Hw H0 H1.
  destruct (columns a) as [|c cols]; [simpl in H1; lia|].
  inversion Hw; subst. simpl. intros E. apply app_eq_nil in E as [E _].
  subst c. simpl in *. lia.
Qed.

Lemma stride_from_length {A} (k : nat) (l : list A) :
  forall skip : nat,
    (skip <= k - 1)%nat -> (1 <= k)%nat ->
    length (stride_from skip k l) = ((length l + (k - 1 - skip)) / k)%nat.
Proof.
  induction l as [|x l IH]; intros skip Hs Hk.
  - simpl. symmetry. apply Nat.div_small. lia.
  - destruct skip as [|skip]; cbn [stride_from length].
    + rewrite IH by lia.
      replace (k - 1 - (k - 1))%nat with 0%nat by lia.
      replace (S (length l) + (k - 1 - 0))%nat
        with (length l + 0 + 1 * k)%nat by lia.
      rewrite Nat.div_add by lia. lia.
    + rewrite IH by lia. f_equal. lia.
Qed.

Lemma stride_rows_shape (a : ndarray) (k m : nat) :
  well_shaped a -> (1 <= k)%nat -> shape0 a = (m * k)%nat ->
  shape0 (stride_rows a k) = m
  /\ shape1 (stride_rows a k) = shape1 a
  /\ well_shaped (stride_rows a k).
Proof.
  intros Hw Hk Hm.
  assert (Hlen : forall {A} (l : list A),
             length l = (m * k)%nat -> length (stride l k) = m).
  { intros A l Hl. unfold stride. rewrite stride_from_length by lia.
    rewrite Hl, Nat.sub_0_r.
    replace (m * k + (k - 1))%nat with ((k - 1) + m * k)%nat by lia.
    rewrite Nat.div_add by lia. rewrite Nat.div_small by lia. lia. }
  assert (H0 : shape0 (stride_rows a k) = m).
  { unfold stride_rows. cbn [shape0]. apply Hlen.
    rewrite length_seq. exact Hm. }
  split; [exact H0|]. split.
  - unfold shape1, stride_rows. cbn [columns]. apply length_map.
  - unfold well_shaped. rewrite H0. unfold stride_rows. cbn [columns].
    apply Forall_map. eapply Forall_impl; [|exact Hw].
    simpl. intros c Hc. apply Hlen. congruence.
Qed.

Lemma np_convolve_same_length (a v : list Q) :
  v <> [] -> (length v <= length a)%nat ->
  exists y, np_convolve_same a v = Ok y /\ length y = length a.
Proof.
  intros Hv Hlen. unfold np_convolve_same.
  destruct a as [|x a]; [destruct v; [contradiction|simpl in Hlen; lia]|].
  destruct v as [|z v]; [contradiction|].
  eexists. split; [reflexivity|].
  rewrite length_firstn, length_skipn, convolve_full_length by discriminate.
  set (m := length (x :: a)) in *. set (n := length (z :: v)) in *.
  assert (Hn : (1 <= n)%nat) by (subst n; simpl; lia).
  assert (Hoff : ((Nat.min m n - 1) / 2 <= n - 1)%nat).
  { replace (Nat.min m n) with n by lia.
    apply Nat.Div0.div_le_upper_bound. lia. }
  lia.
Qed.

Section PipelineProperties.

Context `{SP : Scipy}.

Lemma resample_poly_up (x : list Q) (up : Z) :
  1 <= up ->
  exists y, resample_poly x up 1 = Ok y /\ len y = len x * up.
Proof.
  intros Hup. unfold resample_poly.
  destruct (up <? 1) eqn:E1; [apply Z.ltb_lt in E1; lia|].
  change (1 <? 1) with false. cbn [orb].
  rewrite Z.gcd_1_r, !Z.div_1_r.
  destruct ((up =? 1) && (1 =? 1)) eqn:E2.
  - apply andb_prop in E2 as [E2 _]. apply Z.eqb_eq in E2. subst up.
    exists x. split; [reflexivity|]. lia.
  - rewrite Z.mod_1_r. change (0 =? 0) with true. rewrite Z.add_0_r.
    eexists. split; [reflexivity|].
    unfold len. rewrite length_map, length_seq. lia.
Qed.

Lemma oversample_channels_ok (factor : Z) (n : nat) (cols : list (list Q)) :
  1 <= factor -> Forall (fun c => length c = n) cols ->
  exists ups,
    oversample_channels factor cols = Ok ups
    /\ length ups = length cols
    /\ Forall (fun c => length c = (n * Z.to_nat factor)%nat) ups.
Proof.
  intros Hf Hc. induction Hc as [|c cols Hc0 _ IH].
  - exists []. split; [reflexivity|]. split; [reflexivity|constructor].
  - destruct IH as [ups [Hups [Hl Hw]]]. simpl.
    destruct (resample_poly_up c factor Hf) as [y [-> Ly]]. cbn [bind].
    rewrite Hups. cbn [bind]. exists (y :: ups).
    split; [reflexivity|]. split; [simpl; congruence|].
    constructor; [|exact Hw]. unfold len in Ly. nia.
Qed.

Lemma Oversampler_process_ok (factor : Z) (pcm : ndarray) :
  1 <= factor -> well_shaped pcm -> (0 < shape1 pcm)%nat ->
  exists out,
    Oversampler_process factor pcm = Ok out
    /\ shape0 out = (shape0 pcm * Z.to_nat factor)%nat
    /\ shape1 out = shape1 pcm
    /\ well_shaped out.
Proof.
  intros Hf Hw H1. unfold Oversampler_process.
  destruct (oversample_channels_ok factor (shape0 pcm) (columns pcm) Hf Hw)
    as [ups [-> [Hl Hu]]]. cbn [bind].
  destruct ups as [|c ups]; [unfold shape1 in H1; simpl in Hl; lia|].
  eexists. split; [reflexivity|]. cbn [shape0].
  inversion Hu as [|? ? Hc0 Hrest]; subst.
  split; [exact Hc0|]. split; [exact Hl|].
  unfold well_shaped. cbn [shape0 columns]. rewrite Hc0. exact Hu.
Qed.

Lemma AntiAliasFilter_process_ok (kernel : list Q) (pcm : ndarray) :
  kernel <> [] -> (length kernel <= shape0 pcm)%nat -> well_shaped pcm ->
  exists out,
    AntiAliasFilter_process kernel pcm = Ok out
    /\ shape0 out = shape0 pcm
    /\ shape1 out = shape1 pcm
    /\ well_shaped out.
Proof.
  intros Hk Hlen Hw. unfold AntiAliasFilter_process.
  destruct (map_samples_shape (fun _ => 0%Q) pcm Hw) as [M0 [M1 _]].
  destruct (per_channel_all (fun col => np_convolve_same col kernel) pcm
              (map_samples (fun _ => 0%Q) pcm) M1) as [out [-> [O0 [O1 Ow]]]].
  { eapply Forall_impl; [|exact Hw]. simpl. intros col Hc.
    destruct (np_convolve_same_length col kernel Hk) as [y [Hy Ly]]; [lia|].
    exists y. split; [exact Hy|]. congruence. }
  exists out. split; [reflexivity|]. split; [congruence|]. auto.
Qed.

Lemma DynamicsProcessor_process_ok (threshold ratio : Q) (pcm : ndarray) :
  ~ (ratio == 0)%Q -> well_shaped pcm ->
  exists out,
    DynamicsProcessor_process threshold ratio pcm = Ok out
    /\ shape0 out = shape0 pcm
    /\ shape1 out = shape1 pcm
    /\ well_shaped out.
Proof.
  intros Hr Hw. unfold DynamicsProcessor_process.
  destruct (Qeq_bool ratio 0) eqn:E; [apply Qeq_bool_iff in E; contradiction|].
  cbn [andb]. eexists. split; [reflexivity|].
  apply map_samples_shape. exact Hw.
Qed.

Lemma normalize_scale_ok (pcm : ndarray) :
  all_samples pcm <> [] -> well_shaped pcm ->
  exists out,
    normalize_scale pcm = Ok out
    /\ shape0 out = shape0 pcm
    /\ shape1 out = shape1 pcm
    /\ well_shaped out.
Proof.
  intros Hne Hw. unfold normalize_scale, max_abs.
  destruct (all_samples pcm) as [|x l]; [contradiction|].
  cbn [map max_list bind].
  destruct (Qlt_le_dec 0 _); eexists; (split; [reflexivity|]);
    [apply map_samples_shape; exact Hw | auto].
Qed.

Lemma Normalizer_process_ok (dither_amp : Q) (pcm : ndarray) (g : RandomState) :
  all_samples pcm <> [] -> well_shaped pcm ->
  exists out g',
    Normalizer_process dither_amp pcm g = Ok (out, g')
    /\ shape0 out = shape0 pcm
    /\ shape1 out = shape1 pcm
    /\ well_shaped out.
Proof.
  intros Hne Hw. unfold Normalizer_process.
  destruct (normalize_scale_ok pcm Hne Hw) as [pcm' [-> [S0 [S1 Sw]]]].
  cbn [bind].
  destruct (tpdf_noise_shape dither_amp (shape0 pcm') (shape1 pcm') g)
    as [N0 [N1 Nw]].
  destruct (tpdf_noise dither_amp (shape0 pcm') (shape1 pcm') g)
    as [noise g'] eqn:E. cbn [fst] in N0, N1, Nw.
  exists (zip_samples Qplus pcm' noise), g'. split; [reflexivity|].
  destruct (zip_samples_shape Qplus pcm' noise) as [Z0 [Z1 Zw]];
    [exact Sw | unfold well_shaped; rewrite N0; exact Nw | congruence
     | unfold shape1 at 2; congruence |].
  split; [congruence|]. split; [congruence|]. exact Zw.
Qed.

End PipelineProperties.

Lemma lfilter_from_length (b0 b1 b2 a1 a2 : Q) (x : list Q) :
  forall x1 x2 y1 y2,
    length (lfilter_from b0 b1 b2 a1 a2 x1 x2 y1 y2 x) = length x.
Proof.
  induction x as [|xn x IH]; intros; simpl; [reflexivity|]. now rewrite IH.
Qed.

Section ChainProperties.

Context `{L : Libm} `{SP : Scipy}.

Lemma apply_band_ok (sample_rate : Z) (band : eq_band) (processed : ndarray) :
  0 < sample_rate -> design_is_finite sample_rate band ->
  well_shaped processed -> (0 < shape1 processed)%nat ->
  exists out,
    apply_band sample_rate band processed = Ok out
    /\ shape0 out = shape0 processed
    /\ shape1 out = shape1 processed
    /\ well_shaped out.
Proof.
  intros Hsr [[b a] Hpk] Hw Hch. unfold apply_band, truediv.
  change (Qeq_bool 2 0) with false. cbn [bind].
  destruct (Qeq_bool (inject_Z sample_rate / 2) 0) eqn:E.
  { apply Qeq_bool_iff in E. exfalso.
    assert (Hpos : (0 < inject_Z sample_rate / 2)%Q).
    { apply Qlt_shift_div_l; [reflexivity|]. rewrite Qmult_0_l.
      apply inject_Z_pos. exact Hsr. }
    rewrite E in Hpos. discriminate. }
  cbn [bind]. rewrite Hpk. cbn [bind].
  destruct (iirpeak_coefficients _ _ _ _ Hpk) as [gain [a1 [a2 [_ [-> ->]]]]].
  destruct (per_channel_all
              (lfilter
                 (((1 - gain) * 1 * py_pow 10 (gain_db band / 20))%Q,
                  ((1 - gain) * 0 * py_pow 10 (gain_db band / 20))%Q,
                  ((1 - gain) * -1 * py_pow 10 (gain_db band / 20))%Q)
                 (1%Q, a1, a2))
              processed processed eq_refl) as [out [-> Hout]].
  { eapply Forall_impl; [|exact Hw]. simpl. intros col Hc.
    unfold lfilter. change (Qeq_bool 1 0) with false.
    eexists. split; [reflexivity|]. rewrite lfilter_from_length. exact Hc. }
  cbn [bind]. unfold shape1 in Hch.
  destruct (columns processed) as [|col cols]; [simpl in Hch; lia|].
  exists out. split; [reflexivity | exact Hout].
Qed.

(** The processing chain returns a buffer of the shape it was given, as
    soon as the oversampled buffer is at least as long as the 151 taps of
    the anti-alias filter. *)
Lemma process_audio_ok (self : UniversalConverter) (pcm : ndarray)
  (g : RandomState) :
  well_shaped pcm -> (0 < shape1 pcm)%nat -> (19 <= shape0 pcm)%nat ->
  0 < uc_sample_rate self ->
  design_is_finite (uc_sample_rate self)
    {| gain_db := 3; center_freq := 1000; band_Q := 1 |} ->
  exists out g',
    process_audio self pcm g = Ok (out, g')
    /\ shape0 out = shape0 pcm
    /\ shape1 out = shape1 pcm
    /\ well_shaped out.
Proof.
  intros Hw H1 H0 Hsr Hfin. unfold process_audio.
  change (firwin 151 (45 # 100) 8)
    with (Ok (map (firwin_tap 151 (45 # 100) 8) (seq 0 151))).
  cbn [bind AudioPipeline_process block_process].
  destruct (Oversampler_process_ok 8 pcm) as [p1 [-> [A0 [A1 Aw]]]];
    [lia | exact Hw | exact H1 |].
  cbn [bind fst snd].
  destruct (AntiAliasFilter_process_ok
              (map (firwin_tap 151 (45 # 100) 8) (seq 0 151)) p1)
    as [p2 [-> [B0 [B1 Bw]]]];
    [discriminate
    | rewrite length_map, length_seq, A0;
      change (Z.to_nat 8) with 8%nat; lia
    | exact Aw |].
  cbn [bind fst snd].
  destruct (DynamicsProcessor_process_ok (9 # 10) 10 p2)
    as [p3 [-> [C0 [C1 Cw]]]]; [discriminate | exact Bw |].
  cbn [bind fst snd].
  destruct (Normalizer_process_ok (1 # 100000) p3 g)
    as [p4 [g1 [-> [D0 [D1 Dw]]]]]; [|exact Cw|].
  { apply all_samples_nonempty; [exact Cw | |]; lia. }
  cbn [bind fst snd].
  destruct (stride_rows_shape p4 8 (shape0 pcm)) as [E0 [E1 Ew]];
    [exact Dw | lia
    | rewrite D0, C0, B0, A0; reflexivity |].
  unfold apply_advanced_reverb_default.
  destruct (apply_advanced_reverb_ok (stride_rows p4 8) (uc_sample_rate self)
              [20; 40; 60]%Q (6 # 10) (995 # 1000) (3 # 2) (1 # 2) g1)
    as [ir [g2 [ys [_ [_ [HF2 ->]]]]]];
    [exact Ew | lia | discriminate | repeat constructor; discriminate | |].
  { unfold int, Qmult, inject_Z. cbn [Qnum Qden].
    rewrite Z.quot_div_nonneg by lia.
    apply Z.div_le_lower_bound; lia. }
  cbn [bind fst snd].
  destruct (zip_samples_shape
              (fun d w => ((1 - (1 # 2)) * d + (1 # 2) * w)%Q)
              (stride_rows p4 8)
              {| shape0 := shape0 (stride_rows p4 8); columns := ys |})
    as [F0 [F1 Fw]]; [exact Ew | | reflexivity | |].
  { unfold well_shaped in *. cbn [columns shape0]. clear - HF2 Ew.
    induction HF2 as [|c1 c2 A B Hc _ IH]; [constructor|].
    inversion Ew; subst. constructor; [congruence|]. apply IH. assumption. }
  { unfold shape1. cbn [columns]. exact (Forall2_length HF2). }
  fold (wet_dry_mix (1 # 2) (stride_rows p4 8)
          {| shape0 := shape0 (stride_rows p4 8); columns := ys |})
    in F0, F1, Fw.
  unfold apply_advanced_eq, default_bands, apply_bands.
  destruct (apply_band_ok (uc_sample_rate self)
              {| gain_db := 3; center_freq := 1000; band_Q := 1 |}
              (wet_dry_mix (1 # 2) (stride_rows p4 8)
                 {| shape0 := shape0 (stride_rows p4 8); columns := ys |})
              Hsr Hfin Fw) as [p7 [-> [G0 [G1 Gw]]]].
  { replace (shape1 (wet_dry_mix (1 # 2) (stride_rows p4 8)
                       {| shape0 := shape0 (stride_rows p4 8); columns := ys |}))
      with (shape1 pcm) by congruence.
    exact H1. }
  cbn [bind].
  exists p7, g2. split; [reflexivity|].
  split; [congruence|]. split; [|exact Gw]. congruence.
Qed.

End ChainProperties.

Section EndToEnd.

Context `{L : Libm} `{SP : Scipy}.

(** The shape part of the end-to-end example: for the chord of three
    notes at 44100 Hz and two channels the converter hands a buffer of
    shape [(44100, 2)] to the encoders, for any state of the random
    generator, provided the equaliser design is finite. *)
Lemma chord_end_to_end_shape (g : RandomState) :
  design_is_finite 44100 {| gain_db := 3; center_freq := 1000; band_Q := 1 |} ->
  let self := UniversalConverter_init chord_events 44100 2 1 None 0 120 in
  exists out g',
    convert_pcm self g = Ok (out, g')
    /\ Z.of_nat (shape0 out) = 44100
    /\ shape1 out = 2%nat
    /\ well_shaped out.
Proof.
  intros Hfin self. unfold convert_pcm.
  destruct (generate_waveform_ok self) as [audio [-> [A0 [A1 Aw]]]].
  { vm_compute. discriminate. }
  { vm_compute. discriminate. }
  { subst self. unfold UniversalConverter_init, chord_events, has_note_keys.
    cbn [uc_midi_events map].
    repeat constructor; discriminate. }
  cbn [bind].
  assert (H0 : Z.of_nat (shape0 audio) = 44100).
  { rewrite A0. reflexivity. }
  assert (H1 : shape1 audio = 2%nat).
  { change (uc_channels self) with 2 in A1. lia. }
  destruct (process_audio_ok self audio g) as [out [g' [-> [P0 [P1 Pw]]]]];
    [exact Aw | lia | lia | reflexivity | exact Hfin |].
  cbn [bind fst snd]. unfold stretch_to_target.
  change (uc_target_length_sec self) with (@None Z). cbn [bind].
  exists out, g'. split; [reflexivity|].
  split; [congruence|]. split; [congruence | exact Pw].
Qed.

End EndToEnd.

Lemma chord_end_to_end_shape_witness :
  exists out g',
    convert_pcm (L := example_libm) (SP := example_scipy)
      (UniversalConverter_init chord_events 44100 2 1 None 0 120)
      example_generator = Ok (out, g')
    /\ Z.of_nat (shape0 out) = 44100
    /\ shape1 out = 2%nat
    /\ well_shaped out.
Proof.
  apply (@chord_end_to_end_shape example_libm example_scipy example_generator).
  unfold design_is_finite. eexists. vm_compute. reflexivity.
Defined.

(* ------------------------------------------------------------------ *)
(** ** The voices of a render *)

Lemma synthesize_note_length_witness :
  exists note_wave,
    @synthesize_note example_libm example_synth 440 (1 # 2) 100 = Ok note_wave
    /\ len note_wave = 5.
Proof.
  apply (@synthesize_note_length example_libm example_synth 440 (1 # 2) 100);
    [discriminate | discriminate].
Defined.

Lemma Forall2_Qeq_refl (l : list Q) : Forall2 Qeq l l.
Proof. induction l; constructor; [reflexivity | assumption]. Qed.

Lemma Forall2_Qeq_sym (l1 l2 : list Q) : Forall2 Qeq l1 l2 -> Forall2 Qeq l2 l1.
Proof. induction 1; constructor; [symmetry|]; assumption. Qed.

Lemma Forall2_Qeq_trans (l1 l2 l3 : list Q) :
  Forall2 Qeq l1 l2 -> Forall2 Qeq l2 l3 -> Forall2 Qeq l1 l3.
Proof.
  intros H. revert l3. induction H as [|a b l1 l2 Hab _ IH]; intros l3 H3;
    inversion H3; subst; constructor; [etransitivity; eassumption | auto].
Qed.

Lemma samples_equiv_refl (a : ndarray) : samples_equiv a a.
Proof.
  split; [reflexivity|]. induction (columns a); constructor;
    [apply Forall2_Qeq_refl | assumption].
Qed.

Lemma samples_equiv_trans (a b c : ndarray) :
  samples_equiv a b -> samples_equiv b c -> samples_equiv a c.
Proof.
  intros [H0 H] [K0 K]. split; [congruence|].
  revert K. generalize (columns c). induction H as [|x y l1 l2 Hxy _ IH];
    intros l3 K; inversion K; subst; constructor;
    [eapply Forall2_Qeq_trans; eassumption | auto].
Qed.

(** Two writes into one column commute. *)
Lemma add_from_comm (col : list Q) :
  forall (k1 k2 : nat) (r1 r2 : list Q),
    Forall2 Qeq (add_from k1 (add_from k2 col r2) r1)
                (add_from k2 (add_from k1 col r1) r2).
Proof.
  induction col as [|x col IH]; intros k1 k2 r1 r2; [destruct k1, k2; constructor|].
  destruct k1 as [|k1], k2 as [|k2].
  - destruct r1 as [|a r1], r2 as [|b r2]; cbn [add_from].
    + apply Forall2_Qeq_refl.
    + apply Forall2_Qeq_refl.
    + apply Forall2_Qeq_refl.
    + constructor; [ring | apply IH].
  - destruct r1 as [|a r1]; cbn [add_from].
    + apply Forall2_Qeq_refl.
    + constructor; [reflexivity | apply IH].
  - destruct r2 as [|b r2]; cbn [add_from].
    + apply Forall2_Qeq_refl.
    + constructor; [reflexivity | apply IH].
  - cbn [add_from]. constructor; [reflexivity | apply IH].
Qed.

(** A write respects the numeric equality of columns. *)
Lemma add_from_equiv (col col' : list Q) :
  Forall2 Qeq col col' ->
  forall (k : nat) (rhs : list Q),
    Forall2 Qeq (add_from k col rhs) (add_from k col' rhs).
Proof.
  induction 1 as [|x y col col' Hxy Hcol IH]; intros k rhs; [destruct k; constructor|].
  destruct k as [|k]; cbn [add_from].
  - destruct rhs as [|r rhs].
    + constructor; assumption.
    + constructor; [rewrite Hxy; reflexivity | apply IH].
  - constructor; [assumption | apply IH].
Qed.

Section VoiceOrder.

Context `{L : Libm}.

(** What a voice does to the buffer depends on the buffer through its
    number of rows only: it adds one sequence to every column, from one
    row on. *)
Lemma run_voice_writes (self : HybridSynthesizer) (num_samples : Z)
  (event : midi_event) (duration_sec : Q) (rows : nat) :
  exists (k : nat) (rhs : list Q),
    forall audio : ndarray,
      shape0 audio = rows ->
      run_voice self num_samples event duration_sec audio
      = {| shape0 := rows;
           columns := map (fun col => add_from k col rhs) (columns audio) |}.
Proof.
  assert (Hskip : forall audio : ndarray,
             shape0 audio = rows ->
             audio = {| shape0 := rows;
                        columns := map (fun col => add_from 0 col [])
                                       (columns audio) |}).
  { intros [n cols] Hn. cbn [shape0 columns] in *. subst n. f_equal.
    rewrite (map_ext _ (fun col => col)) by (intros; apply add_from_nil).
    symmetry. apply map_id. }
  unfold run_voice, synthesize.
  destruct (ev_note event) as [note|];
    [|exists 0%nat, []; intros audio Hs; cbn [getitem bind]; auto].
  destruct (ev_velocity event) as [velocity|];
    [|exists 0%nat, []; intros audio Hs; cbn [getitem bind]; auto].
  cbn [getitem bind].
  destruct (synthesize_note self _ duration_sec velocity) as [note_wave|];
    [|exists 0%nat, []; intros audio Hs; auto].
  set (start_sample := start_sample_of self event).
  set (end_sample := Z.min (start_sample + len note_wave) num_samples).
  set (rhs := slice_to note_wave (end_sample - start_sample)).
  set (n := Z.of_nat rows).
  set (v := Z.max 0 (norm_index n end_sample - norm_index n start_sample)).
  destruct (len rhs =? v) eqn:E1.
  - exists (Z.to_nat (norm_index n start_sample)), rhs. intros audio Hs.
    unfold iadd_rows. rewrite Hs. fold n. fold v. rewrite E1. reflexivity.
  - destruct (len rhs =? 1) eqn:E2.
    + exists (Z.to_nat (norm_index n start_sample)),
        (repeat (hd 0%Q rhs) (Z.to_nat v)).
      intros audio Hs. unfold iadd_rows. rewrite Hs. fold n. fold v.
      rewrite E1, E2. reflexivity.
    + exists 0%nat, []. intros audio Hs. unfold iadd_rows. rewrite Hs.
      fold n. fold v. rewrite E1, E2. auto.
Qed.

Lemma run_voice_shape0 (self : HybridSynthesizer) (num_samples : Z)
  (event : midi_event) (duration_sec : Q) (audio : ndarray) :
  shape0 (run_voice self num_samples event duration_sec audio) = shape0 audio.
Proof.
  destruct (run_voice_writes self num_samples event duration_sec (shape0 audio))
    as [k [rhs H]].
  rewrite (H audio eq_refl). reflexivity.
Qed.

Lemma run_voice_comm (self : HybridSynthesizer) (num_samples : Z)
  (e1 e2 : midi_event) (d1 d2 : Q) (audio : ndarray) :
  samples_equiv
    (run_voice self num_samples e1 d1 (run_voice self num_samples e2 d2 audio))
    (run_voice self num_samples e2 d2 (run_voice self num_samples e1 d1 audio)).
Proof.
  destruct (run_voice_writes self num_samples e1 d1 (shape0 audio))
    as [k1 [r1 H1]].
  destruct (run_voice_writes self num_samples e2 d2 (shape0 audio))
    as [k2 [r2 H2]].
  rewrite (H2 audio eq_refl), (H1 audio eq_refl).
  rewrite H1, H2 by reflexivity.
  split; [reflexivity|]. cbn [columns]. rewrite !map_map.
  induction (columns audio) as [|col cols IH]; cbn [map]; constructor;
    [apply add_from_comm | exact IH].
Qed.

Lemma run_voice_equiv (self : HybridSynthesizer) (num_samples : Z)
  (event : midi_event) (duration_sec : Q) (a b : ndarray) :
  samples_equiv a b ->
  samples_equiv (run_voice self num_samples event duration_sec a)
                (run_voice self num_samples event duration_sec b).
Proof.
  intros [H0 H].
  destruct (run_voice_writes self num_samples event duration_sec (shape0 a))
    as [k [rhs Hw]].
  rewrite (Hw a eq_refl), (Hw b (eq_sym H0)).
  split; [reflexivity|]. cbn [columns].
  induction H as [|c c' l l' Hc _ IH]; cbn [map]; constructor;
    [apply add_from_equiv; exact Hc | exact IH].
Qed.

Lemma run_voices_equiv (self : HybridSynthesizer) (num_samples : Z)
  (jobs : list (midi_event * Q)) :
  forall a b : ndarray,
    samples_equiv a b ->
    samples_equiv (run_voices self num_samples jobs a)
                  (run_voices self num_samples jobs b).
Proof.
  induction jobs as [|j jobs IH]; intros a b Hab; [exact Hab|].
  unfold run_voices. cbn [fold_left]. apply IH, run_voice_equiv, Hab.
Qed.

(** The event loop of [render] is the list of voices it starts, run on
    the buffer. *)
Lemma render_events_voices (self : HybridSynthesizer) (num_samples : Z)
  (midi_events : list midi_event) :
  forall audio : ndarray,
    render_events self num_samples midi_events audio
    = (jobs <- voice_jobs midi_events ;;
       Ok (run_voices self num_samples jobs audio)).
Proof.
  induction midi_events as [|event rest IH]; intros audio; [reflexivity|].
  cbn [render_events voice_jobs].
  destruct (event_type_eqb (ev_type event) note_on); [|apply IH].
  destruct (note_duration_sec event rest) as [d|e]; [|reflexivity].
  cbn [bind]. rewrite IH.
  destruct (voice_jobs rest) as [jobs|e]; reflexivity.
Qed.

(** The buffer a render returns does not depend on the order in which
    the voice threads take the lock: run in any order, the voices of the
    event list leave the same numbers in the buffer. *)
Theorem render_voice_order_irrelevant (self : HybridSynthesizer)
  (midi_events : list midi_event) (jobs jobs' : list (midi_event * Q))
  (audio : ndarray) :
  voice_jobs midi_events = Ok jobs ->
  Permutation jobs jobs' ->
  let num_samples := int (b64 (inject_Z (sample_rate self) * duration self)) in
  render_events self num_samples midi_events audio
  = Ok (run_voices self num_samples jobs audio)
  /\ samples_equiv (run_voices self num_samples jobs audio)
                   (run_voices self num_samples jobs' audio).
Proof.
  intros Hjobs Hperm num_samples. split.
  { rewrite render_events_voices, Hjobs. reflexivity. }
  clear Hjobs. revert audio.
  induction Hperm as [|j l l' _ IH|j1 j2 l|l1 l2 l3 _ IH1 _ IH2]; intros audio.
  - apply samples_equiv_refl.
  - unfold run_voices. cbn [fold_left]. apply IH.
  - unfold run_voices. cbn [fold_left].
    apply (run_voices_equiv self num_samples l). apply run_voice_comm.
  - eapply samples_equiv_trans; [apply IH1 | apply IH2].
Qed.

End VoiceOrder.

Lemma render_voice_order_irrelevant_witness :
  let jobs := [ (note_event note_on 0 60 100, 1 # 2);
                (note_event note_on 0 64 100, 1 # 2) ]%Q in
  let events := [ note_event note_on 0 60 100; note_event note_on 0 64 100 ] in
  @render_events example_libm example_synth 10 events example_audio
  = Ok (@run_voices example_libm example_synth 10 jobs example_audio)
  /\ samples_equiv
       (@run_voices example_libm example_synth 10 jobs example_audio)
       (@run_voices example_libm example_synth 10 (rev jobs) example_audio).
Proof.
  apply (@render_voice_order_irrelevant example_libm example_synth
           [ note_event note_on 0 60 100; note_event note_on 0 64 100 ]
           [ (note_event note_on 0 60 100, 1 # 2);
             (note_event note_on 0 64 100, 1 # 2) ]%Q
           (rev [ (note_event note_on 0 60 100, 1 # 2);
                  (note_event note_on 0 64 100, 1 # 2) ]%Q)
           example_audio).
  - reflexivity.
  - apply Permutation_rev.
Defined.

(* ------------------------------------------------------------------ *)
(** ** The events a render reads *)

(** The duration of a note is taken from the first later note-off of its
    note and channel, whatever lies in between: the difference of the two
    times in seconds, the quotients and the difference as binary64
    computes them, and never less than the binary64 number [0.1]; a note
    that no later note-off releases lasts half a second. *)
Theorem note_duration_first_note_off (event : midi_event) (note channel : Z)
  (between after : list midi_event) (s : midi_event) :
  ev_note event = Some note -> ev_channel event = Some channel ->
  forallb (fun x => negb (is_note_off_of note channel x)) between = true ->
  (is_note_off_of note channel s = true ->
   note_duration_sec event (between ++ s :: after)
   = Ok (max2 (b64 (1 # 10))
           (b64 (b64 (ev_time s / 1000000)
                 - b64 (ev_time event / 1000000)))))
  /\ note_duration_sec event between = Ok (1 # 2)%Q.
Proof.
  intros Hn Hc Hb.
  assert (Hstep : forall x rest,
             is_note_off_of note channel x = false ->
             note_duration_sec event (x :: rest) = note_duration_sec event rest).
  { intros x rest Hx. cbn [note_duration_sec]. rewrite Hn, Hc.
    cbn [getitem bind]. unfold is_note_off_of in Hx.
    destruct (event_type_eqb (ev_type x) note_off); [|reflexivity].
    destruct (get_eqb (ev_note x) note); [|reflexivity].
    destruct (get_eqb (ev_channel x) channel); [discriminate | reflexivity]. }
  split.
  - intros Hs. induction between as [|x between IH].
    + cbn [app note_duration_sec]. rewrite Hn, Hc. cbn [getitem bind].
      unfold is_note_off_of in Hs.
      apply andb_prop in Hs as [Hs Hs3]. apply andb_prop in Hs as [Hs1 Hs2].
      rewrite Hs1, Hs2, Hs3. reflexivity.
    + cbn [forallb] in Hb. apply andb_prop in Hb as [Hx Hb].
      apply negb_true_iff in Hx.
      change ((x :: between) ++ s :: after) with (x :: (between ++ s :: after)).
      rewrite (Hstep _ _ Hx). apply IH, Hb.
  - induction between as [|x between IH]; [reflexivity|].
    cbn [forallb] in Hb. apply andb_prop in Hb as [Hx Hb].
    apply negb_true_iff in Hx. rewrite (Hstep _ _ Hx). apply IH, Hb.
Qed.

Lemma note_duration_first_note_off_witness :
  (is_note_off_of 60 0 (note_event note_off 2000000 60 0) = true ->
   note_duration_sec (note_event note_on 500000 60 100)
     ([note_event note_on 600000 64 100; note_event note_off 900000 64 0]
      ++ note_event note_off 2000000 60 0
      :: [note_event note_off 3000000 60 0])
   = Ok (max2 (b64 (1 # 10))
           (b64 (b64 (2000000 / 1000000) - b64 (500000 / 1000000)))))
  /\ note_duration_sec (note_event note_on 500000 60 100)
       [note_event note_on 600000 64 100; note_event note_off 900000 64 0]
     = Ok (1 # 2)%Q.
Proof.
  apply (note_duration_first_note_off (note_event note_on 500000 60 100) 60 0
           [note_event note_on 600000 64 100; note_event note_off 900000 64 0]
           [note_event note_off 3000000 60 0]
           (note_event note_off 2000000 60 0));
    reflexivity.
Defined.

(** An event that is not a note-off does not change the duration found
    for an earlier note. *)
Lemma note_duration_sec_skip (event e : midi_event)
  (before after : list midi_event) :
  ev_type e <> note_off ->
  note_duration_sec event (before ++ e :: after)
  = note_duration_sec event (before ++ after).
Proof.
  intros He. induction before as [|x before IH].
  - cbn [app note_duration_sec].
    destruct (event_type_eqb (ev_type e) note_off) eqn:E; [|reflexivity].
    apply event_type_eqb_eq in E. contradiction.
  - cbn [app note_duration_sec]. rewrite IH. reflexivity.
Qed.

Section RenderEvents.

Context `{L : Libm}.

Lemma render_events_skip (self : HybridSynthesizer) (num_samples : Z)
  (e : midi_event) (before after : list midi_event) :
  ev_type e <> note_off ->
  (forall audio,
      render_events self num_samples (e :: after) audio
      = render_events self num_samples after audio) ->
  forall audio,
    render_events self num_samples (before ++ e :: after) audio
    = render_events self num_samples (before ++ after) audio.
Proof.
  intros He Hhead. induction before as [|x before IH]; intros audio.
  - apply Hhead.
  - cbn [app render_events]. rewrite (note_duration_sec_skip x e before after He).
    destruct (event_type_eqb (ev_type x) note_on); [|apply IH].
    destruct (note_duration_sec x (before ++ after)); [|reflexivity].
    cbn [bind]. apply IH.
Qed.

(** Tempo, sustain and pitch-bend events have no effect on the audio:
    the render of an event list is the render of the list without
    them. *)
Theorem render_ignores_control_events (self : HybridSynthesizer)
  (e : midi_event) (before after : list midi_event) :
  ev_type e <> note_on -> ev_type e <> note_off ->
  render self (before ++ e :: after) = render self (before ++ after).
Proof.
  intros Hon Hoff. unfold render.
  destruct (np_zeros _ _) as [audio|]; [|reflexivity]. cbn [bind].
  apply render_events_skip; [exact Hoff|]. intros a. cbn [render_events].
  destruct (event_type_eqb (ev_type e) note_on) eqn:E; [|reflexivity].
  apply event_type_eqb_eq in E. contradiction.
Qed.

(** A note-on event that carries its note and channel but no velocity is
    dropped without a trace: its thread ends on the [KeyError] and the
    render is that of the list without the event. *)
Theorem render_drops_note_without_velocity (self : HybridSynthesizer)
  (e : midi_event) (before after : list midi_event) :
  ev_type e = note_on ->
  ev_note e <> None -> ev_channel e <> None -> ev_velocity e = None ->
  render self (before ++ e :: after) = render self (before ++ after).
Proof.
  intros Hon Hn Hc Hv. unfold render.
  destruct (np_zeros _ _) as [audio|]; [|reflexivity]. cbn [bind].
  apply render_events_skip; [rewrite Hon; discriminate|]. intros a.
  cbn [render_events]. rewrite Hon. cbn [event_type_eqb].
  destruct (note_duration_sec_ok e after Hn Hc) as [d ->]. cbn [bind].
  unfold run_voice, synthesize. rewrite Hv.
  destruct (ev_note e); reflexivity.
Qed.

(** A note-on event without the key ['note'] makes the whole render fail
    with [KeyError] as soon as any note-off follows it in the list: the
    key is read in the main thread, while the durations are matched. *)
Theorem render_note_on_without_note (self : HybridSynthesizer)
  (e : midi_event) (before after : list midi_event) :
  0 <= int (b64 (inject_Z (sample_rate self) * duration self)) ->
  0 <= channels self ->
  ev_type e = note_on -> ev_note e = None ->
  existsb (fun s => event_type_eqb (ev_type s) note_off) after = true ->
  render self (before ++ e :: after) = Raise KeyError.
Proof.
  intros Hrows Hch Hon Hn Hoff. unfold render.
  destruct (np_zeros_ok _ _ Hrows Hch) as [audio [-> _]]. cbn [bind].
  assert (Hkey : forall x l, note_duration_sec x l = Raise KeyError
                             \/ exists d, note_duration_sec x l = Ok d).
  { intros x l. induction l as [|s l IH]; [right; eexists; reflexivity|].
    cbn [note_duration_sec].
    destruct (event_type_eqb (ev_type s) note_off); [|exact IH].
    destruct (ev_note x) as [n|]; [|left; reflexivity]. cbn [getitem bind].
    destruct (get_eqb (ev_note s) n); [|exact IH].
    destruct (ev_channel x) as [c|]; [|left; reflexivity]. cbn [getitem bind].
    destruct (get_eqb (ev_channel s) c); [right; eexists; reflexivity | exact IH]. }
  assert (He : note_duration_sec e after = Raise KeyError).
  { clear - Hn Hoff. induction after as [|s after IH]; [discriminate|].
    cbn [existsb] in Hoff. cbn [note_duration_sec]. rewrite Hn.
    cbn [getitem bind].
    destruct (event_type_eqb (ev_type s) note_off); [reflexivity|].
    apply IH. exact Hoff. }
  revert audio. induction before as [|x before IH]; intros audio.
  - cbn [app render_events]. rewrite Hon. cbn [event_type_eqb].
    rewrite He. reflexivity.
  - cbn [app render_events].
    destruct (event_type_eqb (ev_type x) note_on); [|apply IH].
    destruct (Hkey x (before ++ e :: after)) as [-> | [d ->]]; [reflexivity|].
    cbn [bind]. apply IH.
Qed.

End RenderEvents.

Lemma render_ignores_control_events_witness :
  let pedal := {| ev_type := sustain; ev_time := 100000; ev_note := None;
                  ev_velocity := None; ev_channel := Some 0;
                  ev_value := Some 127%Q |} in
  @render example_libm example_synth
    ([note_event note_on 0 60 100] ++ pedal :: [note_event note_off 500000 60 0])
  = @render example_libm example_synth
      ([note_event note_on 0 60 100] ++ [note_event note_off 500000 60 0]).
Proof.
  apply (@render_ignores_control_events example_libm example_synth
           {| ev_type := sustain; ev_time := 100000; ev_note := None;
              ev_velocity := None; ev_channel := Some 0;
              ev_value := Some 127%Q |}
           [note_event note_on 0 60 100] [note_event note_off 500000 60 0]);
    discriminate.
Defined.

Lemma render_drops_note_without_velocity_witness :
  let e := {| ev_type := note_on; ev_time := 0; ev_note := Some 64;
              ev_velocity := None; ev_channel := Some 0; ev_value := None |} in
  @render example_libm example_synth
    ([note_event note_on 0 60 100] ++ e :: [note_event note_off 500000 60 0])
  = @render example_libm example_synth
      ([note_event note_on 0 60 100] ++ [note_event note_off 500000 60 0]).
Proof.
  apply (@render_drops_note_without_velocity example_libm example_synth
           {| ev_type := note_on; ev_time := 0; ev_note := Some 64;
              ev_velocity := None; ev_channel := Some 0; ev_value := None |}
           [note_event note_on 0 60 100] [note_event note_off 500000 60 0]);
    [reflexivity | discriminate | discriminate | reflexivity].
Defined.

Lemma render_note_on_without_note_witness :
  let e := {| ev_type := note_on; ev_time := 0; ev_note := None;
              ev_velocity := Some 100; ev_channel := Some 0;
              ev_value := None |} in
  @render example_libm example_synth
    ([note_event note_on 0 60 100] ++ e :: [note_event note_off 500000 60 0])
  = Raise KeyError.
Proof.
  apply (@render_note_on_without_note example_libm example_synth
           {| ev_type := note_on; ev_time := 0; ev_note := None;
              ev_velocity := Some 100; ev_channel := Some 0;
              ev_value := None |}
           [note_event note_on 0 60 100] [note_event note_off 500000 60 0]);
    [discriminate | discriminate | reflexivity | reflexivity | reflexivity].
Defined.

(* ------------------------------------------------------------------ *)
(** ** The blocks of the pipeline, one by one *)

Lemma sample_map_samples (f : Q -> Q) (a : ndarray) (ch i : nat) :
  (ch < shape1 a)%nat -> (i < length (nth ch (columns a) []))%nat ->
  sample (map_samples f a) ch i = f (sample a ch i).
Proof.
  unfold sample, map_samples, shape1. cbn [columns]. intros Hch Hi.
  rewrite (nth_indep _ [] (map f [])) by (rewrite length_map; exact Hch).
  rewrite map_nth.
  rewrite (nth_indep _ 0%Q (f 0%Q)) by (rewrite length_map; exact Hi).
  apply map_nth.
Qed.

Lemma column_length (a : ndarray) (ch : nat) :
  well_shaped a -> (ch < shape1 a)%nat ->
  length (nth ch (columns a) []) = shape0 a.
Proof.
  unfold well_shaped, shape1. intros Hw Hch.
  rewrite Forall_forall in Hw. apply Hw, nth_In, Hch.
Qed.

Lemma sample_in_all_samples (a : ndarray) (ch i : nat) :
  (ch < shape1 a)%nat -> (i < length (nth ch (columns a) []))%nat ->
  In (sample a ch i) (all_samples a).
Proof.
  unfold sample, all_samples, shape1. intros Hch Hi.
  apply in_concat. exists (nth ch (columns a) []).
  split; apply nth_In; assumption.
Qed.

Section BlockProperties.

Context `{SP : Scipy}.

(** The oversampler multiplies the number of rows by its factor and keeps
    the channels; it raises [ValueError] on a buffer without channels and
    for a factor below one. *)
Theorem oversampler_rows_and_errors (factor : Z) (pcm : ndarray) :
  (1 <= factor -> well_shaped pcm -> (0 < shape0 pcm)%nat ->
   (0 < shape1 pcm)%nat ->
   exists out,
     Oversampler_process factor pcm = Ok out
     /\ Z.of_nat (shape0 out) = Z.of_nat (shape0 pcm) * factor
     /\ shape1 out = shape1 pcm
     /\ well_shaped out)
  /\ (shape1 pcm = 0%nat -> Oversampler_process factor pcm = Raise ValueError)
  /\ (factor < 1 -> Oversampler_process factor pcm = Raise ValueError).
Proof.
  split; [|split].
  - intros Hf Hw _ H1.
    destruct (Oversampler_process_ok factor pcm Hf Hw H1)
      as [out [Hout [O0 [O1 Ow]]]].
    exists out. split; [exact Hout|]. split; [rewrite O0; lia|]. auto.
  - unfold shape1, Oversampler_process. intros H1.
    destruct (columns pcm); [reflexivity | discriminate].
  - intros Hf. unfold Oversampler_process.
    destruct (columns pcm) as [|col rest]; [reflexivity|].
    cbn [oversample_channels]. unfold resample_poly.
    destruct (factor <? 1) eqn:E; [reflexivity|].
    apply Z.ltb_ge in E. lia.
Qed.

End BlockProperties.

Lemma oversampler_rows_and_errors_witness :
  (exists out,
     Oversampler_process (SP := example_scipy) 8 example_audio = Ok out
     /\ Z.of_nat (shape0 out) = 10 * 8
     /\ shape1 out = 2%nat
     /\ well_shaped out)
  /\ Oversampler_process (SP := example_scipy) 8 {| shape0 := 10; columns := [] |}
     = Raise ValueError
  /\ Oversampler_process (SP := example_scipy) 0 example_audio
     = Raise ValueError.
Proof.
  split; [|split].
  - apply (proj1 (@oversampler_rows_and_errors example_scipy 8 example_audio)).
    + lia.
    + repeat constructor.
    + simpl. lia.
    + unfold shape1. simpl. lia.
  - apply (proj1 (proj2 (@oversampler_rows_and_errors example_scipy 8
                           {| shape0 := 10; columns := [] |}))).
    reflexivity.
  - apply (proj2 (proj2 (@oversampler_rows_and_errors example_scipy 0
                           example_audio))).
    lia.
Defined.

Lemma np_convolve_same_longer_kernel (a v : list Q) :
  a <> [] -> (length a <= length v)%nat ->
  exists y, np_convolve_same a v = Ok y /\ length y = length v.
Proof.
  intros Ha Hlen. unfold np_convolve_same.
  destruct a as [|x a]; [contradiction|].
  destruct v as [|z v]; [simpl in Hlen; lia|].
  eexists. split; [reflexivity|].
  rewrite length_firstn, length_skipn, convolve_full_length by discriminate.
  set (m := length (x :: a)) in *. set (n := length (z :: v)) in *.
  assert (Hm : (1 <= m)%nat) by (subst m; simpl; lia).
  assert (Hoff : ((Nat.min m n - 1) / 2 <= m - 1)%nat).
  { replace (Nat.min m n) with m by lia.
    apply Nat.Div0.div_le_upper_bound. lia. }
  lia.
Qed.

Lemma AntiAliasFilter_process_short (kernel : list Q) (pcm : ndarray) :
  well_shaped pcm -> (0 < shape1 pcm)%nat ->
  (shape0 pcm < length kernel)%nat ->
  AntiAliasFilter_process kernel pcm = Raise ValueError.
Proof.
  intros Hw H1 Hlen. unfold AntiAliasFilter_process.
  unfold shape1 in H1. unfold well_shaped in Hw.
  destruct (columns pcm) as [|col rest] eqn:Ecols; [simpl in H1; lia|].
  inversion Hw as [|? ? Hcol _]; subst.
  cbn [per_channel].
  destruct col as [|x col].
  { destruct kernel; reflexivity. }
  destruct (np_convolve_same_longer_kernel (x :: col) kernel) as [y [-> Ly]];
    [discriminate | lia |].
  cbn [bind]. unfold set_column, shape1, map_samples. cbn [columns shape0].
  rewrite Ecols. cbn [map length Nat.leb].
  destruct (length y =? shape0 pcm)%nat eqn:E1;
    [apply Nat.eqb_eq in E1; lia|].
  destruct (length y =? 1)%nat eqn:E2;
    [apply Nat.eqb_eq in E2; simpl in Hcol; lia|].
  reflexivity.
Qed.

(** The anti-alias filter keeps the shape of a buffer that has at least
    as many rows as the kernel has taps; on a shorter buffer the
    convolution returns as many samples as the kernel has, and the
    assignment to the channel raises [ValueError]. *)
Theorem anti_alias_needs_rows (kernel : list Q) (pcm : ndarray) :
  kernel <> [] -> well_shaped pcm -> (0 < shape1 pcm)%nat ->
  ((length kernel <= shape0 pcm)%nat ->
   exists out,
     AntiAliasFilter_process kernel pcm = Ok out
     /\ shape0 out = shape0 pcm
     /\ shape1 out = shape1 pcm
     /\ well_shaped out)
  /\ ((shape0 pcm < length kernel)%nat ->
      AntiAliasFilter_process kernel pcm = Raise ValueError).
Proof.
  intros Hk Hw H1. split.
  - intros Hlen. apply AntiAliasFilter_process_ok; assumption.
  - intros Hlen. apply AntiAliasFilter_process_short; assumption.
Qed.

Lemma anti_alias_needs_rows_witness :
  (exists out,
     AntiAliasFilter_process [1; 1; 1]%Q example_audio = Ok out
     /\ shape0 out = 10%nat
     /\ shape1 out = 2%nat
     /\ well_shaped out)
  /\ AntiAliasFilter_process (repeat 1%Q 11) example_audio = Raise ValueError.
Proof.
  split.
  - apply (proj1 (anti_alias_needs_rows [1; 1; 1]%Q example_audio
                    ltac:(discriminate) ltac:(repeat constructor)
                    ltac:(unfold shape1; simpl; lia))).
    simpl. lia.
  - apply (proj2 (anti_alias_needs_rows (repeat 1%Q 11) example_audio
                    ltac:(discriminate) ltac:(repeat constructor)
                    ltac:(unfold shape1; simpl; lia))).
    simpl. lia.
Defined.

(** The soft-knee curve: a sample at or below the threshold is returned as
    it is; a sample over it keeps its sign and has the magnitude
    [threshold + (|x| - threshold) / ratio], which for a ratio of at least
    one lies above the threshold and not above [|x|]. *)
Lemma soft_knee_curve (threshold ratio x : Q) :
  (0 <= threshold)%Q -> (1 <= ratio)%Q ->
  ((Qabs x <= threshold)%Q -> soft_knee threshold ratio x = x)
  /\ ((threshold < Qabs x)%Q ->
      (Qabs (soft_knee threshold ratio x)
       == threshold + (Qabs x - threshold) / ratio)%Q
      /\ (threshold < Qabs (soft_knee threshold ratio x))%Q
      /\ (0 <= x * soft_knee threshold ratio x)%Q)
  /\ (Qabs (soft_knee threshold ratio x) <= Qabs x)%Q.
Proof.
  intros Ht Hr.
  assert (Hover : (threshold < Qabs x)%Q ->
            (Qabs (soft_knee threshold ratio x)
             == threshold + (Qabs x - threshold) / ratio)%Q
            /\ (threshold < Qabs (soft_knee threshold ratio x))%Q
            /\ (0 <= x * soft_knee threshold ratio x)%Q
            /\ (Qabs (soft_knee threshold ratio x) <= Qabs x)%Q).
  { intros Hx. unfold soft_knee.
    destruct (Qlt_le_dec threshold (Qabs x)) as [_|Hle];
      [|exfalso; apply (Qlt_not_le _ _ Hx Hle)].
    set (c := (threshold + (Qabs x - threshold) / ratio)%Q).
    assert (Hrpos : (0 < ratio)%Q) by lra.
    assert (Hd : (0 < (Qabs x - threshold) / ratio)%Q).
    { apply Qlt_shift_div_l; [exact Hrpos|]. lra. }
    assert (Hd2 : ((Qabs x - threshold) / ratio <= Qabs x - threshold)%Q).
    { apply Qle_shift_div_r; [exact Hrpos|].
      assert (0 <= (Qabs x - threshold) * (ratio - 1))%Q
        by (apply Qmult_le_0_compat; lra).
      lra. }
    assert (Hc : (threshold < c)%Q) by (unfold c; lra).
    assert (Hcx : (c <= Qabs x)%Q) by (unfold c; lra).
    assert (Hcpos : (0 <= c)%Q) by lra.
    destruct (Qlt_le_dec 0 x) as [Hpos|Hneg].
    - assert (Hs : Z.sgn (Qnum x) = 1).
      { apply Z.sgn_pos. unfold Qlt in Hpos. simpl in Hpos. lia. }
      rewrite Hs.
      assert (E : (inject_Z 1 * c == c)%Q) by (change (inject_Z 1) with 1%Q; ring).
      rewrite E. rewrite (Qabs_pos c Hcpos).
      split; [reflexivity|]. split; [exact Hc|]. split; [|exact Hcx].
      apply Qmult_le_0_compat; lra.
    - assert (Hx0 : ~ (x == 0)%Q).
      { intros H0. rewrite H0 in Hx. change (Qabs 0) with 0%Q in Hx. lra. }
      assert (Hlt : (x < 0)%Q).
      { destruct (Qlt_le_dec x 0) as [H|H]; [exact H|].
        exfalso. apply Hx0. apply Qle_antisym; assumption. }
      assert (Hs : Z.sgn (Qnum x) = -1).
      { apply Z.sgn_neg. unfold Qlt in Hlt. simpl in Hlt. lia. }
      rewrite Hs.
      assert (E : (inject_Z (-1) * c == - c)%Q)
        by (change (inject_Z (-1)) with (-1)%Q; ring).
      rewrite E. rewrite Qabs_opp, (Qabs_pos c Hcpos).
      split; [reflexivity|]. split; [exact Hc|]. split; [|exact Hcx].
      assert (0 <= (- x) * c)%Q by (apply Qmult_le_0_compat; lra).
      lra. }
  split; [|split].
  - intros Hx. unfold soft_knee.
    destruct (Qlt_le_dec threshold (Qabs x)) as [Hlt|_]; [|reflexivity].
    exfalso. apply (Qlt_not_le _ _ Hlt Hx).
  - intros Hx. destruct (Hover Hx) as [A [B [C _]]]. auto.
  - destruct (Qlt_le_dec threshold (Qabs x)) as [Hlt|Hle].
    + apply (Hover Hlt).
    + unfold soft_knee.
      destruct (Qlt_le_dec threshold (Qabs x)) as [Hlt|_];
        [exfalso; apply (Qlt_not_le _ _ Hlt Hle) | apply Qle_refl].
Qed.

(** The dynamics processor with a threshold that is not negative and a
    ratio of at least one never raises and never makes a sample louder:
    samples within the threshold pass unchanged, samples over it are
    pulled toward the threshold, keeping their sign and staying above
    it. *)
Theorem dynamics_never_amplifies (threshold ratio : Q) (pcm : ndarray) :
  (0 <= threshold)%Q -> (1 <= ratio)%Q -> well_shaped pcm ->
  exists out,
    DynamicsProcessor_process threshold ratio pcm = Ok out
    /\ shape0 out = shape0 pcm
    /\ shape1 out = shape1 pcm
    /\ forall ch i : nat,
         (ch < shape1 pcm)%nat -> (i < shape0 pcm)%nat ->
         let x := sample pcm ch i in
         let y := sample out ch i in
         (Qabs y <= Qabs x)%Q
         /\ ((Qabs x <= threshold)%Q -> y = x)
         /\ ((threshold < Qabs x)%Q ->
             (Qabs y == threshold + (Qabs x - threshold) / ratio)%Q
             /\ (threshold < Qabs y)%Q
             /\ (0 <= x * y)%Q).
Proof.
  intros Ht Hr Hw.
  destruct (DynamicsProcessor_process_ok threshold ratio pcm)
    as [out [Hout [O0 [O1 _]]]]; [lra | exact Hw |].
  exists out. split; [exact Hout|]. split; [exact O0|]. split; [exact O1|].
  intros ch i Hch Hi x y.
  assert (Ey : y = soft_knee threshold ratio x).
  { subst x y. unfold DynamicsProcessor_process in Hout.
    destruct (Qeq_bool ratio 0 && _); [discriminate|].
    injection Hout as <-. apply sample_map_samples; [exact Hch|].
    rewrite (column_length pcm ch Hw Hch). exact Hi. }
  rewrite Ey.
  destruct (soft_knee_curve threshold ratio x Ht Hr) as [A [B C]]. auto.
Qed.

Lemma dynamics_never_amplifies_witness :
  let pcm := {| shape0 := 2; columns := [[1; -(1 # 2)]%Q] |} in
  exists out,
    DynamicsProcessor_process (9 # 10) 10 pcm = Ok out
    /\ shape0 out = 2%nat
    /\ shape1 out = 1%nat
    /\ forall ch i : nat,
         (ch < 1)%nat -> (i < 2)%nat ->
         let x := sample pcm ch i in
         let y := sample out ch i in
         (Qabs y <= Qabs x)%Q
         /\ ((Qabs x <= 9 # 10)%Q -> y = x)
         /\ ((9 # 10 < Qabs x)%Q ->
             (Qabs y == (9 # 10) + (Qabs x - (9 # 10)) / 10)%Q
             /\ (9 # 10 < Qabs y)%Q
             /\ (0 <= x * y)%Q).
Proof.
  apply (dynamics_never_amplifies (9 # 10) 10
           {| shape0 := 2; columns := [[1; -(1 # 2)]%Q] |});
    [discriminate | discriminate | repeat constructor].
Defined.

(* ------------------------------------------------------------------ *)
(** ** The peak after the normalizer *)

Lemma max2_ge_r (a b : Q) : (b <= max2 a b)%Q.
Proof.
  unfold max2. destruct (Qlt_le_dec a b) as [H|H]; [apply Qle_refl | exact H].
Qed.

Lemma fold_max2_ge_init (l : list Q) (m : Q) : (m <= fold_left max2 l m)%Q.
Proof.
  revert m. induction l as [|x l IH]; intros m; [apply Qle_refl|].
  cbn [fold_left]. eapply Qle_trans; [apply max2_ge_l | apply IH].
Qed.

Lemma fold_max2_ge (l : list Q) (m x : Q) :
  In x l -> (x <= fold_left max2 l m)%Q.
Proof.
  revert m. induction l as [|y l IH]; intros m Hin; [contradiction|].
  cbn [fold_left]. destruct Hin as [-> | Hin].
  - eapply Qle_trans; [apply max2_ge_r | apply fold_max2_ge_init].
  - apply IH, Hin.
Qed.

(** [np.max(np.abs(a))] bounds the magnitude of every sample. *)
Lemma max_abs_bounds (l : list Q) (m x : Q) :
  max_abs l = Ok m -> In x l -> (Qabs x <= m)%Q.
Proof.
  unfold max_abs, max_list. intros Hm Hin.
  destruct l as [|y l]; [contradiction|]. cbn [map] in Hm.
  injection Hm as <-. destruct Hin as [-> | Hin].
  - apply fold_max2_ge_init.
  - apply fold_max2_ge. apply in_map, Hin.
Qed.

Lemma nth_map_seq {A} (f : nat -> A) (n i : nat) (d : A) :
  (i < n)%nat -> nth i (map f (seq 0 n)) d = f i.
Proof.
  intros Hi. rewrite (nth_indep _ d (f 0%nat)) by (rewrite length_map, length_seq; exact Hi).
  rewrite map_nth. f_equal. rewrite seq_nth by exact Hi. reflexivity.
Qed.

(** A uniform draw in [[-amp, amp]] stays in that interval when the unit
    draws of the generator lie in [[0, 1]]. *)
Lemma random_uniform_bound (amp : Q) (n c : nat) (g : RandomState) (ch i : nat) :
  (0 <= amp)%Q ->
  (forall k, 0 <= unit_uniform g k <= 1)%Q ->
  (ch < c)%nat -> (i < n)%nat ->
  (Qabs (sample (fst (random_uniform (- amp) amp n c g)) ch i) <= amp)%Q.
Proof.
  intros Ha Hu Hch Hi. unfold random_uniform, sample. cbn [fst columns].
  rewrite (nth_map_seq _ c ch [] Hch), (nth_map_seq _ n i 0%Q Hi).
  set (r := unit_uniform g (cursor g + i * c + ch)%nat).
  destruct (Hu (cursor g + i * c + ch)%nat) as [H0 H1]. fold r in H0, H1.
  assert (Hp0 : (0 <= amp * r)%Q) by (apply Qmult_le_0_compat; assumption).
  assert (Hp1 : (0 <= amp * (1 - r))%Q) by (apply Qmult_le_0_compat; lra).
  apply Qabs_Qle_condition. split; lra.
Qed.

(** The normalizer leaves no sample beyond [1 + 2 * dither_amp]: the
    scaling brings the peak to one (a silent buffer stays as it is) and
    each of the two dither draws adds at most [dither_amp]. *)
Theorem normalizer_peak_bound (dither_amp : Q) (pcm : ndarray)
  (g : RandomState) :
  (0 <= dither_amp)%Q -> well_shaped pcm -> all_samples pcm <> [] ->
  (forall k, 0 <= unit_uniform g k <= 1)%Q ->
  exists out g',
    Normalizer_process dither_amp pcm g = Ok (out, g')
    /\ shape0 out = shape0 pcm
    /\ shape1 out = shape1 pcm
    /\ forall ch i : nat,
         (ch < shape1 pcm)%nat -> (i < shape0 pcm)%nat ->
         (Qabs (sample out ch i) <= 1 + 2 * dither_amp)%Q.
Proof.
  intros Hd Hw Hne Hu. unfold Normalizer_process.
  assert (Hscaled : exists pcm',
             normalize_scale pcm = Ok pcm'
             /\ shape0 pcm' = shape0 pcm /\ shape1 pcm' = shape1 pcm
             /\ well_shaped pcm'
             /\ forall ch i : nat,
                  (ch < shape1 pcm)%nat -> (i < shape0 pcm)%nat ->
                  (Qabs (sample pcm' ch i) <= 1)%Q).
  { destruct (normalize_scale_ok pcm Hne Hw) as [pcm' [Hs [S0 [S1 Sw]]]].
    exists pcm'. split; [exact Hs|]. split; [exact S0|]. split; [exact S1|].
    split; [exact Sw|]. intros ch i Hch Hi.
    unfold normalize_scale in Hs.
    destruct (max_abs (all_samples pcm)) as [m|] eqn:Em; [|discriminate].
    cbn [bind] in Hs.
    assert (Hlen : (i < length (nth ch (columns pcm) []))%nat)
      by (rewrite (column_length pcm ch Hw Hch); exact Hi).
    assert (Hx : (Qabs (sample pcm ch i) <= m)%Q).
    { apply (max_abs_bounds (all_samples pcm)); [exact Em|].
      apply sample_in_all_samples; assumption. }
    destruct (Qlt_le_dec 0 m) as [Hpos|Hle]; injection Hs as <-.
    - rewrite (sample_map_samples _ pcm ch i Hch Hlen).
      unfold Qdiv. rewrite Qabs_Qmult.
      assert (Hinv : (0 < / m)%Q) by (apply Qinv_lt_0_compat; exact Hpos).
      rewrite (Qabs_pos (/ m)) by (apply Qlt_le_weak; exact Hinv).
      apply Qle_shift_div_r; [exact Hpos|]. lra.
    - lra. }
  destruct Hscaled as [pcm' [-> [S0 [S1 [Sw Hpk]]]]]. cbn [bind].
  unfold tpdf_noise.
  destruct (random_uniform (- dither_amp) dither_amp (shape0 pcm') (shape1 pcm') g)
    as [u1 g1] eqn:E1.
  destruct (random_uniform (- dither_amp) dither_amp (shape0 pcm') (shape1 pcm') g1)
    as [u2 g2] eqn:E2.
  exists (zip_samples Qplus pcm' (zip_samples Qplus u1 u2)), g2.
  split; [reflexivity|].
  assert (Hg1 : g1 = advance (shape0 pcm' * shape1 pcm') g)
    by (unfold random_uniform in E1; injection E1 as _ <-; reflexivity).
  assert (Hu1 : u1 = fst (random_uniform (- dither_amp) dither_amp
                            (shape0 pcm') (shape1 pcm') g))
    by (rewrite E1; reflexivity).
  assert (Hu2 : u2 = fst (random_uniform (- dither_amp) dither_amp
                            (shape0 pcm') (shape1 pcm') g1))
    by (rewrite E2; reflexivity).
  destruct (random_uniform_shape (- dither_amp) dither_amp
              (shape0 pcm') (shape1 pcm') g) as [A0 [A1 Aw]].
  destruct (random_uniform_shape (- dither_amp) dither_amp
              (shape0 pcm') (shape1 pcm') g1) as [B0 [B1 Bw]].
  rewrite <- Hu1 in A0, A1, Aw. rewrite <- Hu2 in B0, B1, Bw.
  assert (Wu1 : well_shaped u1) by (unfold well_shaped; rewrite A0; exact Aw).
  assert (Wu2 : well_shaped u2) by (unfold well_shaped; rewrite B0; exact Bw).
  destruct (zip_samples_shape Qplus u1 u2) as [N0 [N1 Nw]];
    [exact Wu1 | exact Wu2 | congruence | unfold shape1; congruence |].
  split; [exact S0|].
  split; [unfold shape1, zip_samples; cbn [columns];
          rewrite length_map, length_combine, length_map, length_combine;
          unfold shape1 in S1, A1, B1; lia|].
  intros ch i Hch Hi.
  assert (Hsame : forall a b : ndarray,
             well_shaped a -> well_shaped b ->
             shape0 a = shape0 b -> shape1 a = shape1 b ->
             Forall2 (fun c1 c2 : list Q => length c1 = length c2)
               (columns a) (columns b)).
  { intros a b Ha Hb H0 H1. unfold well_shaped, shape1 in *.
    revert H1 Hb. generalize (columns b). rewrite H0 in Ha.
    induction Ha as [|c l Hc _ IH]; intros [|c' l'] H1 Hb;
      try discriminate; constructor.
    - inversion Hb; subst. congruence.
    - apply IH; [simpl in H1; congruence | inversion Hb; assumption]. }
  rewrite zip_samples_sample;
    [| apply Hsame; [exact Sw | exact Nw | congruence
                    | rewrite N1; unfold shape1 at 2; congruence]
     | unfold shape1 in S1; rewrite S1; exact Hch
     | rewrite (column_length pcm' ch Sw) by (rewrite S1; exact Hch);
       rewrite S0; exact Hi].
  rewrite zip_samples_sample;
    [| apply Hsame; [exact Wu1 | exact Wu2 | congruence
                    | unfold shape1; congruence]
     | rewrite A1, S1; exact Hch
     | rewrite (column_length u1 ch Wu1)
         by (unfold shape1; rewrite A1, S1; exact Hch);
       rewrite A0, S0; exact Hi].
  assert (Hb1 : (Qabs (sample u1 ch i) <= dither_amp)%Q).
  { rewrite Hu1. apply random_uniform_bound;
      [exact Hd | exact Hu | rewrite S1; exact Hch | rewrite S0; exact Hi]. }
  assert (Hb2 : (Qabs (sample u2 ch i) <= dither_amp)%Q).
  { rewrite Hu2. apply random_uniform_bound;
      [exact Hd | rewrite Hg1; exact Hu | rewrite S1; exact Hch
      | rewrite S0; exact Hi]. }
  specialize (Hpk ch i Hch Hi).
  eapply Qle_trans; [apply Qabs_triangle|].
  assert (Ht : (Qabs (sample u1 ch i + sample u2 ch i)
                <= Qabs (sample u1 ch i) + Qabs (sample u2 ch i))%Q)
    by apply Qabs_triangle.
  lra.
Qed.

Lemma normalizer_peak_bound_witness :
  let pcm := {| shape0 := 2; columns := [[3; -(1 # 2)]%Q] |} in
  exists out g',
    Normalizer_process (1 # 100000) pcm example_generator = Ok (out, g')
    /\ shape0 out = 2%nat
    /\ shape1 out = 1%nat
    /\ forall ch i : nat,
         (ch < 1)%nat -> (i < 2)%nat ->
         (Qabs (sample out ch i) <= 1 + 2 * (1 # 100000))%Q.
Proof.
  apply (normalizer_peak_bound (1 # 100000)
           {| shape0 := 2; columns := [[3; -(1 # 2)]%Q] |} example_generator).
  - discriminate.
  - repeat constructor.
  - discriminate.
  - intros k. split; discriminate.
Defined.

(* ------------------------------------------------------------------ *)
(** ** The converter: processing, time-stretch and the buffer it encodes *)

Section ConverterChain.

Context `{L : Libm} `{SP : Scipy}.

(** The processing chain needs 19 rows: the oversampled buffer of a
    shorter one has fewer rows than the 151 taps of the anti-alias
    kernel, and the chain raises [ValueError]. *)
Theorem process_audio_short_buffer (self : UniversalConverter) (pcm : ndarray)
  (g : RandomState) :
  well_shaped pcm -> (0 < shape1 pcm)%nat -> (0 < shape0 pcm < 19)%nat ->
  process_audio self pcm g = Raise ValueError.
Proof.
  intros Hw H1 H0. unfold process_audio.
  change (firwin 151 (45 # 100) 8)
    with (Ok (map (firwin_tap 151 (45 # 100) 8) (seq 0 151))).
  cbn [bind AudioPipeline_process block_process].
  destruct (Oversampler_process_ok 8 pcm) as [p1 [-> [A0 [A1 Aw]]]];
    [lia | exact Hw | exact H1 |].
  cbn [bind fst snd].
  rewrite AntiAliasFilter_process_short;
    [reflexivity | exact Aw | rewrite A1; exact H1 |].
  rewrite length_map, length_seq, A0. change (Z.to_nat 8) with 8%nat. lia.
Qed.

(** The edges of the time-stretch: a zero sample rate is a
    [ZeroDivisionError]; a buffer whose duration is not positive is
    returned as it is; a target so short that less than one sample
    remains raises [ValueError] (numpy refuses a negative size, scipy a
    resampling factor below one). *)
Theorem time_stretch_edge_cases (self : UniversalConverter) (pcm : ndarray)
  (target : Q) :
  (uc_sample_rate self = 0 ->
   time_stretch self pcm target = Raise ZeroDivisionError)
  /\ (uc_sample_rate self < 0 \/ (uc_sample_rate self <> 0 /\ shape0 pcm = 0%nat) ->
      time_stretch self pcm target = Ok pcm)
  /\ (well_shaped pcm -> (0 < shape0 pcm)%nat -> (0 < shape1 pcm)%nat ->
      0 < uc_sample_rate self ->
      int (b64 (inject_Z (Z.of_nat (shape0 pcm))
                * b64 (target / b64 (inject_Z (Z.of_nat (shape0 pcm))
                                     / inject_Z (uc_sample_rate self))))) < 1 ->
      time_stretch self pcm target = Raise ValueError).
Proof.
  split; [|split].
  - intros Hsr. unfold time_stretch, truediv64. rewrite Hsr. reflexivity.
  - intros Hcase. unfold time_stretch, truediv64.
    destruct (Qeq_bool (inject_Z (uc_sample_rate self)) 0) eqn:Es.
    { apply Qeq_bool_iff in Es. unfold Qeq in Es. simpl in Es. lia. }
    cbn [bind].
    destruct (Qle_bool (b64 (inject_Z (Z.of_nat (shape0 pcm))
                             / inject_Z (uc_sample_rate self))) 0) eqn:Ec;
      [reflexivity|].
    exfalso. apply not_true_iff_false in Ec. apply Ec. apply Qle_bool_iff.
    apply b64_nonpos.
    destruct Hcase as [Hneg | [_ Hz]].
    + unfold Qdiv.
      assert (Hinv : (/ inject_Z (uc_sample_rate self) < 0)%Q).
      { destruct (uc_sample_rate self) as [|p|p]; try lia. reflexivity. }
      assert (Hrows : (0 <= inject_Z (Z.of_nat (shape0 pcm)))%Q)
        by (apply inject_Z_nonneg; lia).
      assert (0 <= inject_Z (Z.of_nat (shape0 pcm))
                   * - / inject_Z (uc_sample_rate self))%Q
        by (apply Qmult_le_0_compat; lra).
      lra.
    + rewrite Hz. unfold Qdiv. change (inject_Z (Z.of_nat 0)) with 0%Q.
      rewrite Qmult_0_l. apply Qle_refl.
  - intros Hw Hrows H1 Hsr Hnew.
    set (rows := inject_Z (Z.of_nat (shape0 pcm))) in *.
    set (current_duration := b64 (rows / inject_Z (uc_sample_rate self))) in *.
    assert (Hspos : (0 < inject_Z (uc_sample_rate self))%Q)
      by (apply inject_Z_pos; lia).
    assert (Hcur : (0 < current_duration)%Q)
      by (apply current_duration_pos; lia).
    unfold time_stretch, truediv64. fold rows.
    destruct (Qeq_bool (inject_Z (uc_sample_rate self)) 0) eqn:Es.
    { apply Qeq_bool_iff in Es. rewrite Es in Hspos. discriminate. }
    cbn [bind]. fold current_duration.
    destruct (Qle_bool current_duration 0) eqn:Ec.
    { apply Qle_bool_iff in Ec. exfalso. apply (Qlt_not_le _ _ Hcur Ec). }
    destruct (Qeq_bool current_duration 0) eqn:Ez.
    { apply Qeq_bool_iff in Ez. rewrite Ez in Hcur. discriminate. }
    cbn [bind].
    set (new_num_samples := int (b64 (rows * b64 (target / current_duration)))) in *.
    unfold np_zeros.
    destruct (new_num_samples <? 0) eqn:En; [reflexivity|].
    apply Z.ltb_ge in En.
    destruct (Z.of_nat (shape1 pcm) <? 0) eqn:E1; [apply Z.ltb_lt in E1; lia|].
    cbn [orb bind].
    unfold shape1 in H1.
    destruct (columns pcm) as [|col rest]; [simpl in H1; lia|].
    cbn [per_channel]. unfold resample_poly.
    destruct (new_num_samples <? 1) eqn:E2; [reflexivity|].
    apply Z.ltb_ge in E2. lia.
Qed.

End ConverterChain.

Lemma process_audio_short_buffer_witness :
  process_audio (L := example_libm) (SP := example_scipy) example_converter
    example_audio example_generator = Raise ValueError.
Proof.
  apply (@process_audio_short_buffer example_libm example_scipy
           example_converter example_audio example_generator).
  - repeat constructor.
  - unfold shape1. simpl. lia.
  - simpl. lia.
Defined.

Lemma time_stretch_edge_cases_witness :
  time_stretch (SP := example_scipy)
    (UniversalConverter_init [] 0 2 1 (Some 2) 0 120) example_audio 2
  = Raise ZeroDivisionError
  /\ time_stretch (SP := example_scipy) example_converter
       {| shape0 := 0; columns := [[]; []] |} 2
     = Ok {| shape0 := 0; columns := [[]; []] |}
  /\ time_stretch (SP := example_scipy) example_converter example_audio 0
     = Raise ValueError.
Proof.
  split; [|split].
  - apply (proj1 (@time_stretch_edge_cases example_scipy
                    (UniversalConverter_init [] 0 2 1 (Some 2) 0 120)
                    example_audio 2)).
    reflexivity.
  - apply (proj1 (proj2 (@time_stretch_edge_cases example_scipy
                           example_converter
                           {| shape0 := 0; columns := [[]; []] |} 2))).
    right. split; [discriminate | reflexivity].
  - apply (proj2 (proj2 (@time_stretch_edge_cases example_scipy
                           example_converter example_audio 0))).
    + repeat constructor.
    + simpl. lia.
    + unfold shape1. simpl. lia.
    + reflexivity.
    + reflexivity.
Defined.

Section ConvertShape.

Context `{L : Libm} `{SP : Scipy}.


End ConvertShape.


(* ------------------------------------------------------------------ *)
(** ** The error cases of the reverb and of the equaliser *)

Section EffectErrors.

Context `{L : Libm}.


(** The equaliser designs each band before it touches the audio: a
    sample rate of zero is a [ZeroDivisionError], a centre frequency above
    half the sample rate or below zero a [ValueError], and a band with
    [Q = 0] a [ZeroDivisionError], whatever the buffer holds. *)
Theorem eq_rejects_band_out_of_range (pcm : ndarray) (sample_rate : Z)
  (band : eq_band) (rest : list eq_band) :
  (sample_rate = 0 ->
   apply_advanced_eq pcm sample_rate (Some (band :: rest))
   = Raise ZeroDivisionError)
  /\ (0 < sample_rate ->
      (inject_Z sample_rate / 2 < center_freq band)%Q
      \/ (center_freq band < 0)%Q ->
      apply_advanced_eq pcm sample_rate (Some (band :: rest))
      = Raise ValueError)
  /\ (0 < sample_rate ->
      (0 <= center_freq band <= inject_Z sample_rate / 2)%Q ->
      (band_Q band == 0)%Q ->
      apply_advanced_eq pcm sample_rate (Some (band :: rest))
      = Raise ZeroDivisionError).
Proof.
  assert (Hhalf : 0 < sample_rate ->
            (0 < inject_Z sample_rate / 2)%Q
            /\ Qeq_bool (inject_Z sample_rate / 2) 0 = false).
  { intros Hsr.
    assert (Hpos : (0 < inject_Z sample_rate / 2)%Q).
    { apply Qlt_shift_div_l; [reflexivity|]. rewrite Qmult_0_l.
      apply inject_Z_pos. exact Hsr. }
    split; [exact Hpos|].
    destruct (Qeq_bool _ 0) eqn:E; [|reflexivity].
    apply Qeq_bool_iff in E. rewrite E in Hpos. discriminate. }
  assert (Hscale : forall c : Q,
            (0 < inject_Z sample_rate / 2)%Q ->
            (c == c / (inject_Z sample_rate / 2) * (inject_Z sample_rate / 2))%Q
            /\ forall x y : Q,
                 (x <= y)%Q ->
                 (x * (inject_Z sample_rate / 2)
                  <= y * (inject_Z sample_rate / 2))%Q).
  { intros c Hpos. split.
    - field. intros H0. rewrite H0 in Hpos. discriminate.
    - intros x y Hxy. apply Qmult_le_compat_r; [exact Hxy|].
      apply Qlt_le_weak, Hpos. }
  split; [|split].
  - intros ->. reflexivity.
  - intros Hsr Hrange. destruct (Hhalf Hsr) as [Hpos Hz].
    unfold apply_advanced_eq. cbn [apply_bands]. unfold apply_band, truediv.
    change (Qeq_bool 2 0) with false. cbn [bind]. rewrite Hz. cbn [bind].
    unfold iirpeak.
    destruct (Qlt_le_dec 1 (center_freq band / (inject_Z sample_rate / 2)))
      as [_|Hle]; [reflexivity|].
    destruct (Qlt_le_dec (center_freq band / (inject_Z sample_rate / 2)) 0)
      as [_|Hge]; [reflexivity|].
    exfalso. destruct (Hscale (center_freq band)) as [E Hmono].
    { exact Hpos. }
    pose proof (Hmono _ _ Hle) as H1. pose proof (Hmono _ _ Hge) as H2.
    destruct Hrange as [Hhigh|Hlow]; lra.
  - intros Hsr [Hlo Hhi] Hq. destruct (Hhalf Hsr) as [Hpos Hz].
    unfold apply_advanced_eq. cbn [apply_bands]. unfold apply_band, truediv.
    change (Qeq_bool 2 0) with false. cbn [bind]. rewrite Hz. cbn [bind].
    unfold iirpeak, truediv.
    destruct (Qlt_le_dec 1 (center_freq band / (inject_Z sample_rate / 2)))
      as [Hgt|_].
    { exfalso. destruct (Hscale (center_freq band) Hpos) as [E _].
      assert (Hm := Qmult_lt_compat_r _ _ _ Hpos Hgt). lra. }
    destruct (Qlt_le_dec (center_freq band / (inject_Z sample_rate / 2)) 0)
      as [Hneg|_].
    { exfalso. destruct (Hscale (center_freq band) Hpos) as [E Hmono].
      assert (H1 := Hmono _ _ (Qlt_le_weak _ _ Hneg)).
      assert (Hne : ~ (center_freq band / (inject_Z sample_rate / 2) == 0)%Q)
        by (intros H0; rewrite H0 in Hneg; discriminate).
      apply Hne. apply Qle_antisym; [apply Qlt_le_weak, Hneg|].
      apply Qle_shift_div_l; [exact Hpos|]. lra. }
    apply Qeq_bool_iff in Hq. rewrite Hq. reflexivity.
Qed.

End EffectErrors.


Lemma eq_rejects_band_out_of_range_witness :
  apply_advanced_eq (L := example_libm) example_audio 0 (Some default_bands)
  = Raise ZeroDivisionError
  /\ apply_advanced_eq (L := example_libm) example_audio 1000 (Some default_bands)
     = Raise ValueError
  /\ apply_advanced_eq (L := example_libm) example_audio 8000
       (Some [{| gain_db := 3; center_freq := 1000; band_Q := 0 |}])
     = Raise ZeroDivisionError.
Proof.
  split; [|split].
  - apply (proj1 (@eq_rejects_band_out_of_range example_libm example_audio 0
                    {| gain_db := 3; center_freq := 1000; band_Q := 1 |} [])).
    reflexivity.
  - apply (proj1 (proj2 (@eq_rejects_band_out_of_range example_libm
                           example_audio 1000
                           {| gain_db := 3; center_freq := 1000; band_Q := 1 |}
                           []))).
    + lia.
    + left. reflexivity.
  - apply (proj2 (proj2 (@eq_rejects_band_out_of_range example_libm
                           example_audio 8000
                           {| gain_db := 3; center_freq := 1000; band_Q := 0 |}
                           []))).
    + lia.
    + split; discriminate.
    + reflexivity.
Defined.

(* ------------------------------------------------------------------ *)
(** ** Where the voices of a converter start *)

Lemma total_duration_last (default_duration : Q) (front : list midi_event)
  (final : midi_event) :
  total_duration default_duration (front ++ [final])
  = max2 default_duration (b64 (b64 (ev_time final / 1000000) + (1 # 2))).
Proof.
  unfold total_duration. destruct front as [|e front]; [reflexivity|].
  cbn [app]. rewrite last_last. reflexivity.
Qed.

Lemma Qfloor_succ_le (x y : Q) : (x + 1 <= y)%Q -> Qfloor x + 1 <= Qfloor y.
Proof.
  intros H. rewrite <- (Qfloor_Z (Qfloor x + 1)). apply Qfloor_resp_le.
  rewrite inject_Z_plus. pose proof (Qfloor_le x).
  change (inject_Z 1) with 1%Q. lra.
Qed.

(** The two sides of the rounding error of a number that is not
    negative. *)
Lemma b64_between (x : Q) :
  (0 <= x)%Q ->
  (x * (1 - (1 # 9007199254740992)) <= b64 x
   /\ b64 x <= x * (1 + (1 # 9007199254740992)))%Q.
Proof.
  intros Hx. pose proof (b64_error x) as E.
  rewrite (Qabs_pos x Hx) in E.
  change ((1 # 2) ^ 53)%Q with (1 # 9007199254740992)%Q in E.
  apply Qabs_Qle_condition in E. destruct E as [E1 E2].
  split; lra.
Qed.

(** When no event is later than the last one of the list (as in the
    output of the parsers), the sample rate is at least three and the
    last event lies below sample [2^49], every event of the converter
    falls inside the buffer it renders: the duration leaves half a second
    after the last event, which the roundings do not use up. *)
Theorem events_start_inside_buffer (front : list midi_event)
  (final : midi_event) (rate nchannels : Z) (default_duration : Q)
  (target_length_sec : option Z) (transposition : Z) (bpm : Q) :
  3 <= rate ->
  (ev_time final * inject_Z rate / 1000000 <= 562949953421312)%Q ->
  Forall (fun e => 0 <= ev_time e <= ev_time final)%Q (front ++ [final]) ->
  let self := UniversalConverter_init (front ++ [final]) rate nchannels
                default_duration target_length_sec transposition bpm in
  let synth := {| sample_rate := uc_sample_rate self;
                  channels := uc_channels self;
                  duration := uc_duration self |} in
  Forall (fun e =>
            0 <= start_sample_of synth e
              < int (b64 (inject_Z (sample_rate synth) * duration synth)))
    (uc_midi_events self).
Proof.
  intros Hsr Hbig Htimes self synth.
  assert (Hdur : uc_duration self
                 = max2 default_duration
                     (b64 (b64 (ev_time final / 1000000) + (1 # 2)))).
  { subst self. unfold UniversalConverter_init. cbn [uc_duration].
    rewrite total_duration_init. apply total_duration_last. }
  subst synth. cbn [sample_rate duration].
  change (uc_sample_rate self) with rate. rewrite Hdur.
  assert (Hfinal : (0 <= ev_time final)%Q).
  { rewrite Forall_forall in Htimes.
    destruct (Htimes final) as [H _]; [apply in_or_app; right; left; reflexivity|].
    exact H. }
  subst self. unfold UniversalConverter_init. cbn [uc_midi_events].
  rewrite map_map. apply Forall_map.
  eapply Forall_impl; [|exact Htimes]. cbv beta. intros e [Hlo Hhi].
  unfold start_sample_of. cbn [sample_rate override_tempo transpose ev_time].
  assert (Hrate : (3 <= inject_Z rate)%Q).
  { change 3%Q with (inject_Z 3). rewrite <- Zle_Qle. exact Hsr. }
  assert (Hr0 : (0 <= inject_Z rate)%Q) by lra.
  set (sr := inject_Z rate) in *.
  (* the start sample, from above *)
  set (A := b64 (b64 (ev_time e * sr) / 1000000)).
  set (A' := b64 (b64 (ev_time final * sr) / 1000000)).
  assert (HA0 : (0 <= A)%Q).
  { apply rounded_time_nonneg; [exact Hlo | lia | reflexivity]. }
  assert (HAA : (A <= A')%Q).
  { apply b64_le. apply Qmult_le_compat_r; [|discriminate].
    apply b64_le. apply Qmult_le_compat_r; assumption. }
  assert (HP : (0 <= ev_time final * sr)%Q) by (apply Qmult_le_0_compat; assumption).
  destruct (b64_between _ HP) as [_ HP2].
  assert (HP0 : (0 <= b64 (ev_time final * sr))%Q) by (apply b64_nonneg, HP).
  assert (HQ : (0 <= b64 (ev_time final * sr) / 1000000)%Q).
  { apply Qle_shift_div_l; [reflexivity|]. rewrite Qmult_0_l. exact HP0. }
  destruct (b64_between _ HQ) as [_ HQ2]. fold A' in HQ2.
  (* the number of rows, from below *)
  set (q := b64 (ev_time final / 1000000)).
  assert (Hq0 : (0 <= ev_time final / 1000000)%Q).
  { apply Qle_shift_div_l; [reflexivity|]. rewrite Qmult_0_l. exact Hfinal. }
  destruct (b64_between _ Hq0) as [Hq1 _]. fold q in Hq1.
  assert (Hqn : (0 <= q)%Q) by (apply b64_nonneg, Hq0).
  set (D := b64 (q + (1 # 2))).
  assert (HD0 : (0 <= q + (1 # 2))%Q) by lra.
  destruct (b64_between _ HD0) as [HD1 _]. fold D in HD1.
  set (d := max2 default_duration D).
  assert (Hd : (D <= d)%Q) by apply max2_ge_r.
  assert (HDn : (0 <= D)%Q) by (apply b64_nonneg, HD0).
  assert (Hy : (0 <= sr * d)%Q) by (apply Qmult_le_0_compat; lra).
  destruct (b64_between _ Hy) as [HB1 _].
  set (B := b64 (sr * d)) in *.
  assert (H1 : (sr * D <= sr * d)%Q).
  { rewrite !(Qmult_comm sr). apply Qmult_le_compat_r; assumption. }
  assert (H2 : (sr * ((q + (1 # 2)) * (1 - (1 # 9007199254740992))) <= sr * D)%Q).
  { rewrite !(Qmult_comm sr). apply Qmult_le_compat_r; assumption. }
  assert (H3 : (sr * (ev_time final / 1000000 * (1 - (1 # 9007199254740992)))
                <= sr * q)%Q).
  { rewrite !(Qmult_comm sr). apply Qmult_le_compat_r; assumption. }
  assert (Hle : (A + 1 <= B)%Q).
  { set (X := (ev_time final * sr / 1000000)%Q) in *.
    assert (E1 : (sr * (ev_time final / 1000000 * (1 - (1 # 9007199254740992)))
                  == X * (1 - (1 # 9007199254740992)))%Q)
      by (unfold X; field).
    assert (E2 : (sr * ((q + (1 # 2)) * (1 - (1 # 9007199254740992)))
                  == (sr * q + sr * (1 # 2)) * (1 - (1 # 9007199254740992)))%Q)
      by ring.
    assert (E3 : (b64 (ev_time final * sr) / 1000000
                  == b64 (ev_time final * sr) * (1 # 1000000))%Q)
      by (unfold Qdiv; reflexivity).
    assert (E4 : (X == ev_time final * sr * (1 # 1000000))%Q)
      by (unfold X, Qdiv; reflexivity).
    assert (HX0 : (0 <= X)%Q).
    { rewrite E4. apply Qmult_le_0_compat; [exact HP | discriminate]. }
    rewrite E1 in H3. rewrite E2 in H2. rewrite E3 in HQ2.
    set (a1 := b64 (ev_time final * sr)) in *.
    set (P := (ev_time final * sr)%Q) in *.
    set (sq := (sr * q)%Q) in *.
    set (sD := (sr * D)%Q) in *.
    set (sd := (sr * d)%Q) in *.
    clearbody A A' a1 P sq sD sd B X sr.
    clear - HAA HP2 HQ2 HB1 H1 H2 H3 E4 HX0 Hbig Hrate.
    lra. }
  subst A B.
  rewrite (int_nonneg _ HA0).
  assert (HBn : (0 <= b64 (sr * d))%Q) by (apply b64_nonneg, Hy).
  rewrite (int_nonneg _ HBn).
  pose proof (Qfloor_succ_le _ _ Hle).
  assert (0 <= Qfloor (b64 (b64 (ev_time e * sr) / 1000000))).
  { change 0 with (Qfloor 0). apply Qfloor_resp_le. exact HA0. }
  lia.
Qed.

Lemma events_start_inside_buffer_witness :
  let self := UniversalConverter_init chord_events 44100 2 1 None 0 120 in
  let synth := {| sample_rate := uc_sample_rate self;
                  channels := uc_channels self;
                  duration := uc_duration self |} in
  Forall (fun e =>
            0 <= start_sample_of synth e
              < int (b64 (inject_Z (sample_rate synth) * duration synth)))
    (uc_midi_events self).
Proof.
  apply (events_start_inside_buffer
           [ note_event note_on 0 60 100; note_event note_on 0 64 100;
             note_event note_on 0 67 100; note_event note_off 500000 60 0;
             note_event note_off 500000 64 0 ]
           (note_event note_off 500000 67 0) 44100 2 1 None 0 120).
  - lia.
  - vm_compute. discriminate.
  - repeat constructor; discriminate.
Defined.

(* ------------------------------------------------------------------ *)
(** ** The resonance model and the pedal noise *)

Lemma resonance_of_bounds (note : Z) (i : nat) :
  (0 < resonance_of note i <= 2 # 10)%Q
  /\ (Z.of_nat i = note -> resonance_of note i == 2 # 10)%Q.
Proof.
  unfold resonance_of.
  set (a := Qabs (inject_Z (Z.of_nat i) - inject_Z note)).
  assert (Ha : (0 <= a)%Q) by apply Qabs_nonneg.
  assert (Hden : (0 < 1 + a)%Q) by lra.
  split; [split|].
  - apply Qlt_shift_div_l; [exact Hden | lra].
  - apply Qle_shift_div_r; [exact Hden | lra].
  - intros E. subst a. rewrite E.
    assert (Hz : (inject_Z note - inject_Z note == 0)%Q) by ring.
    rewrite Hz. reflexivity.
Qed.

Lemma nth_map_in {A B} (f : A -> B) (l : list A) (i : nat) (d : B) (d' : A) :
  (i < length l)%nat -> nth i (map f l) d = f (nth i l d').
Proof.
  revert i. induction l as [|x l IH]; intros [|i] Hi; simpl in *; try lia.
  - reflexivity.
  - apply IH. lia.
Qed.

Lemma resonance_step_nth (factors : list Q) (note : Z) (i : nat) :
  length factors = 128%nat -> (i < 128)%nat ->
  nth i (map (fun p => (fst p + snd p)%Q)
           (combine factors (map (resonance_of note) (seq 0 128)))) 0%Q
  = (nth i factors 0 + resonance_of note i)%Q.
Proof.
  intros Hl Hi.
  rewrite (nth_map_in _ _ i 0%Q (0%Q, 0%Q))
    by (rewrite length_combine, length_map, length_seq, Hl; exact Hi).
  rewrite combine_nth by (rewrite length_map, length_seq; exact Hl).
  cbn [fst snd]. f_equal. apply nth_map_seq. exact Hi.
Qed.

(** An update keeps the 128 factors and adds to each of them the
    resonance of every active note, [0.2 / (1 + |i - note|)]: a positive
    amount of at most 0.2 per note, and 0.2 exactly at the index of the
    note itself.  The result does not depend on the order of the notes. *)
Theorem resonance_update_adds (factors : list Q) (active_notes : list Z) :
  length factors = 128%nat ->
  let factors' := ResonanceModel_update factors active_notes in
  length factors' = 128%nat
  /\ forall i : nat,
       (i < 128)%nat ->
       (nth i factors' 0
        == nth i factors 0
           + sum_list (map (fun note => resonance_of note i) active_notes))%Q
       /\ (nth i factors 0 <= nth i factors' 0
           <= nth i factors 0 + (2 # 10) * inject_Z (len active_notes))%Q
       /\ (In (Z.of_nat i) active_notes ->
           nth i factors 0 + (2 # 10) <= nth i factors' 0)%Q.
Proof.
  revert factors. unfold ResonanceModel_update.
  induction active_notes as [|note notes IH]; intros factors Hl.
  - cbn [fold_left map sum_list fold_right]. split; [exact Hl|].
    intros i Hi. split; [ring|]. split; [|contradiction].
    change (inject_Z (len [])) with 0%Q. split; lra.
  - cbn [fold_left].
    set (step := map (fun p => (fst p + snd p)%Q)
                   (combine factors (map (resonance_of note) (seq 0 128)))).
    assert (Hs : length step = 128%nat).
    { subst step. rewrite length_map, length_combine, length_map, length_seq.
      lia. }
    destruct (IH step Hs) as [Hlen Hnth]. split; [exact Hlen|].
    intros i Hi. destruct (Hnth i Hi) as [Hsum [[Hlo Hhi] Hown]].
    assert (Hstep : nth i step 0%Q = (nth i factors 0 + resonance_of note i)%Q)
      by (apply resonance_step_nth; assumption).
    rewrite Hstep in Hsum, Hlo, Hhi, Hown.
    destruct (resonance_of_bounds note i) as [[Rlo Rhi] Req].
    assert (Hlen' : (inject_Z (len (note :: notes))
                     == inject_Z (len notes) + 1)%Q).
    { unfold len. cbn [length]. rewrite Nat2Z.inj_succ, <- Z.add_1_r.
      rewrite inject_Z_plus. reflexivity. }
    assert (Hsums : (0 <= sum_list (map (fun n => resonance_of n i) notes))%Q).
    { clear. induction notes as [|n notes IH]; [apply Qle_refl|].
      cbn [map sum_list fold_right].
      destruct (resonance_of_bounds n i) as [[R _] _].
      unfold sum_list in IH. lra. }
    split; [|split; [split|]].
    + rewrite Hsum. cbn [map sum_list fold_right]. unfold sum_list. ring.
    + lra.
    + rewrite Hlen'. lra.
    + intros [E | Hin].
      * specialize (Req (eq_sym E)). rewrite Hsum. lra.
      * specialize (Hown Hin). lra.
Qed.

Lemma resonance_update_adds_witness :
  let factors' := ResonanceModel_update ResonanceModel_init [60; 64; 67]%Z in
  length factors' = 128%nat
  /\ forall i : nat,
       (i < 128)%nat ->
       (nth i factors' 0
        == nth i ResonanceModel_init 0
           + sum_list (map (fun note => resonance_of note i) [60; 64; 67]%Z))%Q
       /\ (nth i ResonanceModel_init 0 <= nth i factors' 0
           <= nth i ResonanceModel_init 0
              + (2 # 10) * inject_Z (len [60; 64; 67]%Z))%Q
       /\ (In (Z.of_nat i) [60; 64; 67]%Z ->
           nth i ResonanceModel_init 0 + (2 # 10) <= nth i factors' 0)%Q.
Proof.
  apply (resonance_update_adds ResonanceModel_init [60; 64; 67]%Z).
  reflexivity.
Defined.

(** The pedal click has [int(0.02 * sample_rate)] samples, the binary64
    product truncated.  When that count is not negative, as it is for
    every sample rate that is not negative, the function returns, takes
    as many draws from the generator, and no sample exceeds
    [0.1 * |pedal_value| / 127] in magnitude; when it is negative, numpy
    refuses the size with [ValueError]. *)
Theorem pedal_noise_bounded (rate : Z) (pedal_value : Q) (g : RandomState) :
  (forall k, 0 <= unit_uniform g k <= 1)%Q ->
  let click_samples := int (b64 (b64 (2 # 100) * inject_Z rate)) in
  (0 <= rate -> 0 <= click_samples)
  /\ (0 <= click_samples ->
      exists noise g',
        generate_pedal_noise rate pedal_value g = Ok (noise, g')
        /\ len noise = click_samples
        /\ Z.of_nat (cursor g') = Z.of_nat (cursor g) + click_samples
        /\ Forall (fun x => Qabs x <= (1 # 10) * Qabs pedal_value / 127)%Q
             noise)
  /\ (click_samples < 0 ->
      generate_pedal_noise rate pedal_value g = Raise ValueError).
Proof.
  intros Hu click_samples. split; [|split].
  - intros Hsr. subst click_samples.
    apply int_mul_nonneg; [vm_compute; discriminate | exact Hsr].
  - intros Hn. unfold generate_pedal_noise. fold click_samples.
    destruct (click_samples <? 0) eqn:E; [apply Z.ltb_lt in E; lia|].
    unfold random_uniform. cbn [fst snd columns seq map concat advance cursor].
    rewrite app_nil_r. eexists. eexists. split; [reflexivity|].
    split; [|split].
    + unfold len. rewrite !length_map, length_seq. lia.
    + unfold advance. cbn [cursor]. lia.
    + apply Forall_map. apply Forall_map. apply Forall_forall. intros i _.
      set (r := unit_uniform g _).
      assert (Hr : (0 <= r <= 1)%Q) by apply Hu.
      unfold Qdiv. rewrite Qabs_Qmult, Qabs_Qmult.
      change (Qabs (/ 127)) with (/ 127)%Q.
      assert (Hx : (Qabs (- (1 # 10) + ((1 # 10) - - (1 # 10)) * r) <= 1 # 10)%Q).
      { apply Qabs_Qle_condition. split; lra. }
      assert (Hp : (0 <= Qabs pedal_value * / 127)%Q).
      { apply Qmult_le_0_compat; [apply Qabs_nonneg | discriminate]. }
      rewrite <- Qmult_assoc.
      apply Qmult_le_compat_r; [exact Hx | exact Hp].
  - intros Hn. unfold generate_pedal_noise. fold click_samples.
    destruct (click_samples <? 0) eqn:E; [reflexivity|].
    apply Z.ltb_ge in E. lia.
Qed.

Lemma pedal_noise_bounded_witness :
  (exists noise g',
     generate_pedal_noise 44100 127 example_generator = Ok (noise, g')
     /\ len noise = 882
     /\ Z.of_nat (cursor g') = 0 + 882
     /\ Forall (fun x => Qabs x <= (1 # 10) * Qabs 127 / 127)%Q noise)
  /\ generate_pedal_noise (-100) 127 example_generator = Raise ValueError.
Proof.
  split.
  - apply (proj1 (proj2 (pedal_noise_bounded 44100 127 example_generator
                           ltac:(intros k; split; discriminate)))).
    vm_compute. discriminate.
  - apply (proj2 (proj2 (pedal_noise_bounded (-100) 127 example_generator
                           ltac:(intros k; split; discriminate)))).
    reflexivity.
Defined.

(* ------------------------------------------------------------------ *)
(** ** The sanitizer *)

(** The sanitizer returns the events in their order and drops nothing but
    note-off events; what it returns it would return unchanged if it ran
    again: every note-off that is left releases a note that is open. *)
Theorem sanitizer_drops_only_orphans (events out : list midi_event) :
  validate_note_events events = Ok out ->
  drops_note_offs events out /\ validate_note_events out = Ok out.
Proof.
  unfold validate_note_events. generalize no_open_notes.
  revert out. induction events as [|event rest IH]; intros out o H.
  - injection H as <-. split; [constructor | reflexivity].
  - cbn [validate_from] in H.
    destruct (ev_type event) eqn:Ety.
    + destruct (ev_channel event) as [channel|] eqn:Ec; [|discriminate].
      destruct (ev_note event) as [note|] eqn:En; [|discriminate].
      cbn [getitem bind] in H.
      destruct (validate_from (open_append o channel note) rest) as [s|] eqn:E;
        [|discriminate].
      injection H as <-. destruct (IH _ _ E) as [Hd Hi].
      split; [constructor; exact Hd|].
      cbn [validate_from]. rewrite Ety, Ec, En. cbn [getitem bind].
      rewrite Hi. reflexivity.
    + destruct (ev_note event) as [note|] eqn:En; [|discriminate].
      destruct (ev_channel event) as [channel|] eqn:Ec; [|discriminate].
      cbn [getitem bind] in H.
      destruct (is_open o channel note) eqn:Eo.
      * destruct (validate_from (open_remove o channel note) rest) as [s|] eqn:E;
          [|discriminate].
        injection H as <-. destruct (IH _ _ E) as [Hd Hi].
        split; [constructor; exact Hd|].
        cbn [validate_from]. rewrite Ety, Ec, En. cbn [getitem bind].
        rewrite Eo, Hi. reflexivity.
      * destruct (IH _ _ H) as [Hd Hi].
        split; [apply drops_drop; assumption | exact Hi].
    + destruct (validate_from o rest) as [s|] eqn:E; [|discriminate].
      injection H as <-. destruct (IH _ _ E) as [Hd Hi].
      split; [constructor; exact Hd|].
      cbn [validate_from]. rewrite Ety, Hi. reflexivity.
    + destruct (validate_from o rest) as [s|] eqn:E; [|discriminate].
      injection H as <-. destruct (IH _ _ E) as [Hd Hi].
      split; [constructor; exact Hd|].
      cbn [validate_from]. rewrite Ety, Hi. reflexivity.
    + destruct (validate_from o rest) as [s|] eqn:E; [|discriminate].
      injection H as <-. destruct (IH _ _ E) as [Hd Hi].
      split; [constructor; exact Hd|].
      cbn [validate_from]. rewrite Ety, Hi. reflexivity.
Qed.

Lemma sanitizer_drops_only_orphans_witness :
  let events := [ note_event note_off 0 60 0;
                  note_event note_on 100000 60 100;
                  note_event note_off 200000 60 0;
                  note_event note_off 300000 60 0 ] in
  let out := [ note_event note_on 100000 60 100;
               note_event note_off 200000 60 0 ] in
  drops_note_offs events out /\ validate_note_events out = Ok out.
Proof.
  apply (sanitizer_drops_only_orphans
           [ note_event note_off 0 60 0;
             note_event note_on 100000 60 100;
             note_event note_off 200000 60 0;
             note_event note_off 300000 60 0 ]
           [ note_event note_on 100000 60 100;
             note_event note_off 200000 60 0 ]).
  reflexivity.
Defined.

(** The sanitizer returns exactly when every note-on and note-off event
    carries ['note'] and ['channel']; one such event without them makes
    it raise [KeyError], wherever it stands in the list. *)
Theorem sanitizer_key_errors (events : list midi_event) :
  (forallb has_sanitizer_keys events = true ->
   exists out, validate_note_events events = Ok out)
  /\ (forallb has_sanitizer_keys events = false ->
      validate_note_events events = Raise KeyError).
Proof.
  unfold validate_note_events. generalize no_open_notes.
  induction events as [|event rest IH]; intros o.
  - split; [intros _; eexists; reflexivity | discriminate].
  - cbn [forallb validate_from]. unfold has_sanitizer_keys at 1 3.
    split.
    + intros H. apply andb_prop in H as [Hk Hrest].
      destruct (ev_type event);
        try (destruct (proj1 (IH o) Hrest) as [s ->]; eexists; reflexivity);
        destruct (ev_note event) as [note|]; try discriminate;
        destruct (ev_channel event) as [channel|]; try discriminate;
        cbn [getitem bind].
      * destruct (proj1 (IH (open_append o channel note)) Hrest) as [s ->].
        eexists; reflexivity.
      * destruct (is_open o channel note).
        -- destruct (proj1 (IH (open_remove o channel note)) Hrest) as [s ->].
           eexists; reflexivity.
        -- apply (proj1 (IH o) Hrest).
    + intros H.
      assert (Hrest : forall o',
                 forallb has_sanitizer_keys rest = true
                 \/ validate_from o' rest = Raise KeyError).
      { intros o'. destruct (forallb has_sanitizer_keys rest) eqn:E;
          [left; reflexivity | right; apply IH; reflexivity]. }
      destruct (ev_type event).
      * destruct (ev_channel event) as [channel|];
          destruct (ev_note event) as [note|]; cbn [getitem bind];
          try reflexivity.
        destruct (Hrest (open_append o channel note)) as [E | ->];
          [rewrite E in H; discriminate | reflexivity].
      * destruct (ev_note event) as [note|];
          destruct (ev_channel event) as [channel|]; cbn [getitem bind];
          try reflexivity.
        destruct (is_open o channel note).
        -- destruct (Hrest (open_remove o channel note)) as [E | ->];
             [rewrite E in H; discriminate | reflexivity].
        -- destruct (Hrest o) as [E | ->];
             [rewrite E in H; discriminate | reflexivity].
      * destruct (Hrest o) as [E | ->];
          [rewrite E in H; discriminate | reflexivity].
      * destruct (Hrest o) as [E | ->];
          [rewrite E in H; discriminate | reflexivity].
      * destruct (Hrest o) as [E | ->];
          [rewrite E in H; discriminate | reflexivity].
Qed.

Lemma sanitizer_key_errors_witness :
  (exists out, validate_note_events chord_events = Ok out)
  /\ validate_note_events
       [ note_event note_on 0 60 100;
         {| ev_type := note_off; ev_time := 500000; ev_note := Some 60;
            ev_velocity := Some 0; ev_channel := None; ev_value := None |} ]
     = Raise KeyError.
Proof.
  split.
  - apply (proj1 (sanitizer_key_errors chord_events)). reflexivity.
  - apply (proj2 (sanitizer_key_errors
                    [ note_event note_on 0 60 100;
                      {| ev_type := note_off; ev_time := 500000;
                         ev_note := Some 60; ev_velocity := Some 0;
                         ev_channel := None; ev_value := None |} ])).
    reflexivity.
Defined.

Lemma list_remove_in (note x : Z) (l : list Z) :
  x <> note -> In x l -> In x (list_remove note l).
Proof.
  intros Hne. induction l as [|y l IH]; intros Hin; [contradiction|].
  cbn [list_remove]. destruct (y =? note) eqn:E.
  - apply Z.eqb_eq in E. destruct Hin as [-> | Hin]; [contradiction | exact Hin].
  - destruct Hin as [-> | Hin]; [left; reflexivity | right; apply IH, Hin].
Qed.

(** While a note is open, the sanitizer keeps the note-off that [render]
    would pair it with: the duration found for the note is the same
    before and after sanitizing. *)
Lemma note_duration_sec_sanitized (event : midi_event) (note channel : Z) :
  ev_note event = Some note -> ev_channel event = Some channel ->
  forall (rest out : list midi_event) (o : open_notes),
    In note (o channel) ->
    validate_from o rest = Ok out ->
    note_duration_sec event out = note_duration_sec event rest.
Proof.
  intros Hn Hc. induction rest as [|e rest IH]; intros out o Hin H.
  - injection H as <-. reflexivity.
  - cbn [validate_from] in H. destruct (ev_type e) eqn:Ety.
    + destruct (ev_channel e) as [c|] eqn:Ec; [|discriminate].
      destruct (ev_note e) as [n|] eqn:En; [|discriminate].
      cbn [getitem bind] in H.
      destruct (validate_from (open_append o c n) rest) as [s|] eqn:E;
        [|discriminate].
      injection H as <-. cbn [note_duration_sec]. rewrite Ety.
      cbn [event_type_eqb]. apply (IH s (open_append o c n)); [|exact E].
      unfold open_append. destruct (channel =? c); [|exact Hin].
      apply in_or_app. left. exact Hin.
    + destruct (ev_note e) as [n|] eqn:En; [|discriminate].
      destruct (ev_channel e) as [c|] eqn:Ec; [|discriminate].
      cbn [getitem bind] in H.
      destruct ((n =? note) && (c =? channel)) eqn:Ematch.
      * apply andb_prop in Ematch as [E1 E2].
        apply Z.eqb_eq in E1, E2. subst n c.
        assert (Ho : is_open o channel note = true).
        { unfold is_open. apply existsb_exists. exists note.
          split; [exact Hin | apply Z.eqb_refl]. }
        rewrite Ho in H.
        destruct (validate_from (open_remove o channel note) rest) as [s|];
          [|discriminate].
        injection H as <-. cbn [note_duration_sec].
        rewrite Ety, Hn, Hc, En, Ec. cbn [event_type_eqb getitem bind get_eqb].
        rewrite !Z.eqb_refl. reflexivity.
      * assert (Hskip : forall l,
                   note_duration_sec event (e :: l) = note_duration_sec event l).
        { intros l. cbn [note_duration_sec].
          rewrite Ety, Hn, Hc, En, Ec. cbn [event_type_eqb getitem bind get_eqb].
          destruct (n =? note); [|reflexivity].
          destruct (c =? channel); [discriminate | reflexivity]. }
        rewrite Hskip.
        destruct (is_open o c n).
        -- destruct (validate_from (open_remove o c n) rest) as [s|] eqn:E;
             [|discriminate].
           injection H as <-. rewrite Hskip.
           apply (IH s (open_remove o c n)); [|exact E].
           unfold open_remove. destruct (channel =? c) eqn:E2; [|exact Hin].
           apply Z.eqb_eq in E2. subst c. apply list_remove_in; [|exact Hin].
           intros ->. rewrite !Z.eqb_refl in Ematch. discriminate.
        -- apply (IH out o); assumption.
    + destruct (validate_from o rest) as [s|] eqn:E; [|discriminate].
      injection H as <-. cbn [note_duration_sec]. rewrite Ety.
      cbn [event_type_eqb]. apply (IH s o); assumption.
    + destruct (validate_from o rest) as [s|] eqn:E; [|discriminate].
      injection H as <-. cbn [note_duration_sec]. rewrite Ety.
      cbn [event_type_eqb]. apply (IH s o); assumption.
    + destruct (validate_from o rest) as [s|] eqn:E; [|discriminate].
      injection H as <-. cbn [note_duration_sec]. rewrite Ety.
      cbn [event_type_eqb]. apply (IH s o); assumption.
Qed.

Lemma voice_jobs_sanitized (events : list midi_event) :
  forall (out : list midi_event) (o : open_notes),
    validate_from o events = Ok out -> voice_jobs out = voice_jobs events.
Proof.
  induction events as [|e rest IH]; intros out o H.
  - injection H as <-. reflexivity.
  - cbn [validate_from] in H. destruct (ev_type e) eqn:Ety.
    + destruct (ev_channel e) as [c|] eqn:Ec; [|discriminate].
      destruct (ev_note e) as [n|] eqn:En; [|discriminate].
      cbn [getitem bind] in H.
      destruct (validate_from (open_append o c n) rest) as [s|] eqn:E;
        [|discriminate].
      injection H as <-. cbn [voice_jobs]. rewrite Ety. cbn [event_type_eqb].
      rewrite (note_duration_sec_sanitized e n c En Ec rest s
                 (open_append o c n)); [|  | exact E].
      * rewrite (IH _ _ E). reflexivity.
      * unfold open_append. rewrite Z.eqb_refl. apply in_or_app.
        right. left. reflexivity.
    + destruct (ev_note e) as [n|] eqn:En; [|discriminate].
      destruct (ev_channel e) as [c|] eqn:Ec; [|discriminate].
      cbn [getitem bind] in H. cbn [voice_jobs]. rewrite Ety.
      cbn [event_type_eqb].
      destruct (is_open o c n).
      * destruct (validate_from (open_remove o c n) rest) as [s|] eqn:E;
          [|discriminate].
        injection H as <-. cbn [voice_jobs]. rewrite Ety.
        cbn [event_type_eqb]. exact (IH _ _ E).
      * exact (IH _ _ H).
    + destruct (validate_from o rest) as [s|] eqn:E; [|discriminate].
      injection H as <-. cbn [voice_jobs]. rewrite Ety.
      cbn [event_type_eqb]. exact (IH _ _ E).
    + destruct (validate_from o rest) as [s|] eqn:E; [|discriminate].
      injection H as <-. cbn [voice_jobs]. rewrite Ety.
      cbn [event_type_eqb]. exact (IH _ _ E).
    + destruct (validate_from o rest) as [s|] eqn:E; [|discriminate].
      injection H as <-. cbn [voice_jobs]. rewrite Ety.
      cbn [event_type_eqb]. exact (IH _ _ E).
Qed.

Section SanitizedRender.

Context `{L : Libm}.

(** Sanitizing does not change the audio: the note-off events the
    sanitizer drops are never the ones [render] pairs a note with, so a
    synthesizer renders the sanitized list to the buffer it renders the
    raw list to. *)
Theorem sanitizer_preserves_render (self : HybridSynthesizer)
  (events out : list midi_event) :
  validate_note_events events = Ok out ->
  render self out = render self events.
Proof.
  intros H. unfold render.
  destruct (np_zeros _ _) as [audio|]; [|reflexivity]. cbn [bind].
  rewrite !render_events_voices.
  rewrite (voice_jobs_sanitized events out no_open_notes H). reflexivity.
Qed.

End SanitizedRender.

Lemma sanitizer_preserves_render_witness :
  @render example_libm example_synth
    [ note_event note_on 100000 60 100; note_event note_off 200000 60 0 ]
  = @render example_libm example_synth
      [ note_event note_off 0 60 0;
        note_event note_on 100000 60 100;
        note_event note_off 200000 60 0;
        note_event note_off 300000 60 0 ].
Proof.
  apply (@sanitizer_preserves_render example_libm example_synth
           [ note_event note_off 0 60 0;
             note_event note_on 100000 60 100;
             note_event note_off 200000 60 0;
             note_event note_off 300000 60 0 ]
           [ note_event note_on 100000 60 100;
             note_event note_off 200000 60 0 ]).
  reflexivity.
Defined.

(* ------------------------------------------------------------------ *)
(** ** The note parser *)

Lemma dict_get_in (d : list (str * Z)) (key : str) (v : Z) :
  dict_get d key = Some v -> In v (map snd d).
Proof.
  induction d as [|[k w] d IH]; [discriminate|]. cbn [dict_get map snd].
  destruct (str_eqb k key).
  - intros H. injection H as <-. left. reflexivity.
  - intros H. right. apply IH, H.
Qed.

Lemma NOTE_OFFSETS_range (key : str) (semitone : Z) :
  dict_get NOTE_OFFSETS key = Some semitone -> 0 <= semitone <= 11.
Proof.
  intros H. apply dict_get_in in H. vm_compute in H.
  repeat (destruct H as [<- | H]; [lia|]). contradiction.
Qed.

Lemma digit_value_range (d : digit) : 0 <= digit_value d <= 9.
Proof. destruct d; simpl; lia. Qed.

Section NoteParserProperties.

Context `{U : Unicode}.

Lemma note_to_midi_range_core (note_str : str) :
  match note_to_midi note_str with
  | Ok midi_note => 12 <= midi_note <= 131
  | Raise e => e = ValueError
  end.
Proof.
  unfold note_to_midi.
  destruct (match_note note_str) as [[[note accidental] octave]|];
    [|reflexivity].
  destruct (dict_get NOTE_OFFSETS (upper note :: accidental)) as [semitone|] eqn:E;
    [|reflexivity].
  destruct (decimal_digit octave) as [o|]; [|reflexivity].
  pose proof (NOTE_OFFSETS_range _ _ E). pose proof (digit_value_range o). lia.
Qed.

Lemma upper_note_letter (letter : N) :
  is_note_letter letter = true ->
  is_note_letter (upper letter) = true /\ upper (upper letter) = upper letter.
Proof.
  unfold is_note_letter, upper. intros H.
  apply orb_true_iff in H as [H | H]; apply andb_prop in H as [H1 H2];
    apply N.leb_le in H1, H2.
  - destruct ((97 <=? letter) && (letter <=? 122))%N eqn:E.
    { apply andb_prop in E as [E _]. apply N.leb_le in E. lia. }
    rewrite E. split; [|reflexivity].
    apply orb_true_iff. left. apply andb_true_intro.
    split; apply N.leb_le; lia.
  - assert (E : ((97 <=? letter) && (letter <=? 122))%N = true).
    { apply andb_true_intro. split; apply N.leb_le; lia. }
    rewrite E.
    assert (E2 : ((97 <=? letter - 32) && (letter - 32 <=? 122))%N = false).
    { apply andb_false_iff. left. apply N.leb_gt. lia. }
    rewrite E2. split; [|reflexivity].
    apply orb_true_iff. left. apply andb_true_intro.
    split; apply N.leb_le; lia.
Qed.

(** A note string is converted to a number from 12 (C0) to 131 (B9),
    which may lie above the 127 of MIDI, or it is refused with
    [ValueError]; the case of the letter makes no difference. *)
Theorem note_to_midi_range (note_str : str) :
  match note_to_midi note_str with
  | Ok midi_note => 12 <= midi_note <= 131
  | Raise e => e = ValueError
  end
  /\ forall letter rest,
       note_str = letter :: rest -> is_note_letter letter = true ->
       note_to_midi (upper letter :: rest) = note_to_midi note_str.
Proof.
  split; [apply note_to_midi_range_core|].
  intros letter rest -> Hl.
  destruct (upper_note_letter letter Hl) as [Hu Huu].
  unfold note_to_midi, match_note. rewrite Hl, Hu.
  destruct rest as [|a [|d rest]]; [reflexivity | |].
  - destruct (is_digit a); [|reflexivity]. rewrite Huu. reflexivity.
  - destruct (is_accidental a && is_digit d); [rewrite Huu; reflexivity|].
    destruct (is_digit a); [|reflexivity]. rewrite Huu. reflexivity.
Qed.

Lemma match_note_inv (s : str) (letter : N) (accidental : str) (octave : N) :
  match_note s = Some (letter, accidental, octave) ->
  is_note_letter letter = true
  /\ is_digit octave = true
  /\ (accidental = []
      \/ exists a, accidental = [a] /\ is_accidental a = true)
  /\ exists rest, s = letter :: accidental ++ octave :: rest.
Proof.
  unfold match_note. destruct s as [|l rest]; [discriminate|].
  destruct (is_note_letter l) eqn:El; [|discriminate].
  destruct rest as [|a [|d rest]]; [discriminate | |].
  - destruct (is_digit a) eqn:Ea; [|discriminate].
    intros H. injection H as <- <- <-.
    split; [exact El|]. split; [exact Ea|]. split; [left; reflexivity|].
    exists []. reflexivity.
  - destruct (is_accidental a && is_digit d) eqn:Ead.
    + apply andb_prop in Ead as [Ea Ed].
      intros H. injection H as <- <- <-.
      split; [exact El|]. split; [exact Ed|].
      split; [right; exists a; split; [reflexivity | exact Ea]|].
      exists rest. reflexivity.
    + destruct (is_digit a) eqn:Ea; [|discriminate].
      intros H. injection H as <- <- <-.
      split; [exact El|]. split; [exact Ea|]. split; [left; reflexivity|].
      exists (d :: rest). reflexivity.
Qed.

(** The text of a match is matched again, with the same groups. *)
Lemma match_note_text (s : str) (letter : N) (accidental : str) (octave : N) :
  match_note s = Some (letter, accidental, octave) ->
  match_note (firstn (2 + length accidental) s)
  = Some (letter, accidental, octave).
Proof.
  intros H. destruct (match_note_inv _ _ _ _ H)
    as [El [Ed [[-> | [a [-> Ea]]] [rest ->]]]].
  - cbn [length Nat.add app firstn]. unfold match_note. rewrite El, Ed.
    reflexivity.
  - cbn [length Nat.add app firstn]. unfold match_note. rewrite El, Ea, Ed.
    reflexivity.
Qed.

Lemma findall_notes_match (s : str) :
  forall skip : nat,
    Forall (fun note => exists groups, match_note note = Some groups)
      (findall_from note_match_length skip s).
Proof.
  induction s as [|c s IH]; intros skip; [constructor|].
  cbn [findall_from]. destruct skip as [|k]; [|apply IH].
  unfold note_match_length at 1.
  destruct (match_note (c :: s)) as [[[letter accidental] octave]|] eqn:E;
    [|apply IH].
  constructor; [|apply IH].
  exists (letter, accidental, octave). apply match_note_text, E.
Qed.

Lemma bracket_match_text (s : str) (n : nat) :
  bracket_match_length s = Some n ->
  exists inner rest, s = inner ++ 93%N :: rest /\ n = S (length inner).
Proof.
  revert n. induction s as [|c s IH]; intros n H; [discriminate|].
  cbn [bracket_match_length] in H.
  destruct (c =? 93)%N eqn:E1.
  - apply N.eqb_eq in E1. subst c. injection H as <-.
    exists [], s. split; reflexivity.
  - destruct (c =? 10)%N; [discriminate|].
    destruct (bracket_match_length s) as [m|]; [|discriminate].
    injection H as <-. destruct (IH m eq_refl) as [inner [rest [-> ->]]].
    exists (c :: inner), rest. split; reflexivity.
Qed.

Lemma firstn_app_exact {A} (l1 l2 : list A) :
  firstn (length l1) (l1 ++ l2) = l1.
Proof.
  rewrite firstn_app, Nat.sub_diag, firstn_all. cbn [firstn].
  apply app_nil_r.
Qed.

(** The notes [parse] takes from a token are all matched by the note
    pattern. *)
Lemma token_notes_match (s : str) (n : nat) :
  token_match_length s = Some n ->
  Forall (fun note => exists groups, match_note note = Some groups)
    (token_notes (firstn n s)).
Proof.
  unfold token_match_length. intros H.
  assert (Hnote : note_match_length s = Some n ->
            Forall (fun note => exists groups, match_note note = Some groups)
              (token_notes (firstn n s))).
  { unfold note_match_length.
    destruct (match_note s) as [[[letter accidental] octave]|] eqn:E;
      [|discriminate].
    intros Hn. injection Hn as <-.
    pose proof (match_note_text _ _ _ _ E) as Ht.
    destruct (match_note_inv _ _ _ _ E) as [El [_ [_ [rest Hs]]]].
    unfold token_notes. cbn [Nat.add] in Ht |- *.
    destruct (startswith (firstn (S (S (length accidental))) s) 91) eqn:Es.
    - exfalso. rewrite Hs in Es. cbn [firstn startswith] in Es.
      apply N.eqb_eq in Es. subst letter. discriminate.
    - cbn [andb]. constructor; [|constructor].
      exists (letter, accidental, octave). exact Ht. }
  destruct s as [|c s]; [apply Hnote, H|].
  destruct (c =? 91)%N eqn:Ec; [|apply Hnote, H].
  destruct (bracket_match_length s) as [m|] eqn:Em; [|apply Hnote, H].
  cbn [option_map] in H. injection H as <-.
  apply N.eqb_eq in Ec. subst c.
  destruct (bracket_match_text s m Em) as [inner [rest [-> ->]]].
  assert (Htoken : firstn (S (S (length inner))) (91%N :: inner ++ 93%N :: rest)
                   = 91%N :: inner ++ [93%N]).
  { change (firstn (S (S (length inner))) (91%N :: inner ++ 93%N :: rest))
      with (91%N :: firstn (S (length inner)) (inner ++ 93%N :: rest)).
    f_equal.
    change (93%N :: rest) with ([93%N] ++ rest). rewrite app_assoc.
    replace (S (length inner)) with (length (inner ++ [93%N]))
      by (rewrite length_app; simpl; lia).
    apply firstn_app_exact. }
  rewrite Htoken. unfold token_notes.
  replace (startswith (91%N :: inner ++ [93%N]) 91) with true by reflexivity.
  assert (He : endswith (91%N :: inner ++ [93%N]) 93 = true).
  { unfold endswith.
    change (91%N :: inner ++ [93%N]) with ((91%N :: inner) ++ [93%N]).
    rewrite last_last. reflexivity. }
  rewrite He. cbn [andb]. apply findall_notes_match.
Qed.

(** The branch "Invalid note format" of [_note_to_midi] is never taken
    from [parse]: every note string it is called with is matched by the
    pattern, and is refused only when its name is none of
    [NOTE_OFFSETS]. *)
Theorem parse_notes_always_match (notation_str : str) :
  Forall
    (fun token =>
       Forall
         (fun note =>
            exists letter accidental octave o,
              match_note note = Some (letter, accidental, octave)
              /\ decimal_digit octave = Some o
              /\ note_to_midi note
                 = match dict_get NOTE_OFFSETS (upper letter :: accidental) with
                   | Some semitone =>
                       Ok ((digit_value o + 1) * 12 + semitone)
                   | None => Raise ValueError
                   end)
         (token_notes token))
    (findall token_match_length notation_str).
Proof.
  unfold findall. generalize 0%nat.
  induction notation_str as [|c s IH]; intros skip; [constructor|].
  cbn [findall_from]. destruct skip as [|k]; [|apply IH].
  destruct (token_match_length (c :: s)) as [n|] eqn:E; [|apply IH].
  constructor; [|apply IH].
  eapply Forall_impl; [|exact (token_notes_match _ _ E)].
  intros note [[[letter accidental] octave] Hm].
  destruct (match_note_inv _ _ _ _ Hm) as [_ [Hd _]].
  unfold is_digit in Hd.
  destruct (decimal_digit octave) as [o|] eqn:Eo; [|discriminate].
  exists letter, accidental, octave, o.
  split; [exact Hm|]. split; [exact Eo|].
  unfold note_to_midi. rewrite Hm, Eo.
  destruct (dict_get NOTE_OFFSETS (upper letter :: accidental)); reflexivity.
Qed.

Lemma notes_to_events_pairs (notes : list str) (time default_duration : Q) :
  match notes_to_events notes time default_duration with
  | Ok events => note_pairs events
  | Raise e => e = ValueError
  end.
Proof.
  induction notes as [|note notes IH]; [constructor|].
  cbn [notes_to_events].
  pose proof (note_to_midi_range_core note) as Hr.
  destruct (note_to_midi note) as [midi_note|e]; [|exact Hr].
  cbn [bind].
  destruct (notes_to_events notes time default_duration) as [events|e];
    [|exact IH].
  cbn [bind note_events app]. apply note_pairs_cons; assumption.
Qed.

Lemma note_pairs_app (l1 l2 : list midi_event) :
  note_pairs l1 -> note_pairs l2 -> note_pairs (l1 ++ l2).
Proof.
  induction 1 as [|note t_on t_off rest Hn _ IH]; intros H2; [exact H2|].
  cbn [app]. apply note_pairs_cons; [exact Hn | apply IH, H2].
Qed.

Lemma tokens_to_events_pairs (tokens : list str) :
  forall time default_duration : Q,
    match tokens_to_events tokens time default_duration with
    | Ok events => note_pairs events
    | Raise e => e = ValueError
    end.
Proof.
  induction tokens as [|token tokens IH]; intros time default_duration;
    [constructor|].
  cbn [tokens_to_events].
  pose proof (notes_to_events_pairs (token_notes token) time default_duration)
    as Hn.
  destruct (notes_to_events (token_notes token) time default_duration)
    as [events|e]; [|exact Hn].
  cbn [bind].
  specialize (IH (b64 (time + default_duration)) default_duration).
  destruct (tokens_to_events tokens (b64 (time + default_duration))
              default_duration) as [more|e]; [|exact IH].
  cbn [bind]. apply note_pairs_app; assumption.
Qed.

Lemma NoteParser_parse_pairs (notation_str : str) (tempo : Q)
  (events : list midi_event) :
  NoteParser_parse notation_str tempo = Ok events -> note_pairs events.
Proof.
  unfold NoteParser_parse.
  destruct (truediv64 60 tempo) as [beat|]; [|discriminate].
  cbn [bind]. intros H.
  pose proof (tokens_to_events_pairs
                (findall token_match_length notation_str) 0 beat) as Hp.
  rewrite H in Hp. exact Hp.
Qed.

(** Whatever the notation holds, [parse] returns events in pairs (a
    note-on of velocity 100 and, right after it, the note-off of the same
    note, on channel 0), or it raises: [ZeroDivisionError] for a tempo of
    zero and otherwise [ValueError], for a note name that is unknown. *)
Theorem note_parser_events_paired (notation_str : str) (tempo : Q) :
  match NoteParser_parse notation_str tempo with
  | Ok events => note_pairs events /\ ~ (tempo == 0)%Q
  | Raise e =>
      (e = ZeroDivisionError /\ (tempo == 0)%Q)
      \/ (e = ValueError /\ ~ (tempo == 0)%Q)
  end.
Proof.
  unfold NoteParser_parse, truediv64.
  destruct (Qeq_bool tempo 0) eqn:E.
  - apply Qeq_bool_iff in E. left. split; [reflexivity | exact E].
  - assert (Hne : ~ (tempo == 0)%Q).
    { intros H0. apply Qeq_bool_iff in H0. congruence. }
    cbn [bind].
    pose proof (tokens_to_events_pairs
                  (findall token_match_length notation_str) 0
                  (b64 (60 / tempo))) as H.
    destruct (tokens_to_events _ 0 (b64 (60 / tempo))) as [events|e].
    + split; assumption.
    + right. split; assumption.
Qed.

End NoteParserProperties.

Lemma note_pairs_keys (events : list midi_event) :
  note_pairs events -> Forall has_note_keys events.
Proof.
  induction 1 as [|note t_on t_off rest _ _ IH]; [constructor|].
  constructor; [|constructor; [|exact IH]];
    intros _; split; discriminate.
Qed.

Lemma note_pairs_sanitized (events : list midi_event) :
  note_pairs events -> forall o, validate_from o events = Ok events.
Proof.
  induction 1 as [|note t_on t_off rest _ _ IH]; intros o; [reflexivity|].
  cbn [validate_from note_event ev_type ev_channel ev_note getitem bind].
  assert (Ho : is_open (open_append o 0 note) 0 note = true).
  { unfold is_open, open_append. cbn [Z.eqb]. rewrite existsb_app.
    cbn [existsb]. rewrite Z.eqb_refl. apply orb_true_iff. right. reflexivity. }
  rewrite Ho, IH. reflexivity.
Qed.

Section ParsedNotation.

Context `{U : Unicode} `{L : Libm} `{SP : Scipy}.

(** The events of a parsed notation are fit for the rest of the program:
    the sanitizer would keep every one of them, and a converter built
    from them synthesizes a buffer of [int(sample_rate * duration)] rows,
    the binary64 product truncated, and [channels] columns. *)
Theorem parsed_notation_renders (notation_str : str) (tempo : Q)
  (events : list midi_event) (rate nchannels : Z) (default_duration : Q)
  (target_length_sec : option Z) (transposition : Z) (bpm : Q) :
  NoteParser_parse notation_str tempo = Ok events ->
  0 <= rate -> 0 <= nchannels -> (0 <= default_duration)%Q ->
  let self := UniversalConverter_init events rate nchannels
                default_duration target_length_sec transposition bpm in
  validate_note_events events = Ok events
  /\ exists audio,
       generate_waveform self = Ok audio
       /\ Z.of_nat (shape0 audio)
          = int (b64 (inject_Z rate * uc_duration self))
       /\ Z.of_nat (shape1 audio) = nchannels
       /\ well_shaped audio.
Proof.
  intros Hparse Hsr Hch Hdd self.
  pose proof (NoteParser_parse_pairs notation_str tempo events Hparse) as Hp.
  split; [apply note_pairs_sanitized, Hp|].
  apply generate_waveform_ok.
  - apply Qmult_le_0_compat; [apply inject_Z_nonneg, Hsr|].
    subst self. unfold UniversalConverter_init. cbn [uc_duration].
    rewrite total_duration_init.
    destruct events as [|e rest]; [exact Hdd|].
    unfold total_duration. eapply Qle_trans; [exact Hdd | apply max2_ge_l].
  - exact Hch.
  - subst self. unfold UniversalConverter_init. cbn [uc_midi_events].
    rewrite map_map. apply Forall_map.
    eapply Forall_impl; [|exact (note_pairs_keys _ Hp)].
    intros e. apply has_note_keys_init.
Qed.

End ParsedNotation.

Lemma note_to_midi_range_witness :
  match note_to_midi (U := example_unicode) (codes "g#9") with
  | Ok midi_note => 12 <= midi_note <= 131
  | Raise e => e = ValueError
  end
  /\ note_to_midi (U := example_unicode) (codes "G#9")
     = note_to_midi (U := example_unicode) (codes "g#9").
Proof.
  destruct (@note_to_midi_range example_unicode (codes "g#9")) as [Hr Hc].
  split; [exact Hr|]. apply (Hc 103%N (codes "#9")); reflexivity.
Defined.

Lemma parsed_notation_renders_witness :
  let events :=
    [ note_event note_on 0 60 100; note_event note_off 600000 60 0;
      note_event note_on 600000 62 100; note_event note_off 1200000 62 0;
      note_event note_on 1200000 64 100; note_event note_off 1799999 64 0 ] in
  let self := UniversalConverter_init events 44100 2 1 None 0 120 in
  validate_note_events events = Ok events
  /\ exists audio,
       generate_waveform (L := example_libm) self = Ok audio
       /\ Z.of_nat (shape0 audio) = 101429
       /\ Z.of_nat (shape1 audio) = 2
       /\ well_shaped audio.
Proof.
  apply (@parsed_notation_renders example_unicode example_libm
           (codes "C4 D4 E4") 100
           [ note_event note_on 0 60 100; note_event note_off 600000 60 0;
             note_event note_on 600000 62 100; note_event note_off 1200000 62 0;
             note_event note_on 1200000 64 100;
             note_event note_off 1799999 64 0 ]
           44100 2 1 None 0 120).
  - vm_compute. reflexivity.
  - lia.
  - lia.
  - discriminate.
Defined.

(* ------------------------------------------------------------------ *)
(** ** The MIDI parser *)

Lemma insert_by_time_snoc (e : midi_event) (l : list midi_event) :
  Forall (fun x => ev_time x <= ev_time e)%Q l ->
  insert_by_time e l = l ++ [e].
Proof.
  induction 1 as [|x l Hx _ IH]; [reflexivity|].
  cbn [insert_by_time app].
  destruct (Qle_bool (ev_time x) (ev_time e)) eqn:E.
  - rewrite IH. reflexivity.
  - apply Qle_bool_iff in Hx. congruence.
Qed.

Lemma insert_by_time_forall (P : midi_event -> Prop) (e : midi_event)
  (l : list midi_event) :
  P e -> Forall P l -> Forall P (insert_by_time e l).
Proof.
  intros He. induction 1 as [|x l Hx Hl IH]; cbn [insert_by_time].
  - constructor; [exact He | constructor].
  - destruct (Qle_bool (ev_time x) (ev_time e)).
    + constructor; assumption.
    + constructor; [exact He|]. constructor; assumption.
Qed.

Lemma sort_by_time_snoc (l : list midi_event) (e : midi_event) :
  sort_by_time (l ++ [e]) = insert_by_time e (sort_by_time l).
Proof. unfold sort_by_time. rewrite fold_left_app. reflexivity. Qed.

Lemma sort_by_time_forall (P : midi_event -> Prop) (l : list midi_event) :
  Forall P l -> Forall P (sort_by_time l).
Proof.
  induction l as [|e l IH] using rev_ind; intros H; [constructor|].
  rewrite sort_by_time_snoc. apply Forall_app in H as [Hl He].
  inversion He; subst. apply insert_by_time_forall; auto.
Qed.

Lemma ForallOrdPairs_snoc {A} (R : A -> A -> Prop) (l : list A) (e : A) :
  ForallOrdPairs R l -> Forall (fun x => R x e) l ->
  ForallOrdPairs R (l ++ [e]).
Proof.
  induction 1 as [|a l Ha Hl IH]; intros He; cbn [app].
  - constructor; constructor.
  - inversion He; subst. constructor.
    + apply Forall_app. split; [exact Ha | constructor; [assumption | constructor]].
    + apply IH. assumption.
Qed.

Lemma appended_in_order_later (events : list midi_event) (now now' : Q) :
  appended_in_order events now -> (now <= now')%Q ->
  appended_in_order events now'.
Proof.
  intros [H0 [Hord [Hle Hsort]]] Hnow.
  split; [eapply Qle_trans; eassumption|]. split; [exact Hord|].
  split; [|exact Hsort].
  eapply Forall_impl; [|exact Hle]. cbv beta. intros x [Hx0 Hx1].
  split; [exact Hx0 | eapply Qle_trans; eassumption].
Qed.

Lemma appended_in_order_snoc (events : list midi_event) (now : Q)
  (e : midi_event) :
  appended_in_order events now -> ev_time e = now ->
  appended_in_order (events ++ [e]) now.
Proof.
  intros [H0 [Hord [Hle Hsort]]] He.
  assert (Hall : Forall (fun x => ev_time x <= ev_time e)%Q events).
  { eapply Forall_impl; [|exact Hle]. cbv beta. intros x [_ Hx].
    rewrite He. exact Hx. }
  split; [exact H0|]. split; [|split].
  - apply ForallOrdPairs_snoc; assumption.
  - apply Forall_app. split; [exact Hle|].
    constructor; [|constructor]. rewrite He. split; [exact H0 | apply Qle_refl].
  - rewrite sort_by_time_snoc, Hsort. apply insert_by_time_snoc. exact Hall.
Qed.

Lemma message_event_time (now : Q) (msg : mido_message) (e : midi_event) :
  message_event now msg = Some e -> ev_time e = now.
Proof.
  destruct msg; cbn [message_event]; try discriminate;
    try (intros H; injection H as <-; reflexivity).
  destruct (control =? 64); [|discriminate].
  intros H; injection H as <-; reflexivity.
Qed.

Lemma message_event_ok (now : Q) (msg : mido_message) (e : midi_event) :
  message_event now msg = Some e -> parsed_event_ok e.
Proof.
  destruct msg; cbn [message_event]; try discriminate.
  - intros H; injection H as <-. unfold parsed_event_ok. cbn [ev_type ev_value].
    discriminate.
  - intros H; injection H as <-. unfold parsed_event_ok.
    cbn [ev_type ev_note ev_channel ev_velocity].
    destruct (Z.max 0 (Z.min 127 velocity) =? 0) eqn:E.
    + apply Z.eqb_eq in E.
      split; [discriminate|]. split; [discriminate|].
      eexists. split; [reflexivity | lia].
    + apply Z.eqb_neq in E.
      split; [discriminate|]. split; [discriminate|].
      eexists. split; [reflexivity | lia].
  - intros H; injection H as <-. unfold parsed_event_ok.
    cbn [ev_type ev_note ev_channel ev_velocity].
    split; [discriminate|]. split; [discriminate|].
    eexists. split; [reflexivity | lia].
  - destruct (control =? 64); [|discriminate].
    intros H; injection H as <-. unfold parsed_event_ok. cbn [ev_type ev_value].
    discriminate.
  - intros H; injection H as <-. unfold parsed_event_ok. cbn [ev_type ev_value].
    discriminate.
Qed.

Lemma handle_messages_events_ok (ticks_per_beat : Z) (msgs : list mido_message) :
  forall self : MidiParser,
    Forall parsed_event_ok (mp_events self) ->
    match handle_messages ticks_per_beat self msgs with
    | Ok self' => Forall parsed_event_ok (mp_events self')
    | Raise e => e = ZeroDivisionError /\ ticks_per_beat = 0
    end.
Proof.
  induction msgs as [|msg msgs IH]; intros self Hev; [exact Hev|].
  cbn [handle_messages]. unfold handle_message, tick2second, truediv64.
  destruct (Qeq_bool (inject_Z ticks_per_beat) 0) eqn:E.
  - apply Qeq_bool_iff in E. split; [reflexivity|].
    unfold Qeq in E. simpl in E. lia.
  - cbn [bind]. apply IH. cbn [mp_events].
    destruct (message_event _ msg) as [e|] eqn:Em; [|exact Hev].
    apply Forall_app. split; [exact Hev|].
    constructor; [|constructor]. exact (message_event_ok _ _ _ Em).
Qed.

(** Every event the parser returns is well formed: a note-on carries its
    note and channel and a velocity from 1 to 127 (a note-on of velocity
    zero has become a note-off), a note-off a velocity from 0 to 127, the
    other events their value.  The parser fails only for a file with zero
    ticks per beat. *)
Theorem midi_parser_events_ok (ticks_per_beat : Z)
  (tracks : list (list mido_message)) :
  match MidiParser_parse ticks_per_beat tracks with
  | Ok events => Forall parsed_event_ok events
  | Raise e => e = ZeroDivisionError /\ ticks_per_beat = 0
  end.
Proof.
  unfold MidiParser_parse.
  pose proof (handle_messages_events_ok ticks_per_beat (concat tracks)
                MidiParser_init (Forall_nil _)) as H.
  destruct (handle_messages ticks_per_beat MidiParser_init (concat tracks))
    as [self|e]; [|exact H].
  cbn [bind]. apply sort_by_time_forall, H.
Qed.

(** The clock of the parser holds binary64 numbers and never runs
    backwards: a delta that is not negative, added and rounded, gives a
    number that is not below the clock. *)
Lemma handle_messages_in_order (ticks_per_beat : Z) (msgs : list mido_message) :
  0 < ticks_per_beat -> Forall message_ok msgs ->
  forall self : MidiParser,
    0 <= mp_tempo self ->
    (b64 (mp_current_time self) == mp_current_time self)%Q ->
    appended_in_order (mp_events self) (mp_current_time self) ->
    exists self',
      handle_messages ticks_per_beat self msgs = Ok self'
      /\ 0 <= mp_tempo self'
      /\ appended_in_order (mp_events self') (mp_current_time self').
Proof.
  intros Htpb Hmsgs. induction Hmsgs as [|msg msgs [Htime Htempo] _ IH];
    intros self Ht Hclock Hord; [exists self; auto|].
  cbn [handle_messages]. unfold handle_message, tick2second, truediv64.
  assert (Hq : (0 < inject_Z ticks_per_beat)%Q) by (apply inject_Z_pos; exact Htpb).
  destruct (Qeq_bool (inject_Z ticks_per_beat) 0) eqn:E.
  { apply Qeq_bool_iff in E. rewrite E in Hq. discriminate. }
  cbn [bind].
  set (delta := b64 (b64 (inject_Z (msg_time msg)
                          * b64 (b64 (inject_Z (mp_tempo self)
                                      * b64 (1 # 1000000))
                                 / inject_Z ticks_per_beat)) * 1000000)).
  assert (Hdelta : (0 <= delta)%Q).
  { subst delta. apply b64_nonneg. apply Qmult_le_0_compat; [|discriminate].
    apply b64_nonneg.
    apply Qmult_le_0_compat; [apply inject_Z_nonneg, Htime|].
    apply b64_nonneg.
    apply Qle_shift_div_l; [exact Hq|]. rewrite Qmult_0_l.
    apply b64_nonneg.
    apply Qmult_le_0_compat; [apply inject_Z_nonneg, Ht | vm_compute; discriminate]. }
  set (now := b64 (mp_current_time self + delta)).
  assert (Hnow : (mp_current_time self <= now)%Q).
  { rewrite <- Hclock at 1. subst now. apply b64_le. lra. }
  apply IH; cbn [mp_tempo mp_events mp_current_time].
  - destruct msg; try exact Ht. exact Htempo.
  - subst now. apply b64_idempotent.
  - pose proof (appended_in_order_later _ _ _ Hord Hnow) as Hord'.
    destruct (message_event now msg) as [e|] eqn:Em; [|exact Hord'].
    apply appended_in_order_snoc; [exact Hord'|].
    exact (message_event_time _ _ _ Em).
Qed.

(** For a file whose delta times and tempos are not negative, the events
    are appended in the order of their times, across the tracks as well,
    since the clock is not reset between them: the final sort changes
    nothing, and the parser returns the events in the order of the
    messages, none earlier than one before it. *)
Theorem midi_parser_keeps_file_order (ticks_per_beat : Z)
  (tracks : list (list mido_message)) :
  0 < ticks_per_beat -> Forall (Forall message_ok) tracks ->
  exists self,
    handle_messages ticks_per_beat MidiParser_init (concat tracks) = Ok self
    /\ MidiParser_parse ticks_per_beat tracks = Ok (mp_events self)
    /\ ForallOrdPairs (fun a b => ev_time a <= ev_time b)%Q (mp_events self)
    /\ Forall (fun e => 0 <= ev_time e <= mp_current_time self)%Q
         (mp_events self).
Proof.
  intros Htpb Hok.
  destruct (handle_messages_in_order ticks_per_beat (concat tracks) Htpb)
    with (self := MidiParser_init) as [self [Hrun [_ [_ [Hord [Hle Hsort]]]]]].
  - apply Forall_concat. exact Hok.
  - cbn. lia.
  - reflexivity.
  - split; [apply Qle_refl|]. split; [constructor|].
    split; [constructor | reflexivity].
  - exists self. split; [exact Hrun|].
    unfold MidiParser_parse. rewrite Hrun. cbn [bind]. rewrite Hsort.
    auto.
Qed.

Lemma validate_from_forall (P : midi_event -> Prop) (events : list midi_event) :
  Forall P events ->
  forall o out, validate_from o events = Ok out -> Forall P out.
Proof.
  induction 1 as [|e rest He _ IH]; intros o out H.
  - injection H as <-. constructor.
  - cbn [validate_from] in H.
    destruct (ev_type e);
      try (destruct (validate_from o rest) as [s|] eqn:E; [|discriminate];
           injection H as <-; constructor; [exact He | exact (IH _ _ E)]).
    + destruct (ev_channel e) as [c|]; [|discriminate].
      destruct (ev_note e) as [n|]; [|discriminate].
      cbn [getitem bind] in H.
      destruct (validate_from (open_append o c n) rest) as [s|] eqn:E;
        [|discriminate].
      injection H as <-. constructor; [exact He | exact (IH _ _ E)].
    + destruct (ev_note e) as [n|]; [|discriminate].
      destruct (ev_channel e) as [c|]; [|discriminate].
      cbn [getitem bind] in H.
      destruct (is_open o c n).
      * destruct (validate_from (open_remove o c n) rest) as [s|] eqn:E;
          [|discriminate].
        injection H as <-. constructor; [exact He | exact (IH _ _ E)].
      * exact (IH _ _ H).
Qed.

Lemma validate_from_ok (events : list midi_event) :
  Forall parsed_event_ok events ->
  forall o, exists out, validate_from o events = Ok out.
Proof.
  induction 1 as [|e rest He _ IH]; intros o; [eexists; reflexivity|].
  cbn [validate_from]. unfold parsed_event_ok in He.
  destruct (ev_type e);
    try (destruct (IH o) as [s ->]; eexists; reflexivity).
  - destruct He as [Hn [Hc _]].
    destruct (ev_channel e) as [c|]; [|contradiction].
    destruct (ev_note e) as [n|]; [|contradiction].
    cbn [getitem bind]. destruct (IH (open_append o c n)) as [s ->].
    eexists; reflexivity.
  - destruct He as [Hn [Hc _]].
    destruct (ev_note e) as [n|]; [|contradiction].
    destruct (ev_channel e) as [c|]; [|contradiction].
    cbn [getitem bind]. destruct (is_open o c n); [|apply IH].
    destruct (IH (open_remove o c n)) as [s ->]. eexists; reflexivity.
Qed.

Section MidiFile.

Context `{L : Libm} `{SP : Scipy}.

(** From a MIDI file to the waveform: the events of a parsed file pass
    the sanitizer, and the converter built from the sanitized events
    synthesizes a buffer of [int(sample_rate * duration)] rows, the
    binary64 product truncated, and [channels] columns; no event lacks a
    key the program reads. *)
Theorem midi_file_renders (ticks_per_beat : Z)
  (tracks : list (list mido_message)) (raw_events : list midi_event)
  (rate nchannels : Z) (default_duration : Q)
  (target_length_sec : option Z) (transposition : Z) (bpm : Q) :
  MidiParser_parse ticks_per_beat tracks = Ok raw_events ->
  0 <= rate -> 0 <= nchannels -> (0 <= default_duration)%Q ->
  exists events,
    validate_note_events raw_events = Ok events
    /\ Forall parsed_event_ok events
    /\ let self := UniversalConverter_init events rate nchannels
                     default_duration target_length_sec transposition bpm in
       exists audio,
         generate_waveform self = Ok audio
         /\ Z.of_nat (shape0 audio)
            = int (b64 (inject_Z rate * uc_duration self))
         /\ Z.of_nat (shape1 audio) = nchannels
         /\ well_shaped audio.
Proof.
  intros Hparse Hsr Hch Hdd.
  assert (Hraw : Forall parsed_event_ok raw_events).
  { unfold MidiParser_parse in Hparse.
    pose proof (handle_messages_events_ok ticks_per_beat (concat tracks)
                  MidiParser_init (Forall_nil _)) as H.
    destruct (handle_messages ticks_per_beat MidiParser_init (concat tracks))
      as [self|e]; [|discriminate].
    cbn [bind] in Hparse. injection Hparse as <-.
    apply sort_by_time_forall, H. }
  destruct (validate_from_ok raw_events Hraw no_open_notes) as [events Hv].
  exists events. split; [exact Hv|].
  assert (Hev : Forall parsed_event_ok events)
    by exact (validate_from_forall _ _ Hraw _ _ Hv).
  split; [exact Hev|]. intros self.
  apply generate_waveform_ok.
  - apply Qmult_le_0_compat; [apply inject_Z_nonneg, Hsr|].
    subst self. unfold UniversalConverter_init. cbn [uc_duration].
    rewrite total_duration_init.
    destruct events as [|e rest]; [exact Hdd|].
    unfold total_duration. eapply Qle_trans; [exact Hdd | apply max2_ge_l].
  - exact Hch.
  - subst self. unfold UniversalConverter_init. cbn [uc_midi_events].
    rewrite map_map. apply Forall_map.
    eapply Forall_impl; [|exact Hev].
    intros e He. apply has_note_keys_init. intros Hon.
    unfold parsed_event_ok in He. rewrite Hon in He.
    destruct He as [Hn [Hc _]]. split; assumption.
Qed.

End MidiFile.

Lemma midi_parser_keeps_file_order_witness :
  exists self,
    handle_messages 480 MidiParser_init (concat example_tracks) = Ok self
    /\ MidiParser_parse 480 example_tracks = Ok (mp_events self)
    /\ ForallOrdPairs (fun a b => ev_time a <= ev_time b)%Q (mp_events self)
    /\ Forall (fun e => 0 <= ev_time e <= mp_current_time self)%Q
         (mp_events self).
Proof.
  apply (midi_parser_keeps_file_order 480 example_tracks).
  - lia.
  - repeat constructor; simpl; lia.
Defined.

Lemma midi_file_renders_witness :
  exists events,
    validate_note_events
      [ note_event note_on 0 60 90; note_event note_off 650000 60 0 ]
    = Ok events
    /\ Forall parsed_event_ok events
    /\ let self := UniversalConverter_init events 44100 2 1 None 0 120 in
       exists audio,
         generate_waveform (L := example_libm) self = Ok audio
         /\ Z.of_nat (shape0 audio)
            = int (b64 (inject_Z 44100 * uc_duration self))
         /\ Z.of_nat (shape1 audio) = 2
         /\ well_shaped audio.
Proof.
  apply (@midi_file_renders example_libm 480
           [[NoteOn 0 60 90 0; NoteOff 624 60 0 0]]
           [ note_event note_on 0 60 90; note_event note_off 650000 60 0 ]
           44100 2 1 None 0 120).
  - vm_compute. reflexivity.
  - lia.
  - lia.
  - discriminate.
Defined.

(** For that file, a note released at tick 624 of 480 per beat, the
    clock stands at 650000 microseconds and the buffer has 50714 rows at
    44.1 kHz. *)
Lemma midi_file_rows :
  MidiParser_parse 480 [[NoteOn 0 60 90 0; NoteOff 624 60 0 0]]
  = Ok [ note_event note_on 0 60 90; note_event note_off 650000 60 0 ]
  /\ int (b64 (inject_Z 44100
               * uc_duration
                   (UniversalConverter_init
                      [ note_event note_on 0 60 90;
                        note_event note_off 650000 60 0 ]
                      44100 2 1 None 0 120))) = 50714.
Proof. split; vm_compute; reflexivity. Qed.

(* ------------------------------------------------------------------ *)
(** ** The effects are linear in the signal *)

Lemma Forall2_firstn {A} (R : A -> A -> Prop) (n : nat) (l l' : list A) :
  Forall2 R l l' -> Forall2 R (firstn n l) (firstn n l').
Proof.
  intros H. revert n. induction H as [|x y l l' Hxy _ IH]; intros [|n];
    cbn [firstn]; constructor; auto.
Qed.

Lemma Forall2_skipn {A} (R : A -> A -> Prop) (n : nat) (l l' : list A) :
  Forall2 R l l' -> Forall2 R (skipn n l) (skipn n l').
Proof.
  intros H. revert n. induction H as [|x y l l' Hxy Hl IH]; intros [|n];
    cbn [skipn]; try constructor; auto.
Qed.

Lemma Forall2_repeat {A} (R : A -> A -> Prop) (x y : A) (n : nat) :
  R x y -> Forall2 R (repeat x n) (repeat y n).
Proof. intros H. induction n; cbn [repeat]; constructor; auto. Qed.

Lemma set_column_related (R : Q -> Q -> Prop) (arr arr' : ndarray) (ch : nat)
  (values values' : list Q) :
  samples_related R arr arr' -> Forall2 R values values' ->
  results_related (samples_related R)
    (set_column arr ch values) (set_column arr' ch values').
Proof.
  intros [H0 Hc] Hv. unfold set_column, shape1.
  rewrite <- (Forall2_length Hc), <- (Forall2_length Hv), <- H0.
  destruct (length (columns arr) <=? ch)%nat; [reflexivity|].
  destruct (length values =? shape0 arr)%nat.
  - split; [reflexivity|]. cbn [columns].
    apply Forall2_app; [apply Forall2_firstn, Hc|].
    constructor; [exact Hv | apply Forall2_skipn, Hc].
  - destruct (length values =? 1)%nat eqn:E; [|reflexivity].
    split; [reflexivity|]. cbn [columns].
    apply Forall2_app; [apply Forall2_firstn, Hc|].
    constructor; [|apply Forall2_skipn, Hc].
    apply Nat.eqb_eq in E.
    destruct Hv as [|v v' l l' Hvv _]; [discriminate|].
    apply Forall2_repeat. exact Hvv.
Qed.

Lemma per_channel_related (R : Q -> Q -> Prop)
  (f : list Q -> result (list Q)) :
  (forall x x', Forall2 R x x' -> results_related (Forall2 R) (f x) (f x')) ->
  forall (cols cols' : list (list Q)),
    Forall2 (Forall2 R) cols cols' ->
    forall (ch : nat) (acc acc' : ndarray),
      samples_related R acc acc' ->
      results_related (samples_related R)
        (per_channel f cols ch acc) (per_channel f cols' ch acc').
Proof.
  intros Hf cols cols' Hcols.
  induction Hcols as [|col col' cols cols' Hcol _ IH]; intros ch acc acc' Hacc;
    [exact Hacc|].
  cbn [per_channel]. specialize (Hf col col' Hcol).
  destruct (f col) as [y|e], (f col') as [y'|e']; try contradiction;
    cbn [bind]; [|exact Hf].
  pose proof (set_column_related R acc acc' ch y y' Hacc Hf) as Hs.
  destruct (set_column acc ch y) as [a|e], (set_column acc' ch y') as [a'|e'];
    try contradiction; cbn [bind]; [|exact Hs].
  apply IH. exact Hs.
Qed.

Lemma lfilter_from_scaled (c b0 b1 b2 a1 a2 : Q) (x x' : list Q) :
  Forall2 (scaled c) x x' ->
  forall x1 x2 y1 y2 x1' x2' y1' y2' : Q,
    scaled c x1 x1' -> scaled c x2 x2' -> scaled c y1 y1' -> scaled c y2 y2' ->
    Forall2 (scaled c)
      (lfilter_from b0 b1 b2 a1 a2 x1 x2 y1 y2 x)
      (lfilter_from b0 b1 b2 a1 a2 x1' x2' y1' y2' x').
Proof.
  induction 1 as [|xn xn' x x' Hxn _ IH]; intros; [constructor|].
  cbn [lfilter_from].
  assert (Hyn : scaled c (b0 * xn + b1 * x1 + b2 * x2 - a1 * y1 - a2 * y2)
                  (b0 * xn' + b1 * x1' + b2 * x2' - a1 * y1' - a2 * y2')).
  { unfold scaled in *. rewrite Hxn, H, H0, H1, H2. ring. }
  constructor; [exact Hyn|]. apply IH; assumption.
Qed.

Lemma lfilter_scaled (c : Q) (b a : Q * Q * Q) (x x' : list Q) :
  Forall2 (scaled c) x x' ->
  results_related (Forall2 (scaled c)) (lfilter b a x) (lfilter b a x').
Proof.
  intros Hx. unfold lfilter. destruct b as [[b0 b1] b2], a as [[a0 a1] a2].
  destruct (Qeq_bool a0 0); [reflexivity|]. cbn [results_related].
  apply lfilter_from_scaled; [exact Hx | | | |]; unfold scaled; ring.
Qed.

Lemma map_samples_scaled (c : Q) (pcm : ndarray) :
  samples_related (scaled c) pcm (map_samples (Qmult c) pcm).
Proof.
  split; [reflexivity|]. unfold map_samples. cbn [columns].
  generalize (columns pcm). intros cols.
  induction cols as [|col cols IH]; [constructor|].
  cbn [map]. constructor; [|exact IH].
  clear IH. induction col as [|x col IHc]; [constructor|].
  cbn [map]. constructor; [|exact IHc].
  unfold scaled. reflexivity.
Qed.

Section Linearity.

Context `{L : Libm}.

Lemma apply_band_scaled (c : Q) (sample_rate : Z) (band : eq_band)
  (p p' : ndarray) :
  samples_related (scaled c) p p' ->
  results_related (samples_related (scaled c))
    (apply_band sample_rate band p) (apply_band sample_rate band p').
Proof.
  intros Hp. unfold apply_band.
  destruct (truediv (inject_Z sample_rate) 2) as [half|]; [|reflexivity].
  cbn [bind].
  destruct (truediv (center_freq band) half) as [w0|]; [|reflexivity].
  cbn [bind].
  destruct (iirpeak w0 (band_Q band)) as [[[[b0 b1] b2] a]|]; [|reflexivity].
  cbn [bind].
  assert (Hr : results_related (samples_related (scaled c))
                 (per_channel
                    (lfilter
                       ((b0 * py_pow 10 (gain_db band / 20))%Q,
                        (b1 * py_pow 10 (gain_db band / 20))%Q,
                        (b2 * py_pow 10 (gain_db band / 20))%Q) a)
                    (columns p) 0 p)
                 (per_channel
                    (lfilter
                       ((b0 * py_pow 10 (gain_db band / 20))%Q,
                        (b1 * py_pow 10 (gain_db band / 20))%Q,
                        (b2 * py_pow 10 (gain_db band / 20))%Q) a)
                    (columns p') 0 p')).
  { apply per_channel_related; [|exact (proj2 Hp) | exact Hp].
    intros x x'. apply lfilter_scaled. }
  destruct (per_channel _ (columns p) 0 p) as [q|e],
           (per_channel _ (columns p') 0 p') as [q'|e'];
    try contradiction; cbn [bind]; [|exact Hr].
  destruct Hp as [_ Hcols].
  destruct Hcols as [|col col' cols cols' _ _]; [reflexivity | exact Hr].
Qed.

Lemma apply_bands_scaled (c : Q) (sample_rate : Z) (bands : list eq_band) :
  forall p p' : ndarray,
    samples_related (scaled c) p p' ->
    results_related (samples_related (scaled c))
      (apply_bands sample_rate bands p) (apply_bands sample_rate bands p').
Proof.
  induction bands as [|band bands IH]; intros p p' Hp; [exact Hp|].
  cbn [apply_bands].
  pose proof (apply_band_scaled c sample_rate band p p' Hp) as Hb.
  destruct (apply_band sample_rate band p) as [q|e],
           (apply_band sample_rate band p') as [q'|e'];
    try contradiction; cbn [bind]; [|exact Hb].
  apply IH. exact Hb.
Qed.

(** The equaliser is linear in the signal: when it returns [out] for a
    buffer, it returns [c * out], sample by sample, for the buffer scaled
    by [c]; in particular it maps silence to silence. *)
Theorem eq_is_homogeneous (pcm : ndarray) (sample_rate : Z)
  (bands : option (list eq_band)) (c : Q) (out : ndarray) :
  apply_advanced_eq pcm sample_rate bands = Ok out ->
  exists out',
    apply_advanced_eq (map_samples (Qmult c) pcm) sample_rate bands = Ok out'
    /\ shape0 out' = shape0 out
    /\ Forall2 (Forall2 (fun y y' => y' == c * y)%Q)
         (columns out) (columns out').
Proof.
  unfold apply_advanced_eq. intros H.
  pose proof (apply_bands_scaled c sample_rate
                (match bands with None => default_bands | Some bs => bs end)
                pcm (map_samples (Qmult c) pcm) (map_samples_scaled c pcm)) as Hr.
  rewrite H in Hr.
  destruct (apply_bands sample_rate _ (map_samples (Qmult c) pcm)) as [out'|];
    [|contradiction].
  destruct Hr as [H0 Hc]. exists out'. split; [reflexivity|].
  split; [symmetry; exact H0 | exact Hc].
Qed.

End Linearity.

Lemma eq_is_homogeneous_witness :
  exists out',
    apply_advanced_eq (L := example_libm)
      (map_samples (Qmult 3) unit_impulse) 44100 (Some [flat_band]) = Ok out'
    /\ shape0 out' = shape0 unit_impulse_filtered
    /\ Forall2 (Forall2 (fun y y' => y' == 3 * y)%Q)
         (columns unit_impulse_filtered) (columns out').
Proof.
  apply (@eq_is_homogeneous example_libm unit_impulse 44100
           (Some [flat_band]) 3 unit_impulse_filtered).
  vm_compute. reflexivity.
Defined.

Lemma add_lists_scaled (c : Q) (x x' : list Q) :
  Forall2 (scaled c) x x' ->
  forall y y' : list Q,
    Forall2 (scaled c) y y' ->
    Forall2 (scaled c) (add_lists x y) (add_lists x' y').
Proof.
  induction 1 as [|a a' x x' Ha Hx IH]; intros y y' Hy; [exact Hy|].
  destruct Hy as [|b b' y y' Hb Hy]; cbn [add_lists].
  - constructor; assumption.
  - constructor; [|apply IH, Hy]. unfold scaled in *. rewrite Ha, Hb. ring.
Qed.

Lemma convolve_full_scaled (c : Q) (v : list Q) (a a' : list Q) :
  Forall2 (scaled c) a a' ->
  Forall2 (scaled c) (convolve_full a v) (convolve_full a' v).
Proof.
  induction 1 as [|x x' a a' Hx _ IH]; [constructor|].
  cbn [convolve_full]. destruct v as [|z v]; [constructor|].
  apply add_lists_scaled.
  - generalize (z :: v). intros l. induction l as [|w l IHl]; cbn [map];
      constructor; [|exact IHl].
    unfold scaled in *. rewrite Hx. ring.
  - constructor; [unfold scaled; ring | exact IH].
Qed.

Lemma zip_samples_related (R : Q -> Q -> Prop) (f : Q -> Q -> Q)
  (a a' b b' : ndarray) :
  (forall d d' w w', R d d' -> R w w' -> R (f d w) (f d' w')) ->
  samples_related R a a' -> samples_related R b b' ->
  samples_related R (zip_samples f a b) (zip_samples f a' b').
Proof.
  intros Hf [A0 Ha] [_ Hb]. split; [exact A0|].
  unfold zip_samples. cbn [columns].
  revert Hb. generalize (columns b) (columns b').
  induction Ha as [|c1 c1' l l' Hc _ IH]; intros m m' Hb; [constructor|].
  destruct Hb as [|c2 c2' m m' Hc2 Hm]; [constructor|].
  cbn [combine map fst snd]. constructor; [|apply IH, Hm].
  clear - Hf Hc Hc2. revert c2 c2' Hc2.
  induction Hc as [|d d' c1 c1' Hd _ IH]; intros c2 c2' Hc2; [constructor|].
  destruct Hc2 as [|w w' c2 c2' Hw Hc2]; [constructor|].
  cbn [combine map fst snd]. constructor; [apply Hf; assumption | apply IH, Hc2].
Qed.

Section ReverbLinearity.

Context `{L : Libm}.

(** The reverb is linear in the signal: from one state of the random
    generator, which fixes the impulse response, the buffer scaled by [c]
    gives [c] times the output, sample by sample. *)
Theorem reverb_is_homogeneous (pcm : ndarray) (sample_rate : Z)
  (early_delay_ms : list Q)
  (early_decay tail_decay tail_length_sec wet_mix : Q) (g g' : RandomState)
  (c : Q) (out : ndarray) :
  apply_advanced_reverb pcm sample_rate early_delay_ms early_decay
    tail_decay tail_length_sec wet_mix g = Ok (out, g') ->
  exists out',
    apply_advanced_reverb (map_samples (Qmult c) pcm) sample_rate
      early_delay_ms early_decay tail_decay tail_length_sec wet_mix g
    = Ok (out', g')
    /\ shape0 out' = shape0 out
    /\ Forall2 (Forall2 (fun y y' => y' == c * y)%Q)
         (columns out) (columns out').
Proof.
  unfold apply_advanced_reverb. intros H.
  destruct (impulse_response sample_rate early_delay_ms early_decay tail_decay
              tail_length_sec g) as [[ir g1]|]; [|discriminate].
  cbn [bind fst snd] in H |- *.
  pose proof (map_samples_scaled c pcm) as Hpcm.
  assert (Hzero : samples_related (scaled c)
                    (map_samples (fun _ => 0%Q) pcm)
                    (map_samples (fun _ => 0%Q) (map_samples (Qmult c) pcm))).
  { split; [reflexivity|]. unfold map_samples. cbn [columns].
    generalize (columns pcm). intros cols.
    induction cols as [|col cols IH]; [constructor|].
    cbn [map]. constructor; [|exact IH].
    clear IH. induction col as [|x col IHc]; [constructor|].
    cbn [map]. constructor; [|exact IHc].
    unfold scaled. ring. }
  pose proof (per_channel_related (scaled c) (wet_channel ir (shape0 pcm))) as Hper.
  specialize (Hper
    ltac:(intros x x' Hx; unfold wet_channel, fftconvolve_full, slice_to;
          cbn [results_related];
          unfold len; rewrite <- (Forall2_length (convolve_full_scaled c ir x x' Hx));
          apply Forall2_firstn, convolve_full_scaled, Hx)
    (columns pcm) (columns (map_samples (Qmult c) pcm)) (proj2 Hpcm)
    0%nat _ _ Hzero).
  change (shape0 (map_samples (Qmult c) pcm)) with (shape0 pcm).
  destruct (per_channel (wet_channel ir (shape0 pcm)) (columns pcm) 0
              (map_samples (fun _ => 0%Q) pcm)) as [wet|]; [|discriminate].
  destruct (per_channel (wet_channel ir (shape0 pcm))
              (columns (map_samples (Qmult c) pcm)) 0
              (map_samples (fun _ => 0%Q) (map_samples (Qmult c) pcm)))
    as [wet'|]; [|contradiction].
  cbn [bind] in H |- *. injection H as <- <-.
  eexists. split; [reflexivity|].
  destruct (zip_samples_related (scaled c)
              (fun d w => ((1 - wet_mix) * d + wet_mix * w)%Q)
              pcm (map_samples (Qmult c) pcm) wet wet') as [Z0 Zc];
    [|exact Hpcm | exact Hper |].
  { intros d d' w w' Hd Hw. unfold scaled in *. rewrite Hd, Hw. ring. }
  split; [reflexivity | exact Zc].
Qed.

End ReverbLinearity.

Lemma reverb_is_homogeneous_witness :
  exists out',
    apply_advanced_reverb (L := example_libm)
      (map_samples (Qmult 3) unit_impulse) 100 [20; 40; 60]%Q (6 # 10)
      (995 # 1000) (1 # 10) (1 # 2) example_generator
    = Ok (out', snd unit_impulse_reverberated)
    /\ shape0 out' = shape0 (fst unit_impulse_reverberated)
    /\ Forall2 (Forall2 (fun y y' => y' == 3 * y)%Q)
         (columns (fst unit_impulse_reverberated)) (columns out').
Proof.
  apply (@reverb_is_homogeneous example_libm unit_impulse 100
           [20; 40; 60]%Q (6 # 10) (995 # 1000) (1 # 10) (1 # 2)
           example_generator (snd unit_impulse_reverberated) 3
           (fst unit_impulse_reverberated)).
  vm_compute. reflexivity.
Defined.
